(** * Schema synchronisation of sql-connector (src/models/Model.js)

    A shallow embedding of [getColumnDefinition], [ifReservedKeywords],
    [generateCreateTableStatement] and [Model.syncAllTables], followed by the
    properties of the synchronisation pass.

    Conventions of the embedding.
    - JavaScript strings are [string]s, read as sequences of code units;
      [toUpperCase], [toLowerCase] and [trim] are exact on ASCII text.
    - Plain objects used as dictionaries are modelled by their own
      properties.  [visited] and [modelMap], which the code only indexes,
      are [gmap]s; [dependencies], which the code also enumerates with
      [Object.keys], is an association list kept in the enumeration order of
      ECMAScript (array-index keys in ascending order first, then the other
      keys in insertion order).  A read [o[k]] that finds no own property
      finds what [Object.prototype] has under [k], if anything: a value that
      is truthy, is neither [true] nor ['temp'], and cannot be iterated
      ([JsObject.inherited]).  An assignment to [o["__proto__"]] replaces
      the prototype instead of creating a property; that is not modelled, so
      a pending model named [__proto__] is outside the embedding.
    - The database driver, the file system, the clock and the operator are
      collaborators: an abstract environment answers every call, and every
      call is recorded, with its outcome, in the list of events of the pass. *)

From stdpp Require Import gmap strings list pretty sorting.
From Stdlib Require Import Ascii ZArith Lia Permutation.

Open Scope string_scope.
Open Scope list_scope.

(** ** JavaScript strings *)

Module JsString.

Definition is_space (c : ascii) : bool :=
  let n := nat_of_ascii c in
  ((9 <=? n)%nat && (n <=? 13)%nat) || (n =? 32)%nat || (n =? 160)%nat.

Definition upper_char (c : ascii) : ascii :=
  let n := nat_of_ascii c in
  if ((97 <=? n)%nat && (n <=? 122)%nat) then ascii_of_nat (n - 32) else c.

Definition lower_char (c : ascii) : ascii :=
  let n := nat_of_ascii c in
  if ((65 <=? n)%nat && (n <=? 90)%nat) then ascii_of_nat (n + 32) else c.

Fixpoint map_chars (f : ascii -> ascii) (s : string) : string :=
  match s with
  | EmptyString => EmptyString
  | String c r => String (f c) (map_chars f r)
  end.

(** [s.toUpperCase()] and [s.toLowerCase()]. *)
Definition toUpperCase : string -> string := map_chars upper_char.
Definition toLowerCase : string -> string := map_chars lower_char.

Fixpoint trimStart (s : string) : string :=
  match s with
  | String c r => if is_space c then trimStart r else s
  | EmptyString => EmptyString
  end.

Fixpoint trimEnd (s : string) : string :=
  match s with
  | EmptyString => EmptyString
  | String c r =>
      match trimEnd r with
      | EmptyString => if is_space c then EmptyString else String c EmptyString
      | r' => String c r'
      end
  end.

(** [s.trim()]. *)
Definition trim (s : string) : string := trimEnd (trimStart s).

(** [s.split(sep)[0]] for a one-character separator: the text before the
    first occurrence of [sep], the whole string when there is none. *)
Fixpoint splitHead (sep : ascii) (s : string) : string :=
  match s with
  | EmptyString => EmptyString
  | String c r => if Ascii.eqb c sep then EmptyString else String c (splitHead sep r)
  end.

(** [s.replace(/c/g, by)]. *)
Fixpoint replaceAll (c : ascii) (by_ : string) (s : string) : string :=
  match s with
  | EmptyString => EmptyString
  | String d r =>
      if Ascii.eqb d c then by_ +:+ replaceAll c by_ r
      else String d (replaceAll c by_ r)
  end.

(** [s.startsWith(p)]. *)
Fixpoint startsWith (p s : string) : bool :=
  match p, s with
  | EmptyString, _ => true
  | String a p', String b s' => Ascii.eqb a b && startsWith p' s'
  | String _ _, EmptyString => false
  end.

(** [s.includes(p)]. *)
Fixpoint includes (p s : string) : bool :=
  startsWith p s ||
  match s with
  | EmptyString => false
  | String _ r => includes p r
  end.

(** [s.endsWith(p)]. *)
Fixpoint endsWith (p s : string) : bool :=
  String.eqb p s ||
  match s with
  | EmptyString => false
  | String _ r => endsWith p r
  end.

(** [xs.join(sep)]. *)
Definition join (sep : string) (xs : list string) : string := String.concat sep xs.

(** The order of [Array.prototype.sort] without a comparator: code units
    compared from the left, a proper prefix first. *)
Fixpoint leb (s t : string) : bool :=
  match s, t with
  | EmptyString, _ => true
  | String _ _, EmptyString => false
  | String a s', String b t' =>
      let x := nat_of_ascii a in
      let y := nat_of_ascii b in
      if (x <? y)%nat then true
      else if (y <? x)%nat then false
      else leb s' t'
  end.

Fixpoint insertSorted (x : string) (l : list string) : list string :=
  match l with
  | [] => [x]
  | y :: r => if leb x y then x :: l else y :: insertSorted x r
  end.

(** [xs.sort()] on an array of strings. *)
Definition sort (xs : list string) : list string := foldr insertSorted [] xs.

End JsString.

(** ** Plain objects enumerated with [Object.keys] *)

Module JsObject.

Fixpoint digitsValue (acc : N) (s : string) : option N :=
  match s with
  | EmptyString => Some acc
  | String c r =>
      let n := N_of_ascii c in
      if ((48 <=? n) && (n <=? 57))%N then digitsValue (acc * 10 + (n - 48))%N r
      else None
  end.

(** An array index is the canonical decimal form of an integer below
    [2^32 - 1]; such keys are enumerated first, in ascending order. *)
Definition arrayIndex (k : string) : option N :=
  match k with
  | EmptyString => None
  | _ =>
      match digitsValue 0 k with
      | Some n => if (String.eqb (pretty n) k && (n <? 4294967295)%N)%bool then Some n else None
      | None => None
      end
  end.

Section Obj.
Context {A : Type}.

(** The own properties of an object, in enumeration order. *)
Definition obj := list (string * A).

(** [o[k]] for an own property. *)
Fixpoint get (k : string) (o : obj) : option A :=
  match o with
  | [] => None
  | (k', v) :: r => if String.eqb k k' then Some v else get k r
  end.

Fixpoint replace (k : string) (v : A) (o : obj) : obj :=
  match o with
  | [] => []
  | (k', v') :: r => if String.eqb k k' then (k', v) :: r else (k', v') :: replace k v r
  end.

(** Where a new array-index key [n] goes: before the first key that is not
    an array index or is a larger one. *)
Fixpoint insertIndex (n : N) (k : string) (v : A) (o : obj) : obj :=
  match o with
  | [] => [(k, v)]
  | (k', v') :: r =>
      match arrayIndex k' with
      | Some m => if (m <? n)%N then (k', v') :: insertIndex n k v r else (k, v) :: o
      | None => (k, v) :: o
      end
  end.

(** [o[k] = v]. *)
Definition set (k : string) (v : A) (o : obj) : obj :=
  match get k o with
  | Some _ => replace k v o
  | None =>
      match arrayIndex k with
      | Some n => insertIndex n k v o
      | None => o ++ [(k, v)]
      end
  end.

(** [Object.keys(o)] and [Object.entries(o)]. *)
Definition keys (o : obj) : list string := map fst o.
Definition entries (o : obj) : list (string * A) := o.

End Obj.
Arguments obj A : clear implicits.

(** The properties of [Object.prototype], which every object written [{}]
    inherits: methods, and the accessor [__proto__]. *)
Definition prototypeNames : list string :=
  [ "constructor"; "__defineGetter__"; "__defineSetter__"; "hasOwnProperty";
    "__lookupGetter__"; "__lookupSetter__"; "isPrototypeOf"; "propertyIsEnumerable";
    "toString"; "valueOf"; "__proto__"; "toLocaleString" ].

(** [k] names a property that [{}] inherits. *)
Definition inherited (k : string) : bool := existsb (String.eqb k) prototypeNames.

End JsObject.

(** ** Field descriptors and the column-definition compiler *)

(** [field.default]: absent ([undefined]), [null], or a value, here a string. *)
Inductive defaultValue :=
| DefaultAbsent
| DefaultNull
| DefaultText (v : string).

(** A field descriptor of a schema dictionary (index.d.ts, [SchemaField],
    with the properties [primary_key], [enum] and [oldName] read by Model.js).
    [sf_type] is what [getFieldType] resolves: the name of the constructor
    given as [type], or the string given as [type]. *)
Record SchemaField := {
  sf_type : option string;
  sf_length : option Z;
  sf_required : bool;
  sf_default : defaultValue;
  sf_unique : bool;
  sf_auto_increment : bool;
  sf_primary_key : bool;
  sf_enum : option (list string);
  sf_oldName : option string;
  sf_customize : option string;
  sf_foreignKey : option string
}.

(** src/utils/sqlTypeMap.js *)
Definition sqlTypeMap : JsObject.obj string :=
  [ ("String", "VARCHAR"); ("Number", "INT"); ("Boolean", "BOOLEAN");
    ("Date", "DATETIME"); ("Object", "JSON"); ("Array", "VARCHAR");
    ("Now", "NOW()"); ("Float", "FLOAT"); ("Text", "TEXT");
    ("DateTime", "DATETIME"); ("Timestamp", "TIMESTAMP") ].

Definition getFieldType (field : SchemaField) : option string := sf_type field.

(** [sqlTypeMap[fieldType]], [undefined] as [None], for a [fieldType] that
    is not named as a property of [Object.prototype]: for such a name the
    read finds a function, which is no SQL type. *)
Definition sqlTypeOf (fieldType : option string) : option string :=
  match fieldType with
  | Some t => JsObject.get t sqlTypeMap
  | None => None
  end.

Definition reservedKeywords : list string :=
  [ "ADD"; "ALL"; "ALTER"; "AND"; "AS"; "ASC"; "BETWEEN"; "BY"; "CASE"; "CHECK";
    "COLUMN"; "CONSTRAINT"; "CREATE"; "CURRENT_DATE"; "CURRENT_TIME";
    "CURRENT_TIMESTAMP"; "DEFAULT"; "DELETE"; "DESC"; "DISTINCT"; "DROP"; "ELSE";
    "END"; "ESCAPE"; "EXCEPT"; "EXISTS"; "FOR"; "FOREIGN"; "FROM"; "FULL"; "GROUP";
    "HAVING"; "IN"; "INNER"; "INSERT"; "INTERSECT"; "INTO"; "IS"; "JOIN"; "LEFT";
    "LIKE"; "LIMIT"; "NOT"; "NULL"; "ON"; "OR"; "ORDER"; "OUTER"; "PRIMARY";
    "REFERENCES"; "RIGHT"; "SELECT"; "SET"; "SOME"; "TABLE"; "THEN"; "UNION";
    "UNIQUE"; "UPDATE"; "VALUES"; "WHEN"; "WHERE" ].

Definition ifReservedKeywords (tableName : string) : bool :=
  existsb (String.eqb (JsString.toUpperCase tableName)) reservedKeywords.

(** What the code throws, and what its collaborators reject with. *)
Inductive exn :=
| CyclicDependency
| PrimaryKeyAndUnique (fieldName : string)
| UnsupportedType (fieldName : string) (fieldType : option string)
| NoTypeDefined (fieldName : string)
| TypeError (what : string)
| Rejected (reason : string).

(** [field.enum] when it is a non-empty array. *)
Definition enumOf (field : SchemaField) : option (list string) :=
  match sf_enum field with
  | Some (v :: vs) => Some (v :: vs)
  | _ => None
  end.

Definition enumClause (values : list string) : string :=
  "ENUM(" +:+
  JsString.join ", " (map (fun v => "'" +:+ JsString.replaceAll "'"%char "''" v +:+ "'") values)
  +:+ ")".

(** [field.length > 0 ? field.length : 255] *)
Definition lengthOf (field : SchemaField) : Z :=
  match sf_length field with
  | Some n => if (0 <? n)%Z then n else 255%Z
  | None => 255%Z
  end.

(** The type part of a column definition: the first [if]/[else] of
    [getColumnDefinition]. *)
Definition typeClause (fieldName : string) (field : SchemaField) : exn + string :=
  match enumOf field with
  | Some values => inr (enumClause values)
  | None =>
      match sqlTypeOf (getFieldType field) with
      | None => inl (UnsupportedType fieldName (getFieldType field))
      | Some ty =>
          inr (ty +:+
               (if (String.eqb ty "VARCHAR" || String.eqb ty "INT")%bool
                then "(" +:+ pretty (lengthOf field) +:+ ")" else ""))
      end
  end.

(** The double quote, as a one-character string. *)
Definition dquote : string := String "034"%char EmptyString.

Definition notNullClause (field : SchemaField) : string :=
  if sf_required field then " NOT NULL" else "".

(** The clauses appended after NOT NULL, in the order of the code. *)
Definition constraintClauses (field : SchemaField) : string :=
  (match sf_default field with
   | DefaultText v => " DEFAULT " +:+ dquote +:+ v +:+ dquote
   | DefaultNull => " DEFAULT NULL"
   | DefaultAbsent => ""
   end) +:+
  (if sf_unique field then " UNIQUE" else "") +:+
  (if sf_auto_increment field then " AUTO_INCREMENT" else "") +:+
  (if sf_primary_key field then " PRIMARY KEY" else "") +:+
  (match sf_customize field with
   | Some c => if (String.length c =? 0)%nat then "" else " " +:+ c
   | None => ""
   end).

Definition getColumnDefinition (fieldName : string) (field : SchemaField) : exn + string :=
  if (sf_primary_key field && sf_unique field)%bool then inl (PrimaryKeyAndUnique fieldName)
  else
    match typeClause fieldName field with
    | inl e => inl e
    | inr colDef =>
        inr (fieldName +:+ " " +:+ (colDef +:+ notNullClause field +:+ constraintClauses field))
    end.

(** ** Statements, events and collaborators *)

(** A declared table: [new Model(name, schema)], with
    [schemaDict = model.schema.schemaDict] in enumeration order. *)
Record Model := {
  name : string;
  schemaDict : JsObject.obj SchemaField
}.

Inductive dbValue :=
| DbNull
| DbNumber (n : Z)
| DbText (s : string).

(** A row of SHOW COLUMNS and a row of SHOW INDEX, with the properties the
    code reads. *)
Record ColumnInfo := {
  col_Field : string;
  col_Type : string;
  col_Null : string;
  col_Default : option string
}.

Record IndexInfo := {
  idx_Non_unique : Z;
  idx_Key_name : string
}.

(** The calls [conn.promise().query(...)] of [syncAllTables].  [CreateTable]
    carries what [generateCreateTableStatement] returned, [None] for
    [undefined]. *)
Inductive stmt :=
| ShowTables
| SelectAll (table : string)
| DropTable (table : string)
| CreateTable (table : string) (sql : option string)
| Replay (sqlContent : string)
| ShowColumns (table : string)
| ShowIndex (table column : string)
| ModifyColumn (table colDef : string)
| ChangeColumn (table oldName fieldName colDef : string)
| AddColumn (table fieldName colDef : string)
| DropColumn (table col : string).

Definition bq (s : string) : string := "`" +:+ s +:+ "`".

(** The text handed to the driver; [None] is [undefined]. *)
Definition sqlText (s : stmt) : option string :=
  match s with
  | ShowTables => Some "SHOW TABLES"
  | SelectAll t => Some ("SELECT * FROM " +:+ bq t)
  | DropTable t => Some ("DROP TABLE IF EXISTS " +:+ bq t)
  | CreateTable _ sql => sql
  | Replay sqlContent => Some sqlContent
  | ShowColumns t => Some ("SHOW COLUMNS FROM " +:+ bq t)
  | ShowIndex t _ => Some ("SHOW INDEX FROM " +:+ bq t +:+ " WHERE Column_name = ?")
  | ModifyColumn t colDef => Some ("ALTER TABLE " +:+ bq t +:+ " MODIFY COLUMN " +:+ colDef)
  | ChangeColumn t o n colDef =>
      Some ("ALTER TABLE " +:+ bq t +:+ " CHANGE COLUMN " +:+ bq o +:+ " " +:+ bq n +:+ " " +:+ colDef)
  | AddColumn t n colDef =>
      Some ("ALTER TABLE " +:+ bq t +:+ " ADD COLUMN " +:+ bq n +:+ " " +:+ colDef)
  | DropColumn t c => Some ("ALTER TABLE " +:+ bq t +:+ " DROP COLUMN " +:+ bq c)
  end.

(** The rows a statement resolves to. *)
Definition resp (s : stmt) : Type :=
  match s with
  | ShowTables => list string
  | SelectAll _ => list (JsObject.obj dbValue)
  | ShowColumns _ => list ColumnInfo
  | ShowIndex _ _ => list IndexInfo
  | _ => unit
  end.

(** The two questions put to the operator. *)
Inductive prompt :=
| AskRestore (table latestBackup : string)
| AskDelete (latestBackup : string).

(** The calls of [logs] and of [error], one constructor per call site. *)
Inductive logMessage :=
| BackupSaved (dbTable backupPath : string)
| EmptyBackupCreated (dbTable backupPath : string)
| NoSchemaDropping (dbTable : string)
| TableDropped (dbTable : string)
| TableReady (table : string)
| BackupRestored (table : string)
| BackupDeleted (latestBackup : string)
| BackupIgnored (table : string)
| RemoveOldNameHint (fieldName table : string)
| ColumnRenamed (oldName fieldName table : string)
| ColumnAdded (fieldName table : string)
| ColumnDropped (col table : string).

Inductive errorMessage :=
| BackupFailed (dbTable : string) (err : exn)
| CreateTableFailed (err : exn) (table : string)
| RestoreFailed (table : string) (err : exn)
| InvalidTableName.

Inductive outcome :=
| Done
| Failed (reason : string).

Inductive event :=
| EvQuery (s : stmt) (r : outcome)
| EvLog (m : logMessage)
| EvError (m : errorMessage)
| EvWriteFile (path content : string) (r : outcome)
| EvReadFile (path : string) (r : outcome)
| EvUnlink (path : string) (r : outcome)
| EvRename (oldPath newPath : string) (r : outcome)
| EvQuestion (p : prompt) (answer : string).

(** The collaborators of the pass: the driver ([query], [escape]), the
    clock, [glob.sync], [fs] and the operator at the terminal.  Each call
    may change the environment and either returns or rejects. *)
Class Collaborators (Env : Type) := {
  drv_query : forall s : stmt, Env -> Env * (string + resp s);
  drv_escape : dbValue -> string;
  clock_now : Env -> Env * Z;
  glob_sync : string -> Env -> list string;
  fs_readFileSync : string -> Env -> Env * (string + string);
  fs_writeFileSync : string -> string -> Env -> Env * (string + unit);
  fs_unlinkSync : string -> Env -> Env * (string + unit);
  fs_renameSync : string -> string -> Env -> Env * (string + unit);
  rl_question : prompt -> Env -> Env * string
}.

(** ** The monad of the pass: environment, events, exceptions *)

Record run (Env A : Type) := Run {
  env_of : Env;
  events_of : list event;
  value_of : exn + A
}.
Arguments Run {Env A}.
Arguments env_of {Env A}.
Arguments events_of {Env A}.
Arguments value_of {Env A}.

Definition M (Env A : Type) : Type := Env -> run Env A.

Section Monad.
Context {Env : Type}.

Definition ret {A} (a : A) : M Env A := fun e => Run e [] (inr a).

Definition throw {A} (x : exn) : M Env A := fun e => Run e [] (inl x).

Definition bind {A B} (m : M Env A) (k : A -> M Env B) : M Env B := fun e =>
  let r := m e in
  match value_of r with
  | inl x => Run (env_of r) (events_of r) (inl x)
  | inr a =>
      let r' := k a (env_of r) in
      Run (env_of r') (events_of r ++ events_of r') (value_of r')
  end.

(** [try { m } catch (err) { h err }] *)
Definition tryCatch {A} (m : M Env A) (h : exn -> M Env A) : M Env A := fun e =>
  let r := m e in
  match value_of r with
  | inl x =>
      let r' := h x (env_of r) in
      Run (env_of r') (events_of r ++ events_of r') (value_of r')
  | inr a => r
  end.

Definition emit (ev : event) : M Env unit := fun e => Run e [ev] (inr tt).

Definition liftE {A} (r : exn + A) : M Env A :=
  match r with
  | inl x => throw x
  | inr a => ret a
  end.

End Monad.

Notation "'let*' x ':=' m 'in' k" := (bind m (fun x => k))
  (at level 10, x name, m at level 100, k at level 200).
Notation "m ';;' k" := (bind m (fun _ => k))
  (at level 100, k at level 200, right associativity).

Section Loops.
Context {Env : Type}.

(** [for (const x of xs) body(x)] *)
Fixpoint forEach {A} (xs : list A) (body : A -> M Env unit) : M Env unit :=
  match xs with
  | [] => ret tt
  | x :: r => body x ;; forEach r body
  end.

(** A [for ... of] loop that updates a local variable. *)
Fixpoint forEachWith {A S} (xs : list A) (body : S -> A -> M Env S) (s : S) : M Env S :=
  match xs with
  | [] => ret s
  | x :: r => let* s' := body s x in forEachWith r body s'
  end.

(** [xs.map(f)] for an [f] that may throw. *)
Fixpoint mapE {A B} (f : A -> exn + B) (xs : list A) : exn + list B :=
  match xs with
  | [] => inr []
  | x :: r =>
      match f x with
      | inl e => inl e
      | inr y =>
          match mapE f r with
          | inl e => inl e
          | inr ys => inr (y :: ys)
          end
      end
  end.

End Loops.

(** ** Registration and creation order *)

(** [field.foreignKey.split('(')[0].trim()] for a truthy [foreignKey]. *)
Definition refTableOf (field : SchemaField) : option string :=
  match sf_foreignKey field with
  | Some fk =>
      if (String.length fk =? 0)%nat then None
      else Some (JsString.trim (JsString.splitHead "("%char fk))
  | None => None
  end.

(** The array bound to [dependencies[model.name]] once the inner loop has
    pushed the referenced table of every field that has a foreign key. *)
Definition foreignTables (schema : JsObject.obj SchemaField) : list string :=
  omap (fun entry => refTableOf (snd entry)) (JsObject.entries schema).

(** The first loop of [syncAllTables], over [Model.pendingModels]. *)
Fixpoint registerModels (pending : list Model)
    (dependencies : JsObject.obj (list string)) (modelMap : gmap string Model)
    : JsObject.obj (list string) * gmap string Model :=
  match pending with
  | [] => (dependencies, modelMap)
  | model :: rest =>
      registerModels rest
        (JsObject.set (name model) (foreignTables (schemaDict model)) dependencies)
        (<[name model := model]> modelMap)
  end.

(** The values of [visited[table]]: ['temp'] and [true]. *)
Inductive mark :=
| Temp
| Visited.

Record sortState := {
  visited : gmap string mark;
  sorted : list string
}.

(** The result of a bounded run of [visit]: [None] when the bound on the
    depth of the recursion is reached. *)
Definition bounded (A : Type) : Type := option (exn + A).

(** Whether [modelMap[table]] is truthy: the table has a model, or the read
    finds a property of [Object.prototype]. *)
Definition hasModel (modelMap : gmap string Model) (table : string) : bool :=
  bool_decide (is_Some (modelMap !! table)) || JsObject.inherited table.

(** The loop [for (const dep of dependencies[table]) if (modelMap[dep]) visit(dep)],
    over a given [visit]. *)
Fixpoint visitDeps (visit : string -> sortState -> bounded sortState)
    (modelMap : gmap string Model) (deps : list string) (st : sortState)
    : bounded sortState :=
  match deps with
  | [] => Some (inr st)
  | dep :: rest =>
      if hasModel modelMap dep then
        match visit dep st with
        | Some (inr st') => visitDeps visit modelMap rest st'
        | other => other
        end
      else visitDeps visit modelMap rest st
  end.

(** The inner function [visit(table)], with a bound on the recursion depth.
    A mark is one of the code's own; what [visited[table]] inherits is
    neither [true] nor ['temp'].  [dependencies[table]] can be iterated only
    when it is an own property. *)
Fixpoint visit (depth : nat) (dependencies : JsObject.obj (list string))
    (modelMap : gmap string Model) (table : string) (st : sortState)
    : bounded sortState :=
  match depth with
  | O => None
  | S depth' =>
      match visited st !! table with
      | Some Visited => Some (inr st)
      | Some Temp => Some (inl CyclicDependency)
      | None =>
          let st1 := {| visited := <[table := Temp]> (visited st); sorted := sorted st |} in
          match JsObject.get table dependencies with
          | None => Some (inl (TypeError "dependencies[table] is not iterable"))
          | Some deps =>
              match visitDeps (visit depth' dependencies modelMap) modelMap deps st1 with
              | Some (inr st2) =>
                  Some (inr {| visited := <[table := Visited]> (visited st2);
                               sorted := sorted st2 ++ [table] |})
              | other => other
              end
          end
      end
  end.

(** Whether [visited[table]] is truthy: the table has a mark, or the read
    finds a property of [Object.prototype]. *)
Definition isMarked (visited : gmap string mark) (table : string) : bool :=
  bool_decide (is_Some (visited !! table)) || JsObject.inherited table.

(** [for (const table of Object.keys(dependencies)) if (!visited[table]) visit(table)] *)
Fixpoint visitAll (depth : nat) (dependencies : JsObject.obj (list string))
    (modelMap : gmap string Model) (tables : list string) (st : sortState)
    : bounded sortState :=
  match tables with
  | [] => Some (inr st)
  | table :: rest =>
      if isMarked (visited st) table then visitAll depth dependencies modelMap rest st
      else
        match visit depth dependencies modelMap table st with
        | Some (inr st') => visitAll depth dependencies modelMap rest st'
        | other => other
        end
  end.

Definition emptySort : sortState := {| visited := ∅; sorted := [] |}.

(** The topological sort of [syncAllTables]; the recursion of [visit] never
    goes deeper than the number of declared tables plus one (see
    [creationOrder_total]). *)
Definition topologicalSort (dependencies : JsObject.obj (list string))
    (modelMap : gmap string Model) : bounded (list string) :=
  let tables := JsObject.keys dependencies in
  match visitAll (S (length tables)) dependencies modelMap tables emptySort with
  | Some (inr st) => Some (inr (sorted st))
  | Some (inl e) => Some (inl e)
  | None => None
  end.

(** The creation order computed for the pending models. *)
Definition creationOrder (pending : list Model) : bounded (list string) :=
  let '(dependencies, modelMap) := registerModels pending [] ∅ in
  topologicalSort dependencies modelMap.

(** ** The synchronisation pass *)

(** One column of [Model.generateCreateTableStatement]: the callback of
    [Object.keys(schema).map], for a descriptor that is an object.  A type
    that is the empty string is falsy, as no type. *)
Definition createColumn (entry : string * SchemaField) : exn + string :=
  let '(fieldName, field) := entry in
  let typed :=
    match sf_type field with
    | Some t => negb (String.eqb t "")
    | None => false
    end in
  match typed, enumOf field with
  | false, None => inl (NoTypeDefined fieldName)
  | true, _ => getColumnDefinition fieldName field
  | false, Some values => inr (fieldName +:+ " " +:+ enumClause values)
  end.

Definition newline : string := String "010"%char EmptyString.

(** The INSERT statement written to the backup of a table that has rows. *)
Definition insertSQL `{Collaborators Env} (dbTable : string)
    (first : JsObject.obj dbValue) (rows : list (JsObject.obj dbValue)) : string :=
  let columns := JsString.join ", " (map bq (JsObject.keys first)) in
  let values :=
    JsString.join ("," +:+ newline)
      (map (fun row =>
              "(" +:+
              JsString.join ", "
                (map (fun val => match val with DbNull => "NULL" | _ => drv_escape val end)
                     (map snd (JsObject.entries row)))
              +:+ ")")
           rows) in
  "INSERT INTO " +:+ bq dbTable +:+ " (" +:+ columns +:+ ") VALUES" +:+ values +:+ ";" +:+ newline.

(** The decision [needModify] taken for a declared field whose column
    exists.  The declared default and the default of the column are strings
    or absent, so that the loose [!=] of the code compares two strings, or
    finds [null] on both sides. *)
Definition needModify (field : SchemaField) (currentCol : ColumnInfo)
    (indexes : list IndexInfo) : bool :=
  let expectedType := JsString.toUpperCase <$> sqlTypeOf (getFieldType field) in
  let dbType := JsString.splitHead "("%char (JsString.toUpperCase (col_Type currentCol)) in
  let shouldBeNotNull := (sf_required field || sf_primary_key field)%bool in
  let declaredDefault :=
    match sf_default field with
    | DefaultText v => Some v
    | _ => None
    end in
  let isUniqueInDB :=
    existsb (fun idx => (idx_Non_unique idx =? 0)%Z
                        && negb (String.eqb (idx_Key_name idx) "PRIMARY")) indexes in
  let isPrimaryInDB :=
    existsb (fun idx => String.eqb (idx_Key_name idx) "PRIMARY") indexes in
  negb (bool_decide (expectedType = Some dbType))
  || ((shouldBeNotNull && String.eqb (col_Null currentCol) "YES")
      || (negb shouldBeNotNull && String.eqb (col_Null currentCol) "NO"))
  || negb (bool_decide (declaredDefault = col_Default currentCol))
  || negb (Bool.eqb (sf_unique field) isUniqueInDB)
  || negb (Bool.eqb (sf_primary_key field) isPrimaryInDB).

(** A truthy [field.oldName]. *)
Definition oldNameOf (field : SchemaField) : option string :=
  match sf_oldName field with
  | Some o => if (String.length o =? 0)%nat then None else Some o
  | None => None
  end.

(** [xs.includes(x)] on an array of strings. *)
Definition includes (x : string) (xs : list string) : bool :=
  existsb (String.eqb x) xs.

Section Pass.
Context {Env : Type} `{Collaborators Env}.

Definition query (s : stmt) : M Env (resp s) := fun e =>
  let '(e', r) := drv_query s e in
  match r with
  | inl reason => Run e' [EvQuery s (Failed reason)] (inl (Rejected reason))
  | inr rows => Run e' [EvQuery s Done] (inr rows)
  end.

Definition now : M Env Z := fun e =>
  let '(e', t) := clock_now e in Run e' [] (inr t).

Definition globSync (pattern : string) : M Env (list string) := fun e =>
  Run e [] (inr (glob_sync pattern e)).

Definition fsCall {A} (call : Env -> Env * (string + A)) (ev : outcome -> event) : M Env A :=
  fun e =>
    let '(e', r) := call e in
    match r with
    | inl reason => Run e' [ev (Failed reason)] (inl (Rejected reason))
    | inr a => Run e' [ev Done] (inr a)
    end.

Definition readFileSync (path : string) : M Env string :=
  fsCall (fs_readFileSync path) (EvReadFile path).

Definition writeFileSync (path content : string) : M Env unit :=
  fsCall (fs_writeFileSync path content) (EvWriteFile path content).

Definition unlinkSync (path : string) : M Env unit :=
  fsCall (fs_unlinkSync path) (EvUnlink path).

Definition renameSync (oldPath newPath : string) : M Env unit :=
  fsCall (fs_renameSync oldPath newPath) (EvRename oldPath newPath).

Definition question (p : prompt) : M Env string := fun e =>
  let '(e', answer) := rl_question p e in
  Run e' [EvQuestion p answer] (inr answer).

Definition logs (m : logMessage) : M Env unit := emit (EvLog m).
Definition error (m : errorMessage) : M Env unit := emit (EvError m).

(** [Model.generateCreateTableStatement]: the columns are compiled first,
    then a reserved table name is reported with [error] and the method
    returns [undefined]. *)
Definition generateCreateTableStatement (model : Model) : M Env (option string) :=
  let* columns := liftE (mapE createColumn (JsObject.entries (schemaDict model))) in
  if ifReservedKeywords (name model) then
    error InvalidTableName ;; ret None
  else
    ret (Some ("CREATE TABLE IF NOT EXISTS " +:+ name model +:+ " ("
               +:+ JsString.join ", " columns +:+ ") ENGINE=InnoDB")).

(** [`./backup_${dbTable}_${Date.now()}.sql`] *)
Definition backupPath (dbTable : string) (t : Z) : string :=
  "./backup_" +:+ dbTable +:+ "_" +:+ pretty t +:+ ".sql".

(** The body of [try] in the orphan loop: the rows of the table are written
    to the backup file as one INSERT statement, an empty file when the table
    has no row. *)
Definition backupTable (dbTable : string) : M Env unit :=
  let* t := now in
  let backupPath := backupPath dbTable t in
  let* rows := query (SelectAll dbTable) in
  match rows return M Env unit with
  | first :: _ =>
      writeFileSync backupPath (insertSQL dbTable first rows) ;;
      logs (BackupSaved dbTable backupPath)
  | [] =>
      writeFileSync backupPath "" ;;
      logs (EmptyBackupCreated dbTable backupPath)
  end.

(** The body of the orphan loop for a table that has no schema: the backup
    inside [try]/[catch], then the drop. *)
Definition dropOrphan (dbTable : string) : M Env unit :=
  tryCatch (backupTable dbTable) (fun err => error (BackupFailed dbTable err)) ;;
  logs (NoSchemaDropping dbTable) ;;
  query (DropTable dbTable) ;;
  logs (TableDropped dbTable).

Definition dropOrphans (modelMap : gmap string Model) (dbTables : list string) : M Env unit :=
  forEach dbTables (fun dbTable =>
    if hasModel modelMap dbTable then ret tt else dropOrphan dbTable).

(** Step 1 of the loop over [sorted]: create the table if it does not exist. *)
Definition ensureTable (model : Model) : M Env unit :=
  tryCatch
    (let* sql := generateCreateTableStatement model in
     query (CreateTable (name model) sql) ;;
     logs (TableReady (name model)))
    (fun err => error (CreateTableFailed err (name model)) ;; throw err).

(** [backupFiles.sort().reverse()[0]] *)
Definition latestOf (backupFiles : list string) : option string :=
  head (reverse (JsString.sort backupFiles)).

Definition isYes (answer : string) : bool :=
  String.eqb (JsString.toLowerCase (JsString.trim answer)) "y".

(** The replay of the backup, inside [try]/[catch]. *)
Definition replayBackup (model : Model) (latestBackup : string) : M Env unit :=
  tryCatch
    (let* sqlContent := readFileSync latestBackup in
     query (Replay sqlContent) ;;
     logs (BackupRestored (name model)))
    (fun err => error (RestoreFailed (name model) err)).

(** The second question, asked whether or not the backup was restored:
    delete the file, or rename it so that it is not offered again.  The
    answer is handled in the callback of [rl.question]: a failure of
    [unlinkSync] or [renameSync] is thrown there, outside the promise the
    pass awaits, and nothing of the pass runs after it; the embedding
    records that end of the pass as a throw. *)
Definition disposeBackup (model : Model) (latestBackup : string) : M Env unit :=
  let* delAnswer := question (AskDelete latestBackup) in
  if isYes delAnswer then
    unlinkSync latestBackup ;;
    logs (BackupDeleted latestBackup)
  else
    renameSync latestBackup (latestBackup +:+ ".ignored") ;;
    logs (BackupIgnored (name model)).

(** The restore offer made when a backup file is found for the table. *)
Definition offerRestore (model : Model) : M Env unit :=
  let backupPattern := "./backup_" +:+ name model +:+ "_*.sql" in
  let* found := globSync backupPattern in
  let backupFiles := List.filter (fun f => negb (JsString.endsWith ".ignored" f)) found in
  match latestOf backupFiles with
  | None => ret tt
  | Some latestBackup =>
      let* answer := question (AskRestore (name model) latestBackup) in
      (if isYes answer then replayBackup model latestBackup else ret tt) ;;
      disposeBackup model latestBackup
  end.

(** The body of the first loop over the schema: MODIFY COLUMN for a declared
    field whose column exists and differs, and the reminder about [oldName]. *)
Definition modifyColumn (model : Model) (columns : list ColumnInfo)
    (existingCols : list string) (entry : string * SchemaField) : M Env unit :=
  let '(fieldName, field) := entry in
  (if includes fieldName existingCols then
     match List.find (fun col => String.eqb (col_Field col) fieldName) columns with
     | None => throw (TypeError "currentCol is undefined")
     | Some currentCol =>
         let* indexes := query (ShowIndex (name model) fieldName) in
         if needModify field currentCol indexes then
           let* newColDef := liftE (getColumnDefinition fieldName field) in
           query (ModifyColumn (name model) newColDef)
         else ret tt
     end
   else ret tt) ;;
  match oldNameOf field with
  | Some _ => logs (RemoveOldNameHint fieldName (name model))
  | None => ret tt
  end.

Definition modifyColumns (model : Model) (columns : list ColumnInfo)
    (existingCols : list string) : M Env unit :=
  forEach (JsObject.entries (schemaDict model)) (modifyColumn model columns existingCols).

(** The body of "Etape 1": CHANGE COLUMN for a field whose [oldName] is an
    existing column while its own name is not; [existingCols] is updated. *)
Definition renameColumn (model : Model) (existingCols : list string)
    (entry : string * SchemaField) : M Env (list string) :=
  let '(fieldName, field) := entry in
  match oldNameOf field with
  | Some oldName =>
      if (includes oldName existingCols && negb (includes fieldName existingCols))%bool then
        let* colDef := liftE (getColumnDefinition fieldName field) in
        query (ChangeColumn (name model) oldName fieldName colDef) ;;
        logs (ColumnRenamed oldName fieldName (name model)) ;;
        ret (map (fun col => if String.eqb col oldName then fieldName else col) existingCols)
      else ret existingCols
  | None => ret existingCols
  end.

Definition renameColumns (model : Model) (existingCols : list string) : M Env (list string) :=
  forEachWith (JsObject.entries (schemaDict model)) (renameColumn model) existingCols.

(** The body of "Etape 2": ADD COLUMN for a declared field that has no column. *)
Definition addColumn (model : Model) (existingCols : list string)
    (entry : string * SchemaField) : M Env (list string) :=
  let '(fieldName, field) := entry in
  if includes fieldName existingCols then ret existingCols
  else
    let* colDef := liftE (getColumnDefinition fieldName field) in
    query (AddColumn (name model) fieldName colDef) ;;
    logs (ColumnAdded fieldName (name model)) ;;
    ret (existingCols ++ [fieldName]).

Definition addColumns (model : Model) (existingCols : list string) : M Env (list string) :=
  forEachWith (JsObject.entries (schemaDict model)) (addColumn model) existingCols.

(** The body of "Etape 3": DROP COLUMN for a column that is not a declared
    field. *)
Definition dropColumn (model : Model) (col : string) : M Env unit :=
  if includes col (JsObject.keys (schemaDict model)) then ret tt
  else
    query (DropColumn (name model) col) ;;
    logs (ColumnDropped col (name model)).

(** "Etape 3" runs under [dangerousSync] only. *)
Definition dropColumns (dangerousSync : bool) (model : Model)
    (existingCols : list string) : M Env unit :=
  if dangerousSync then forEach existingCols (dropColumn model) else ret tt.

(** Step 2 of the loop over [sorted]: the synchronisation of the columns. *)
Definition syncColumns (dangerousSync : bool) (model : Model) : M Env unit :=
  let* columns := query (ShowColumns (name model)) in
  let existingCols := map col_Field columns in
  modifyColumns model columns existingCols ;;
  let* existingCols := renameColumns model existingCols in
  let* existingCols := addColumns model existingCols in
  dropColumns dangerousSync model existingCols.

(** The body of the loop over [sorted]. *)
Definition syncTable (dangerousSync : bool) (model : Model) : M Env unit :=
  ensureTable model ;;
  offerRestore model ;;
  syncColumns dangerousSync model.

Definition syncTables (dangerousSync : bool) (modelMap : gmap string Model)
    (sorted : list string) : M Env unit :=
  forEach sorted (fun table =>
    match modelMap !! table with
    | Some model => syncTable dangerousSync model
    | None => throw (TypeError "model is undefined")
    end).

(** [syncAllTables] up to its last statement. *)
Definition syncPass (dangerousSync : bool) (pending : list Model) : M Env unit :=
  let '(dependencies, modelMap) := registerModels pending [] ∅ in
  let* dbTables := query ShowTables in
  let* sorted :=
    match topologicalSort dependencies modelMap with
    | Some r => liftE r
    | None => throw (TypeError "Maximum call stack size exceeded")
    end in
  dropOrphans modelMap dbTables ;;
  syncTables dangerousSync modelMap sorted.

(** The static [Model.pendingModels] and the environment. *)
Record world := {
  pendingModels : list Model;
  env : Env
}.

(** [new Model(name, schema)] *)
Definition newModel (model : Model) (w : world) : world :=
  {| pendingModels := pendingModels w ++ [model]; env := env w |}.

(** [Model.syncAllTables({ dangerousSync })]: the list of pending models is
    emptied by the last statement, which an exception skips. *)
Definition syncAllTables (dangerousSync : bool) (w : world) : world * list event * (exn + unit) :=
  let r := syncPass dangerousSync (pendingModels w) (env w) in
  match value_of r with
  | inr _ => ({| pendingModels := []; env := env_of r |}, events_of r, inr tt)
  | inl x => ({| pendingModels := pendingModels w; env := env_of r |}, events_of r, inl x)
  end.

End Pass.

(** ** A test double for the collaborators

    Modelled from the spec: the collaborators of section 6, which are not
    part of the repository.  The execution capability is a small catalogue
    of tables; the persistence for backups is a list of files with a
    glob-style listing in which [*] stands for any run of characters other
    than [/]; the operator answers from a script and presses return once the
    script is exhausted. *)

Module Mock.

Record table := {
  t_name : string;
  t_columns : list ColumnInfo;
  t_rows : list (JsObject.obj dbValue)
}.

Record state := {
  tables : list table;
  onCreate : string -> list ColumnInfo;
  indexes : string -> string -> list IndexInfo;
  rejectsDDL : bool;
  files : list (string * string);
  diskFull : bool;
  clock : Z;
  answers : list string
}.

Definition findTable (t : string) (st : state) : option table :=
  List.find (fun tb => String.eqb (t_name tb) t) (tables st).

Definition withTables (st : state) (ts : list table) : state :=
  {| tables := ts; onCreate := onCreate st; indexes := indexes st;
     rejectsDDL := rejectsDDL st; files := files st; diskFull := diskFull st;
     clock := clock st; answers := answers st |}.

Definition withFiles (st : state) (fs : list (string * string)) : state :=
  {| tables := tables st; onCreate := onCreate st; indexes := indexes st;
     rejectsDDL := rejectsDDL st; files := fs; diskFull := diskFull st;
     clock := clock st; answers := answers st |}.

Definition alterTable (t : string) (f : list ColumnInfo -> list ColumnInfo) (st : state) : state :=
  withTables st
    (map (fun tb => if String.eqb (t_name tb) t
                    then {| t_name := t_name tb; t_columns := f (t_columns tb); t_rows := t_rows tb |}
                    else tb) (tables st)).

(** The column an engine would report for a definition [name TYPE ...]. *)
Fixpoint afterSpace (s : string) : string :=
  match s with
  | EmptyString => EmptyString
  | String c r => if Ascii.eqb c " "%char then r else afterSpace r
  end.

Definition columnOf (fieldName colDef : string) : ColumnInfo :=
  {| col_Field := fieldName;
     col_Type := JsString.splitHead " "%char (afterSpace colDef);
     col_Null := if (JsString.includes "NOT NULL" colDef || JsString.includes "PRIMARY KEY" colDef)%bool
                 then "NO" else "YES";
     col_Default := None |}.

Definition ddl (t : string) (f : list ColumnInfo -> list ColumnInfo) (st : state)
    : state * (string + unit) :=
  match findTable t st with
  | None => (st, inl "ER_NO_SUCH_TABLE")
  | Some _ => if rejectsDDL st then (st, inl "ER_DDL_REJECTED") else (alterTable t f st, inr tt)
  end.

Definition query (s : stmt) : state -> state * (string + resp s) :=
  match s as s0 return state -> state * (string + resp s0) with
  | ShowTables => fun st => (st, inr (map t_name (tables st)))
  | SelectAll t => fun st =>
      match findTable t st with
      | Some tb => (st, inr (t_rows tb))
      | None => (st, inl "ER_NO_SUCH_TABLE")
      end
  | DropTable t => fun st =>
      (withTables st (List.filter (fun tb => negb (String.eqb (t_name tb) t)) (tables st)), inr tt)
  | CreateTable t sql => fun st =>
      match sql with
      | None => (st, inl "ER_EMPTY_QUERY")
      | Some _ =>
          match findTable t st with
          | Some _ => (st, inr tt)
          | None =>
              (withTables st (tables st ++ [{| t_name := t; t_columns := onCreate st t; t_rows := [] |}]),
               inr tt)
          end
      end
  | Replay sqlContent => fun st =>
      if existsb (fun tb => JsString.startsWith ("INSERT INTO " +:+ bq (t_name tb) +:+ " ") sqlContent)
           (tables st)
      then (st, inr tt)
      else (st, inl (if (String.length sqlContent =? 0)%nat then "ER_EMPTY_QUERY" else "ER_NO_SUCH_TABLE"))
  | ShowColumns t => fun st =>
      match findTable t st with
      | Some tb => (st, inr (t_columns tb))
      | None => (st, inl "ER_NO_SUCH_TABLE")
      end
  | ShowIndex t c => fun st =>
      match findTable t st with
      | Some tb => (st, inr (indexes st t c))
      | None => (st, inl "ER_NO_SUCH_TABLE")
      end
  | ModifyColumn t colDef => ddl t (fun cols => cols)
  | ChangeColumn t o n colDef =>
      ddl t (map (fun c => if String.eqb (col_Field c) o then columnOf n colDef else c))
  | AddColumn t n colDef => ddl t (fun cols => cols ++ [columnOf n colDef])
  | DropColumn t c => ddl t (List.filter (fun ci => negb (String.eqb (col_Field ci) c)))
  end.

Definition escape (v : dbValue) : string :=
  match v with
  | DbNull => "NULL"
  | DbNumber n => pretty n
  | DbText s => "'" +:+ JsString.replaceAll "'"%char "\'" s +:+ "'"
  end.

Fixpoint globMatch (pattern : string) : string -> bool :=
  match pattern with
  | EmptyString => fun path => match path with EmptyString => true | _ => false end
  | String p pattern' =>
      if Ascii.eqb p "*"%char then
        fix star (path : string) : bool :=
          globMatch pattern' path ||
          match path with
          | EmptyString => false
          | String c path' => negb (Ascii.eqb c "/"%char) && star path'
          end
      else fun path =>
        match path with
        | EmptyString => false
        | String c path' => Ascii.eqb p c && globMatch pattern' path'
        end
  end.

Definition glob (pattern : string) (st : state) : list string :=
  List.filter (globMatch pattern) (map fst (files st)).

Definition lookupFile (path : string) (st : state) : option string :=
  snd <$> List.find (fun f => String.eqb (fst f) path) (files st).

Definition removeFile (path : string) (fs : list (string * string)) : list (string * string) :=
  List.filter (fun f => negb (String.eqb (fst f) path)) fs.

Definition readFile (path : string) (st : state) : state * (string + string) :=
  match lookupFile path st with
  | Some content => (st, inr content)
  | None => (st, inl "ENOENT")
  end.

Definition writeFile (path content : string) (st : state) : state * (string + unit) :=
  if diskFull st then (st, inl "ENOSPC")
  else (withFiles st (removeFile path (files st) ++ [(path, content)]), inr tt).

Definition unlink (path : string) (st : state) : state * (string + unit) :=
  match lookupFile path st with
  | Some _ => (withFiles st (removeFile path (files st)), inr tt)
  | None => (st, inl "ENOENT")
  end.

Definition rename (oldPath newPath : string) (st : state) : state * (string + unit) :=
  match lookupFile oldPath st with
  | Some content =>
      (withFiles st (removeFile newPath (removeFile oldPath (files st)) ++ [(newPath, content)]), inr tt)
  | None => (st, inl "ENOENT")
  end.

Definition tick (st : state) : state * Z :=
  ({| tables := tables st; onCreate := onCreate st; indexes := indexes st;
      rejectsDDL := rejectsDDL st; files := files st; diskFull := diskFull st;
      clock := (clock st + 1)%Z; answers := answers st |}, clock st).

Definition ask (p : prompt) (st : state) : state * string :=
  match answers st with
  | [] => (st, "")
  | a :: rest =>
      ({| tables := tables st; onCreate := onCreate st; indexes := indexes st;
          rejectsDDL := rejectsDDL st; files := files st; diskFull := diskFull st;
          clock := clock st; answers := rest |}, a)
  end.

#[global] Instance collaborators : Collaborators state := {|
  drv_query := query;
  drv_escape := escape;
  clock_now := tick;
  glob_sync := glob;
  fs_readFileSync := readFile;
  fs_writeFileSync := writeFile;
  fs_unlinkSync := unlink;
  fs_renameSync := rename;
  rl_question := ask
|}.

(** A descriptor with a type only. *)
Definition field (ty : string) : SchemaField :=
  {| sf_type := Some ty; sf_length := None; sf_required := false;
     sf_default := DefaultAbsent; sf_unique := false; sf_auto_increment := false;
     sf_primary_key := false; sf_enum := None; sf_oldName := None;
     sf_customize := None; sf_foreignKey := None |}.

Definition renamedFrom (oldName : string) (f : SchemaField) : SchemaField :=
  {| sf_type := sf_type f; sf_length := sf_length f; sf_required := sf_required f;
     sf_default := sf_default f; sf_unique := sf_unique f;
     sf_auto_increment := sf_auto_increment f; sf_primary_key := sf_primary_key f;
     sf_enum := sf_enum f; sf_oldName := Some oldName;
     sf_customize := sf_customize f; sf_foreignKey := sf_foreignKey f |}.

Definition references (target : string) (f : SchemaField) : SchemaField :=
  {| sf_type := sf_type f; sf_length := sf_length f; sf_required := sf_required f;
     sf_default := sf_default f; sf_unique := sf_unique f;
     sf_auto_increment := sf_auto_increment f; sf_primary_key := sf_primary_key f;
     sf_enum := sf_enum f; sf_oldName := sf_oldName f;
     sf_customize := sf_customize f; sf_foreignKey := Some target |}.

Definition primaryKey (f : SchemaField) : SchemaField :=
  {| sf_type := sf_type f; sf_length := sf_length f; sf_required := sf_required f;
     sf_default := sf_default f; sf_unique := sf_unique f;
     sf_auto_increment := sf_auto_increment f; sf_primary_key := true;
     sf_enum := sf_enum f; sf_oldName := sf_oldName f;
     sf_customize := sf_customize f; sf_foreignKey := sf_foreignKey f |}.

(** A live column as SHOW COLUMNS reports it. *)
Definition column (fieldName ty : string) : ColumnInfo :=
  {| col_Field := fieldName; col_Type := ty; col_Null := "YES"; col_Default := None |}.

(** A database with the given tables and no backup file. *)
Definition database (ts : list table) : state :=
  {| tables := ts; onCreate := fun _ => []; indexes := fun _ _ => [];
     rejectsDDL := false; files := []; diskFull := false;
     clock := 1700000000000%Z; answers := [] |}.

End Mock.


(** ** Scenarios used by the examples below *)

Module Scenario.

Definition idColumn : ColumnInfo := Mock.column "id" "int(11)".

(** Two declared tables, the name of the first a prefix of the second. *)
Definition user : Model :=
  {| name := "user"; schemaDict := [("id", Mock.field "Number")] |}.

Definition user_roles : Model :=
  {| name := "user_roles"; schemaDict := [("id", Mock.field "Number")] |}.

(** A database that holds [user_roles], with one row, while no model is
    declared. *)
Definition undeclared : world (Env:=Mock.state) :=
  {| pendingModels := [];
     env :=
       {| Mock.tables :=
            [ {| Mock.t_name := "user_roles"; Mock.t_columns := [idColumn];
                 Mock.t_rows := [ [("id", DbNumber 1)] ] |} ];
          Mock.onCreate := fun _ => [idColumn];
          Mock.indexes := fun _ _ => [];
          Mock.rejectsDDL := false;
          Mock.files := [];
          Mock.diskFull := false;
          Mock.clock := 1700000000000%Z;
          Mock.answers := [] |} |}.

(** The table [user] exists and an empty backup written for it earlier is
    on disk; the operator answers yes to the first question and presses
    return at the second. *)
Definition emptyBackup : Mock.state :=
  {| Mock.tables := [ {| Mock.t_name := "user"; Mock.t_columns := [idColumn]; Mock.t_rows := [] |} ];
     Mock.onCreate := fun _ => [idColumn];
     Mock.indexes := fun _ _ => [];
     Mock.rejectsDDL := false;
     Mock.files := [("./backup_user_1700000000000.sql", "")];
     Mock.diskFull := false;
     Mock.clock := 1700000000500%Z;
     Mock.answers := ["y"] |}.

(** The declared table [user] and an undeclared table [legacy] with one
    row, on a disk that refuses every write. *)
Definition fullDisk : world (Env:=Mock.state) :=
  {| pendingModels := [user];
     env :=
       {| Mock.tables :=
            [ {| Mock.t_name := "user"; Mock.t_columns := [idColumn]; Mock.t_rows := [] |};
              {| Mock.t_name := "legacy"; Mock.t_columns := [idColumn];
                 Mock.t_rows := [ [("id", DbNumber 7)] ] |} ];
          Mock.onCreate := fun _ => [idColumn];
          Mock.indexes := fun _ _ => [];
          Mock.rejectsDDL := false;
          Mock.files := [];
          Mock.diskFull := true;
          Mock.clock := 1700000000000%Z;
          Mock.answers := [] |} |}.

(** The table [account] has a column [email] of another type than declared
    and lacks the declared column [phone]. *)
Definition account : Model :=
  {| name := "account";
     schemaDict := [("email", Mock.field "String"); ("phone", Mock.field "String")] |}.

Definition drifted : world (Env:=Mock.state) :=
  {| pendingModels := [account];
     env := Mock.database
              [ {| Mock.t_name := "account"; Mock.t_columns := [Mock.column "email" "text"];
                   Mock.t_rows := [] |} ] |}.

(** The model [staff] renames the column [rang] to [role]; the live table
    also has a column [old] that is not declared. *)
Definition staff : Model :=
  {| name := "staff";
     schemaDict := [("id", Mock.field "Number");
                    ("role", Mock.renamedFrom "rang" (Mock.field "String"))] |}.

Definition staffTable : Mock.state :=
  Mock.database
    [ {| Mock.t_name := "staff";
         Mock.t_columns := [Mock.column "id" "int(11)"; Mock.column "rang" "varchar(255)";
                            Mock.column "old" "text"];
         Mock.t_rows := [] |} ].

(** Two declared fields name the same old column. *)
Definition staffTwice : Model :=
  {| name := "staff";
     schemaDict := [("role", Mock.renamedFrom "rang" (Mock.field "String"));
                    ("grade", Mock.renamedFrom "rang" (Mock.field "String"))] |}.

(** A model whose table name is a reserved word, on an empty database. *)
Definition reserved : Model :=
  {| name := "select"; schemaDict := [("id", Mock.field "Number")] |}.

(** [users] references [roles], registered first. *)
Definition users : Model :=
  {| name := "users";
     schemaDict := [("id", Mock.primaryKey (Mock.field "Number"));
                    ("roleId", Mock.references "roles(id)" (Mock.field "Number"))] |}.

Definition roles : Model :=
  {| name := "roles";
     schemaDict := [("id", Mock.primaryKey (Mock.field "Number")); ("name", Mock.field "String")] |}.

(** The table [user], with one row, is declared; the live tables [legacy],
    with one row, and [constructor] are not. *)
Definition crowdedTables : list Mock.table :=
  [ {| Mock.t_name := "user"; Mock.t_columns := [idColumn];
       Mock.t_rows := [ [("id", DbNumber 7)] ] |};
    {| Mock.t_name := "legacy"; Mock.t_columns := [idColumn];
       Mock.t_rows := [ [("id", DbNumber 7)] ] |};
    {| Mock.t_name := "constructor"; Mock.t_columns := [idColumn]; Mock.t_rows := [] |} ].

Definition withTables (ts : list Mock.table) (full : bool) : Mock.state :=
  {| Mock.tables := ts;
     Mock.onCreate := fun _ => [idColumn];
     Mock.indexes := fun _ _ => [];
     Mock.rejectsDDL := false;
     Mock.files := [];
     Mock.diskFull := full;
     Mock.clock := 1700000000000%Z;
     Mock.answers := [] |}.

(** On a disk that takes the backups, and on one that refuses every write. *)
Definition crowded : world (Env:=Mock.state) :=
  {| pendingModels := [user]; env := withTables crowdedTables false |}.

Definition crowdedFullDisk : world (Env:=Mock.state) :=
  {| pendingModels := [user]; env := withTables crowdedTables true |}.

(** A model whose table is named as a property of [Object.prototype], and a
    model with a foreign key to a table of such a name that is not declared. *)
Definition constructorModel : Model :=
  {| name := "constructor"; schemaDict := [("id", Mock.field "Number")] |}.

Definition audited : Model :=
  {| name := "audited";
     schemaDict := [("id", Mock.field "Number");
                    ("by", Mock.references "toString(id)" (Mock.field "Number"))] |}.

(** Two tables that reference each other. *)
Definition left : Model :=
  {| name := "left"; schemaDict := [("other", Mock.references "right(id)" (Mock.field "Number"))] |}.

Definition right : Model :=
  {| name := "right"; schemaDict := [("other", Mock.references "left(id)" (Mock.field "Number"))] |}.

End Scenario.

(** ** Vocabulary of the statements *)

(** What the second question of the restore offer does to the artifact. *)
Definition disposal (latest delAnswer : string) (r : outcome) : event :=
  if isYes delAnswer then EvUnlink latest r
  else EvRename latest (latest +:+ ".ignored") r.


(** What is written to the backup file of a table: nothing for a table
    without a row, the INSERT statement of its rows otherwise. *)
Definition backupContent `{Collaborators Env} (dbTable : string)
    (rows : list (JsObject.obj dbValue)) : string :=
  match rows with
  | [] => ""
  | first :: _ => insertSQL dbTable first rows
  end.

(** The events of the backup attempted for an orphan table, caught
    failures included. *)
Inductive backupAttempt `{Collaborators Env} (dbTable : string) : list event → Prop :=
| SelectRejected reason :
    backupAttempt dbTable
      [ EvQuery (SelectAll dbTable) (Failed reason);
        EvError (BackupFailed dbTable (Rejected reason)) ]
| WriteRejected t rows reason :
    backupAttempt dbTable
      [ EvQuery (SelectAll dbTable) Done;
        EvWriteFile (backupPath dbTable t) (backupContent dbTable rows) (Failed reason);
        EvError (BackupFailed dbTable (Rejected reason)) ]
| RowsSaved t first rows :
    backupAttempt dbTable
      [ EvQuery (SelectAll dbTable) Done;
        EvWriteFile (backupPath dbTable t) (insertSQL dbTable first (first :: rows)) Done;
        EvLog (BackupSaved dbTable (backupPath dbTable t)) ]
| EmptySaved t :
    backupAttempt dbTable
      [ EvQuery (SelectAll dbTable) Done;
        EvWriteFile (backupPath dbTable t) "" Done;
        EvLog (EmptyBackupCreated dbTable (backupPath dbTable t)) ].

(** The events of an orphan table that is backed up and then dropped. *)
Definition orphanRun `{Collaborators Env} (dbTable : string) (evs : list event) : Prop :=
  ∃ backup,
    backupAttempt dbTable backup
    ∧ evs = backup ++ [ EvLog (NoSchemaDropping dbTable);
                        EvQuery (DropTable dbTable) Done;
                        EvLog (TableDropped dbTable) ].


(** The stages of a pass, for the calls made to the driver, to the file
    system and to the operator; calls of [logs] and [error] have no stage. *)
Inductive stage :=
| Listing
| Orphan
| Creation
| Restore
| Inspection
| Modify
| Rename
| Add
| Drop.

Global Instance stage_eq_dec : EqDecision stage.
Proof. solve_decision. Defined.

Definition stageOf (ev : event) : option stage :=
  match ev with
  | EvQuery ShowTables _ => Some Listing
  | EvQuery (SelectAll _) _ | EvQuery (DropTable _) _ | EvWriteFile _ _ _ => Some Orphan
  | EvQuery (CreateTable _ _) _ => Some Creation
  | EvQuery (Replay _) _ | EvReadFile _ _ | EvUnlink _ _ | EvRename _ _ _
  | EvQuestion _ _ => Some Restore
  | EvQuery (ShowColumns _) _ | EvQuery (ShowIndex _ _) _ => Some Inspection
  | EvQuery (ModifyColumn _ _) _ => Some Modify
  | EvQuery (ChangeColumn _ _ _ _) _ => Some Rename
  | EvQuery (AddColumn _ _ _) _ => Some Add
  | EvQuery (DropColumn _ _) _ => Some Drop
  | EvLog _ | EvError _ => None
  end.

(** The table a statement is issued against. *)
Definition tableOf (ev : event) : option string :=
  match ev with
  | EvQuery (SelectAll t) _ | EvQuery (DropTable t) _ | EvQuery (CreateTable t _) _
  | EvQuery (ShowColumns t) _ | EvQuery (ShowIndex t _) _ | EvQuery (ModifyColumn t _) _
  | EvQuery (ChangeColumn t _ _ _) _ | EvQuery (AddColumn t _ _) _
  | EvQuery (DropColumn t _) _ => Some t
  | _ => None
  end.

(** An event that, when it has a stage, has one of [stages] and is not
    against another table than [table]. *)
Definition during (stages : list stage) (table : string) (ev : event) : Prop :=
  match stageOf ev with
  | None => True
  | Some s => s ∈ stages ∧ (tableOf ev = None ∨ tableOf ev = Some table)
  end.

(** The structural operations on the columns of [table]. *)
Definition isModify (table : string) (ev : event) : Prop :=
  ∃ colDef r, ev = EvQuery (ModifyColumn table colDef) r.
Definition isRename (table : string) (ev : event) : Prop :=
  ∃ oldName fieldName colDef r, ev = EvQuery (ChangeColumn table oldName fieldName colDef) r.
Definition isAdd (table : string) (ev : event) : Prop :=
  ∃ fieldName colDef r, ev = EvQuery (AddColumn table fieldName colDef) r.
Definition isDrop (table : string) (ev : event) : Prop :=
  ∃ col r, ev = EvQuery (DropColumn table col) r.

(** Every event that is a [P] comes before every event that is a [Q]. *)
Definition precedes (P Q : event → Prop) (evs : list event) : Prop :=
  ∀ pre q post, evs = pre ++ q :: post → Q q → Forall (fun p => ¬ P p) post.

(** The rank of a structural operation on [table] in the order of the loops
    of the code. *)
Definition structuralRank (table : string) (ev : event) : option nat :=
  match ev with
  | EvQuery (ModifyColumn t _) _ => if String.eqb t table then Some 0 else None
  | EvQuery (ChangeColumn t _ _ _) _ => if String.eqb t table then Some 1 else None
  | EvQuery (AddColumn t _ _) _ => if String.eqb t table then Some 2 else None
  | EvQuery (DropColumn t _) _ => if String.eqb t table then Some 3 else None
  | _ => None
  end.

(** The stages of the synchronisation of one declared table. *)
Definition tableStages : list stage := [Creation; Restore; Inspection; Modify; Rename; Add; Drop].

(** The model that stands for a declared table: the last one registered
    under the name. *)
Definition declaredModel (pending : list Model) (t : string) : option Model :=
  (registerModels pending [] ∅).2 !! t.

(** The foreign-key graph restricted to the declared tables: [t] has a
    field whose foreign key names the declared table [d]. *)
Definition references (pending : list Model) (t d : string) : Prop :=
  ∃ m, declaredModel pending t = Some m
       ∧ d ∈ foreignTables (schemaDict m)
       ∧ is_Some (declaredModel pending d).

Definition acyclic (pending : list Model) : Prop :=
  ∀ t, ¬ tc (references pending) t t.

(** Every pending model gets a property of its own in [modelMap] and in
    [dependencies]: none is named [__proto__], the one name whose assignment
    replaces the prototype of the object instead. *)
Definition ownNames (pending : list Model) : Prop :=
  ∀ m, m ∈ pending → name m ≠ "__proto__".

(** No pending model is named as a property of [Object.prototype], and no
    foreign key names a table so. *)
Definition plainNames (pending : list Model) : Prop :=
  ∀ m, m ∈ pending →
       JsObject.inherited (name m) = false
       ∧ ∀ d, d ∈ foreignTables (schemaDict m) → JsObject.inherited d = false.

(** [d] comes before [t] in the list. *)
Definition before (d t : string) (order : list string) : Prop :=
  ∃ l1 l2 l3, order = l1 ++ d :: l2 ++ t :: l3.

(** What the sort reads of a model: its name and the tables its foreign
    keys name. *)
Definition signature (m : Model) : string * list string :=
  (name m, foreignTables (schemaDict m)).

(** The ranks of the structural operations on [table], in order of issue. *)
Definition ranksOf (table : string) (evs : list event) : list nat :=
  omap (structuralRank table) evs.

(** *** The plan of the column loops

    What the rename loop, the add loop and the drop loop do to
    [existingCols] and which statements they issue, when no call fails. *)

(** The old column a field takes over at its turn, if any. *)
Definition renameSource (existingCols : list string) (entry : string * SchemaField) : option string :=
  match oldNameOf (snd entry) with
  | Some oldName =>
      if (includes oldName existingCols && negb (includes (fst entry) existingCols))%bool
      then Some oldName else None
  | None => None
  end.

Definition applyRename (oldName fieldName : string) (existingCols : list string) : list string :=
  map (fun col => if String.eqb col oldName then fieldName else col) existingCols.

Fixpoint renamedCols (entries : list (string * SchemaField)) (existingCols : list string)
    : list string :=
  match entries with
  | [] => existingCols
  | entry :: rest =>
      match renameSource existingCols entry with
      | Some oldName => renamedCols rest (applyRename oldName (fst entry) existingCols)
      | None => renamedCols rest existingCols
      end
  end.

Fixpoint plannedRenames (entries : list (string * SchemaField)) (existingCols : list string)
    : list (string * string) :=
  match entries with
  | [] => []
  | entry :: rest =>
      match renameSource existingCols entry with
      | Some oldName =>
          (oldName, fst entry) :: plannedRenames rest (applyRename oldName (fst entry) existingCols)
      | None => plannedRenames rest existingCols
      end
  end.

Fixpoint addedCols (entries : list (string * SchemaField)) (existingCols : list string)
    : list string :=
  match entries with
  | [] => existingCols
  | entry :: rest =>
      if includes (fst entry) existingCols then addedCols rest existingCols
      else addedCols rest (existingCols ++ [fst entry])
  end.

Fixpoint plannedAdds (entries : list (string * SchemaField)) (existingCols : list string)
    : list string :=
  match entries with
  | [] => []
  | entry :: rest =>
      if includes (fst entry) existingCols then plannedAdds rest existingCols
      else fst entry :: plannedAdds rest (existingCols ++ [fst entry])
  end.

Definition plannedDrops (dangerousSync : bool) (declared existingCols : list string) : list string :=
  if dangerousSync then List.filter (fun col => negb (includes col declared)) existingCols
  else [].

(** The renames, the adds and the drops issued against [table], read off
    the events. *)
Definition renameOf (table : string) (ev : event) : option (string * string) :=
  match ev with
  | EvQuery (ChangeColumn t oldName fieldName _) _ =>
      if String.eqb t table then Some (oldName, fieldName) else None
  | _ => None
  end.

Definition addOf (table : string) (ev : event) : option string :=
  match ev with
  | EvQuery (AddColumn t fieldName _) _ => if String.eqb t table then Some fieldName else None
  | _ => None
  end.

Definition dropOf (table : string) (ev : event) : option string :=
  match ev with
  | EvQuery (DropColumn t col) _ => if String.eqb t table then Some col else None
  | _ => None
  end.

Definition renamesOf (table : string) (evs : list event) : list (string * string) :=
  omap (renameOf table) evs.
Definition addsOf (table : string) (evs : list event) : list string :=
  omap (addOf table) evs.
Definition dropsOf (table : string) (evs : list event) : list string :=
  omap (dropOf table) evs.

(** The number of columns named [c]. *)
Definition occurrences (c : string) (cols : list string) : nat :=
  length (filter (fun x => x = c) cols).

(** * Predicates of the proofs *)

(** A list of strings in the order of [Array.prototype.sort]. *)
Definition ascending (l : list string) : Prop :=
  StronglySorted (fun a b => JsString.leb a b = true) l.

(** The string has a space character. *)
Fixpoint hasSpace (s : string) : bool :=
  match s with
  | EmptyString => false
  | String c r => Ascii.eqb " "%char c || hasSpace r
  end.

(** A descriptor whose clause has no free text: no enumeration, no default,
    no customisation, and a field name without a space. *)
Definition plainDescriptor (fieldName : string) (field : SchemaField) : Prop :=
  hasSpace fieldName = false ∧ enumOf field = None
  ∧ sf_default field = DefaultAbsent ∧ sf_customize field = None.

(** A property of every event a step can emit, whatever the environment. *)
Definition always {Env A} (P : event → Prop) (m : M Env A) : Prop :=
  ∀ e, Forall P (events_of (m e)).

(** The structural operations of a step on [table] are issued in the order
    of their ranks, which lie between [lo] and [hi]. *)
Definition ranked {Env A} (table : string) (lo hi : nat) (m : M Env A) : Prop :=
  ∀ e, StronglySorted le (ranksOf table (events_of (m e)))
       ∧ Forall (fun r => (lo ≤ r ≤ hi)%nat) (ranksOf table (events_of (m e))).

(** What the two dictionaries hold for each other. *)
Definition linked (dependencies : JsObject.obj (list string)) (modelMap : gmap string Model) : Prop :=
  ∀ t, JsObject.get t dependencies = (fun m => foreignTables (schemaDict m)) <$> modelMap !! t.

Section SortInvariants.
Variable dependencies : JsObject.obj (list string).
Variable modelMap : gmap string Model.

(** [t] depends on the declared table [d]. *)
Definition edge (t d : string) : Prop :=
  ∃ deps, JsObject.get t dependencies = Some deps ∧ d ∈ deps ∧ is_Some (modelMap !! d).

(** The state between two steps of the sort: the finished tables are the
    sorted ones, each once, after the declared tables they depend on. *)
Record sortInv (st : sortState) : Prop := {
  inv_visited : ∀ t, visited st !! t = Some Visited ↔ t ∈ sorted st;
  inv_nodup : NoDup (sorted st);
  inv_deps : ∀ l1 t l2, sorted st = l1 ++ t :: l2 → ∀ d, edge t d → d ∈ l1;
  inv_declared : ∀ t, is_Some (visited st !! t) → is_Some (modelMap !! t)
}.

(** [st'] keeps the marks of [st], has no new table in progress, and
    extends its list. *)
Record extends (st st' : sortState) : Prop := {
  ext_marks : ∀ s m, visited st !! s = Some m → visited st' !! s = Some m;
  ext_temp : ∀ s, visited st' !! s = Some Temp → visited st !! s = Some Temp;
  ext_sorted : ∃ new, sorted st' = sorted st ++ new
}.

(** What a visit that returns has done. *)
Definition visitReturns (depth : nat) : Prop :=
  ∀ t st st',
    sortInv st → is_Some (modelMap !! t) →
    visit depth dependencies modelMap t st = Some (inr st') →
    sortInv st' ∧ visited st' !! t = Some Visited ∧ extends st st'.

(** The declared tables that have no mark yet. *)
Definition unmarked (st : sortState) : nat :=
  length (filter (fun k => visited st !! k = None) (JsObject.keys dependencies)).

(** The bound on the depth is not reached. *)
Definition visitBounded (depth : nat) : Prop :=
  ∀ t st, sortInv st → is_Some (modelMap !! t) → (unmarked st < depth)%nat →
          visit depth dependencies modelMap t st ≠ None.

(** A visit from below the tables in progress returns a state. *)
Definition visitSucceeds (depth : nat) : Prop :=
  ∀ t st, sortInv st → is_Some (modelMap !! t) → (unmarked st < depth)%nat →
          (∀ s, visited st !! s = Some Temp → tc edge s t) →
          ∃ st', visit depth dependencies modelMap t st = Some (inr st').

End SortInvariants.

(** * Query helpers (Model.js, src/utils/formatObject.js,
      src/utils/generateCondition.js)

    The values of a filter or of a row are JavaScript values: [null],
    [undefined], booleans, numbers, strings, arrays and plain objects.
    Numbers are integers in the range where [String(n)] is the decimal
    numeral of [n]; an object is given by its own enumerable properties in
    enumeration order.  Functions, symbols, dates and objects with a
    [toJSON] or [toString] of their own are not part of the model. *)

#[warnings="-register-all"] Inductive jsValue :=
| JsNull
| JsUndefined
| JsBool (b : bool)
| JsNumber (n : Z)
| JsStr (s : string)
| JsArray (items : list jsValue)
| JsObj (props : list (string * jsValue)).

Module JsValue.

(** [String(v)], the conversion of template literals.  The elements of an
    array are joined with a comma, [null] and [undefined] as empty text. *)
Fixpoint toString (v : jsValue) : string :=
  match v with
  | JsNull => "null"
  | JsUndefined => "undefined"
  | JsBool b => if b then "true" else "false"
  | JsNumber n => pretty n
  | JsStr s => s
  | JsArray items =>
      JsString.join ","
        (map (fun item => match item with
                          | JsNull | JsUndefined => ""
                          | _ => toString item
                          end) items)
  | JsObj _ => "[object Object]"
  end.

(** The text of an element in [Array.prototype.join]. *)
Definition elementText (item : jsValue) : string :=
  match item with
  | JsNull | JsUndefined => ""
  | _ => toString item
  end.

(** [items.join(sep)] *)
Definition arrayJoin (sep : string) (items : list jsValue) : string :=
  JsString.join sep (map elementText items).

(** [typeof v === "object"] *)
Definition isObject (v : jsValue) : bool :=
  match v with
  | JsNull | JsArray _ | JsObj _ => true
  | _ => false
  end.

Definition backslash : string := String "092"%char EmptyString.

Definition hexDigit (n : nat) : string := String.substring n 1 "0123456789abcdef".

(** One code unit of a string in [JSON.stringify]. *)
Definition quoteChar (c : ascii) : string :=
  let n := nat_of_ascii c in
  if (n =? 34)%nat then backslash +:+ dquote
  else if (n =? 92)%nat then backslash +:+ backslash
  else if (n =? 8)%nat then backslash +:+ "b"
  else if (n =? 9)%nat then backslash +:+ "t"
  else if (n =? 10)%nat then backslash +:+ "n"
  else if (n =? 12)%nat then backslash +:+ "f"
  else if (n =? 13)%nat then backslash +:+ "r"
  else if (n <? 32)%nat then backslash +:+ "u00" +:+ hexDigit (n / 16) +:+ hexDigit (n mod 16)
  else String c EmptyString.

Fixpoint quoteChars (s : string) : string :=
  match s with
  | EmptyString => EmptyString
  | String c r => quoteChar c +:+ quoteChars r
  end.

Definition quoteJSON (s : string) : string := dquote +:+ quoteChars s +:+ dquote.

(** [JSON.stringify(v)], [None] for [undefined]: an [undefined] element of
    an array is written [null], an [undefined] property is left out. *)
Fixpoint stringify (v : jsValue) : option string :=
  match v with
  | JsNull => Some "null"
  | JsUndefined => None
  | JsBool b => Some (if b then "true" else "false")
  | JsNumber n => Some (pretty n)
  | JsStr s => Some (quoteJSON s)
  | JsArray items =>
      Some ("[" +:+
            JsString.join ","
              (map (fun item => match stringify item with
                                | Some text => text
                                | None => "null"
                                end) items)
            +:+ "]")
  | JsObj props =>
      Some ("{" +:+
            JsString.join ","
              (omap (fun prop => match stringify (snd prop) with
                                 | Some text => Some (quoteJSON (fst prop) +:+ ":" +:+ text)
                                 | None => None
                                 end) props)
            +:+ "}")
  end.

End JsValue.

(** ** src/utils/formatObject.js *)

(** [value.replace(/"/g, '\\"')] *)
Definition escapeDouble (s : string) : string :=
  JsString.replaceAll "034"%char (JsValue.backslash +:+ dquote) s.

(** [text.replace(/'/g, "\\'")] *)
Definition escapeSingle (s : string) : string :=
  JsString.replaceAll "'"%char (JsValue.backslash +:+ "'") s.

(** What the body of the loop of [formatObject] assigns to [obj[key]]: a
    string has its double quotes escaped; a value whose [typeof] is
    ["object"] is replaced by its JSON text with both quotes escaped; any
    other value is kept. *)
Definition formatValue (value : jsValue) : exn + jsValue :=
  match value with
  | JsStr s => inr (JsStr (escapeDouble s))
  | JsNull | JsArray _ | JsObj _ =>
      match JsValue.stringify value with
      | Some text => inr (JsStr (escapeSingle (escapeDouble text)))
      | None => inl (TypeError "Cannot read properties of undefined (reading 'replace')")
      end
  | _ => inr value
  end.

(** [formatObject(obj)] for a plain object.  The loop calls
    [obj.hasOwnProperty(key)]: an own property of that name hides the method
    of the prototype, and the call throws. *)
Definition formatObject (obj : JsObject.obj jsValue) : exn + JsObject.obj jsValue :=
  match JsObject.get "hasOwnProperty" obj with
  | Some _ => inl (TypeError "obj.hasOwnProperty is not a function")
  | None =>
      mapE (fun prop => match formatValue (snd prop) with
                        | inl e => inl e
                        | inr value => inr (fst prop, value)
                        end) (JsObject.entries obj)
  end.

(** ** [generateValueSQL] (Model.js) *)

(** The callback of [value.map]. *)
Definition valueSQL (item : jsValue) : jsValue :=
  match item with
  | JsNull => JsStr "NULL"
  | JsStr s => JsStr (dquote +:+ escapeDouble s +:+ dquote)
  | JsArray _ | JsObj _ => JsStr (dquote +:+ JsValue.toString item +:+ dquote)
  | _ => item
  end.

Definition generateValueSQL (value : list jsValue) : string :=
  JsValue.arrayJoin ", " (map valueSQL value).

(** ** src/utils/generateCondition.js *)

(** [value.trim().startsWith("{") && value.trim().endsWith("}")] *)
Definition isBraced (s : string) : bool :=
  JsString.startsWith "{" (JsString.trim s) && JsString.endsWith "}" (JsString.trim s).

(** [typeof value === "object" || (typeof value === "string" && ...)] *)
Definition isJsonLike (value : jsValue) : bool :=
  match value with
  | JsStr s => isBraced s
  | _ => JsValue.isObject value
  end.

(** [typeof value === "string" ? value : JSON.stringify(value)], as text. *)
Definition jsonVal (value : jsValue) : string :=
  match value with
  | JsStr s => s
  | _ => match JsValue.stringify value with
         | Some text => text
         | None => "undefined"
         end
  end.

(** [value === null || value === "null"] *)
Definition isNull (value : jsValue) : bool :=
  match value with
  | JsNull => true
  | JsStr s => String.eqb s "null"
  | _ => false
  end.

Definition inClause (key : string) (items : list jsValue) : string :=
  key +:+ " IN (" +:+
  JsString.join ", " (map (fun v => dquote +:+ JsValue.toString v +:+ dquote) items)
  +:+ ")".

Definition jsonContains (key : string) (value : jsValue) : string :=
  "JSON_CONTAINS(" +:+ key +:+ ", '" +:+ jsonVal value +:+ "')".

Definition equalsClause (key : string) (value : jsValue) : string :=
  key +:+ " = " +:+
  match value with
  | JsStr s => dquote +:+ s +:+ dquote
  | _ => JsValue.toString value
  end.

(** The callback of [uniqueKeys.map], on [filter[key]]. *)
Definition uniqueCondition (key : string) (value : jsValue) : string :=
  match value with
  | JsArray items => inClause key items
  | _ =>
      if isJsonLike value then jsonContains key value
      else if isNull value then key +:+ " IS NULL"
      else equalsClause key value
  end.

(** The callback of [keys.map] in the default behaviour. *)
Definition defaultCondition (isUpdate : bool) (key : string) (value : jsValue) : string :=
  match value with
  | JsArray items => inClause key items
  | _ =>
      if isJsonLike value then
        if isUpdate then key +:+ " = '" +:+ jsonVal value +:+ "'"
        else jsonContains key value
      else if (isNull value && negb isUpdate)%bool then key +:+ " IS NULL"
      else equalsClause key value
  end.

(** The keys of the filter that are fields declared [unique] in the schema. *)
Definition uniqueKeys (filter : JsObject.obj jsValue)
    (schemaDict : JsObject.obj SchemaField) : list string :=
  List.filter (fun key => match JsObject.get key schemaDict with
                          | Some field => sf_unique field
                          | None => false
                          end) (JsObject.keys filter).

(** [filter[key]] *)
Definition property (filter : JsObject.obj jsValue) (key : string) : jsValue :=
  match JsObject.get key filter with
  | Some value => value
  | None => JsUndefined
  end.

(** [generateCondition(filter, isUpdate, schema)]; [schema] is [None] for
    [null] and otherwise the [schemaDict] of the schema. *)
Definition generateCondition (filter : JsObject.obj jsValue) (isUpdate : bool)
    (schema : option (JsObject.obj SchemaField)) : string :=
  let default :=
    JsString.join (" " +:+ (if isUpdate then "," else "AND") +:+ " ")
      (map (fun prop => defaultCondition isUpdate (fst prop) (snd prop))
           (JsObject.entries filter)) in
  match isUpdate, schema with
  | false, Some schemaDict =>
      match uniqueKeys filter schemaDict with
      | [] => default
      | unique =>
          JsString.join " AND "
            (map (fun key => uniqueCondition key (property filter key)) unique)
      end
  | _, _ => default
  end.

(** ** Worlds and vocabulary of the further properties *)

Module Example.

(** The model [staff] on the table [staff], which has an undeclared column. *)
Definition staffWorld : world (Env:=Mock.state) :=
  {| pendingModels := [Scenario.staff]; env := Scenario.staffTable |}.

(** Two models that reference each other, on a database with one table
    that has no model. *)
Definition cyclicWorld : world (Env:=Mock.state) :=
  {| pendingModels := [Scenario.left; Scenario.right];
     env := Mock.database
              [ {| Mock.t_name := "legacy"; Mock.t_columns := [Scenario.idColumn];
                   Mock.t_rows := [] |} ] |}.

(** [users], which references [roles], registered before it, on an empty
    database. *)
Definition usersWorld : world (Env:=Mock.state) :=
  {| pendingModels := [Scenario.users; Scenario.roles]; env := Mock.database [] |}.

(** A model with a reserved name and a field that has no type. *)
Definition selectUntyped : Model :=
  {| name := "select";
     schemaDict :=
       [("id", Mock.field "Number");
        ("label", {| sf_type := None; sf_length := None; sf_required := false;
                     sf_default := DefaultAbsent; sf_unique := false;
                     sf_auto_increment := false; sf_primary_key := false;
                     sf_enum := None; sf_oldName := None; sf_customize := None;
                     sf_foreignKey := None |})] |}.

(** The model [user] with an empty backup on disk and an operator who
    accepts the restore. *)
Definition restoreWorld : world (Env:=Mock.state) :=
  {| pendingModels := [Scenario.user]; env := Scenario.emptyBackup |}.

(** A filter with a value of each kind. *)
Definition filter : JsObject.obj jsValue :=
  [ ("deleted", JsNull);
    ("name", JsStr ("O'Neil " +:+ dquote +:+ "Bob" +:+ dquote));
    ("tags", JsArray [JsStr "it's"; JsNumber 2; JsUndefined]);
    ("meta", JsObj [("k", JsStr "v"); ("skipped", JsUndefined)]);
    ("age", JsNumber 42);
    ("active", JsBool true) ].

Definition formattedFilter : JsObject.obj jsValue :=
  Eval vm_compute in
    match formatObject filter with
    | inr formatted => formatted
    | inl _ => []
    end.

(** A schema in which [email] is unique. *)
Definition accountSchema : JsObject.obj SchemaField :=
  [ ("id", Mock.primaryKey (Mock.field "Number"));
    ("email",
     {| sf_type := Some "String"; sf_length := None; sf_required := true;
        sf_default := DefaultAbsent; sf_unique := true; sf_auto_increment := false;
        sf_primary_key := false; sf_enum := None; sf_oldName := None;
        sf_customize := None; sf_foreignKey := None |});
    ("name", Mock.field "String") ].

(** A row of that table. *)
Definition accountRow : JsObject.obj jsValue :=
  [ ("id", JsNumber 7); ("email", JsStr "bob@example.org"); ("name", JsStr "Bob") ].

End Example.

(** The tables of the CREATE TABLE statements, in order of issue.  A call
    made with [undefined], for a table whose name is a reserved keyword, hands
    no statement to the driver. *)
Definition createdOf (ev : event) : option string :=
  match ev with
  | EvQuery (CreateTable t (Some _)) _ => Some t
  | _ => None
  end.

Definition createdTables (evs : list event) : list string := omap createdOf evs.

(** The tables of the order whose name is not a reserved keyword. *)
Definition creatable (order : list string) : list string :=
  filter (fun t => ifReservedKeywords t = false) order.

(** The stages of the synchronisation of the columns of a table. *)
Definition columnStages : list stage := [Inspection; Modify; Rename; Add; Drop].

(** A property of every event of the runs of a step that return. *)
Definition returning {Env A} (P : event → Prop) (m : M Env A) : Prop :=
  ∀ e a, value_of (m e) = inr a → Forall P (events_of (m e)).

(** A statement that the driver has answered. *)
Definition answered (ev : event) : Prop :=
  ∀ s r, ev = EvQuery s r → r = Done.

(** An event of the replay of a backup: the file is read, or its content
    is sent to the driver. *)
Definition restores (ev : event) : Prop :=
  (∃ path r, ev = EvReadFile path r) ∨ (∃ sqlContent r, ev = EvQuery (Replay sqlContent) r).

(** A text made of ASCII characters. *)
Fixpoint isAscii (s : string) : bool :=
  match s with
  | EmptyString => true
  | String c r => (nat_of_ascii c <? 128)%nat && isAscii r
  end.

(** Every occurrence of the character [q] in [s] comes right after a
    backslash; [afterBackslash] tells whether the character before [s] is
    one. *)
Fixpoint escapedFrom (q : ascii) (afterBackslash : bool) (s : string) : bool :=
  match s with
  | EmptyString => true
  | String c r =>
      (negb (Ascii.eqb c q) || afterBackslash) && escapedFrom q (Ascii.eqb c "092"%char) r
  end.

Definition quotesEscaped (q : ascii) (s : string) : bool := escapedFrom q false s.

(** The entries of a filter whose key is a field declared [unique]. *)
Definition uniqueEntries (filter : JsObject.obj jsValue)
    (schemaDict : JsObject.obj SchemaField) : JsObject.obj jsValue :=
  List.filter (fun prop => match JsObject.get (fst prop) schemaDict with
                           | Some field => sf_unique field
                           | None => false
                           end) filter.

(** A statement that the driver refused is a read of the rows of a table
    for its backup, or the replay of a backup. *)
Definition refusedInTry (ev : event) : Prop :=
  ∀ s reason, ev = EvQuery s (Failed reason) →
              (∃ table, s = SelectAll table) ∨ (∃ sqlContent, s = Replay sqlContent).

(** * Properties *)

(** ** The order of [sort] *)

Module JsStringFacts.
Import JsString.

Lemma leb_refl s : leb s s = true.
Proof.
  induction s as [|a s IH]; simpl; [done|].
  by rewrite Nat.ltb_irrefl.
Qed.

Lemma leb_total s t : leb s t = true ∨ leb t s = true.
Proof.
  revert t; induction s as [|a s IH]; intros [|b t]; simpl; auto.
  destruct (Nat.ltb_spec (nat_of_ascii a) (nat_of_ascii b));
    destruct (Nat.ltb_spec (nat_of_ascii b) (nat_of_ascii a)); auto; lia.
Qed.

Lemma leb_trans s t u : leb s t = true → leb t u = true → leb s u = true.
Proof.
  revert t u; induction s as [|a s IH]; intros [|b t] [|c u]; simpl; try done.
  destruct (Nat.ltb_spec (nat_of_ascii a) (nat_of_ascii b));
    destruct (Nat.ltb_spec (nat_of_ascii b) (nat_of_ascii a));
    destruct (Nat.ltb_spec (nat_of_ascii b) (nat_of_ascii c));
    destruct (Nat.ltb_spec (nat_of_ascii c) (nat_of_ascii b));
    destruct (Nat.ltb_spec (nat_of_ascii a) (nat_of_ascii c));
    destruct (Nat.ltb_spec (nat_of_ascii c) (nat_of_ascii a));
    try done; try lia.
  apply IH.
Qed.

Lemma leb_antisym s t : leb s t = true → leb t s = true → s = t.
Proof.
  revert t; induction s as [|a s IH]; intros [|b t]; simpl; try done.
  destruct (Nat.ltb_spec (nat_of_ascii a) (nat_of_ascii b));
    destruct (Nat.ltb_spec (nat_of_ascii b) (nat_of_ascii a)); try done; try lia.
  intros Hst Hts.
  assert (a = b) as ->.
  { rewrite <- (ascii_nat_embedding a), <- (ascii_nat_embedding b). f_equal. lia. }
  f_equal. by apply IH.
Qed.


Lemma insertSorted_elem x y l : y ∈ insertSorted x l ↔ y = x ∨ y ∈ l.
Proof.
  induction l as [|z l IH]; simpl.
  - set_solver.
  - destruct (leb x z); set_solver.
Qed.

Lemma insertSorted_ascending x l : ascending l → ascending (insertSorted x l).
Proof.
  induction 1 as [|z l Hl IH Hz]; simpl.
  - repeat constructor.
  - destruct (leb x z) eqn:Hxz.
    + constructor; [by constructor|].
      constructor; [done|].
      eapply Forall_impl; [exact Hz|]. intros w Hw. by eapply leb_trans.
    + constructor; [done|].
      apply Forall_forall. intros w Hw%insertSorted_elem.
      destruct Hw as [->|Hw].
      * destruct (leb_total x z) as [Hc|Hc]; congruence.
      * by eapply Forall_forall in Hz.
Qed.

Lemma sort_ascending l : ascending (sort l).
Proof.
  induction l as [|x l IH]; simpl; [constructor|].
  by apply insertSorted_ascending.
Qed.

Lemma sort_elem x l : x ∈ sort l ↔ x ∈ l.
Proof.
  induction l as [|y l IH]; simpl; [done|].
  rewrite insertSorted_elem. set_solver.
Qed.

Lemma ascending_last l x : ascending l → last l = Some x → ∀ y, y ∈ l → leb y x = true.
Proof.
  induction 1 as [|z l Hl IH Hz]; [done|].
  intros Hlast y Hy.
  destruct l as [|z' l'].
  - simpl in Hlast. injection Hlast as ->.
    apply list_elem_of_singleton in Hy as ->. apply leb_refl.
  - change (last (z :: z' :: l')) with (last (z' :: l')) in Hlast.
    apply elem_of_cons in Hy as [->|Hy].
    + eapply Forall_forall in Hz; [exact Hz|].
      by eapply last_Some_elem_of.
    + by apply IH.
Qed.

End JsStringFacts.

(** ** The column-definition compiler *)

Section Compiler.

Lemma includes_app_r p a b : JsString.includes p b = true → JsString.includes p (a +:+ b) = true.
Proof.
  intros Hb. induction a as [|c a IH]; simpl; [done|].
  rewrite IH. apply orb_true_r.
Qed.

Lemma startsWith_app p s : JsString.startsWith p (p +:+ s) = true.
Proof.
  induction p as [|c p IH]; simpl; [done|].
  by rewrite Ascii.eqb_refl.
Qed.

Lemma includes_app_l p a b : JsString.includes p a = true → JsString.includes p (a +:+ b) = true.
Proof.
  revert p. induction a as [|c a IH]; intros p; simpl.
  - destruct p; simpl; [|done]. intros _. destruct b; done.
  - intros [Hs|Hi]%orb_true_iff.
    + apply orb_true_iff; left.
      clear IH. revert c a Hs. induction p as [|d p IHp]; intros c a Hs; [done|].
      simpl in *. apply andb_true_iff in Hs as [-> Hs]. simpl.
      destruct a as [|c' a]; simpl in *.
      * destruct p; simpl in *; [|done]. by destruct b.
      * destruct p as [|d' p]; [done|]. by apply IHp.
    + apply orb_true_iff; right. by apply IH.
Qed.

End Compiler.

(** ** NOT NULL in the compiled clause *)

Section NotNull.


Lemma hasSpace_cons c r : hasSpace (String c r) = Ascii.eqb " "%char c || hasSpace r.
Proof. reflexivity. Qed.

Lemma append_cons c (a b : string) : String c a +:+ b = String c (a +:+ b).
Proof. reflexivity. Qed.

Lemma append_nil_l (b : string) : "" +:+ b = b.
Proof. reflexivity. Qed.

Lemma hasSpace_app a b : hasSpace (a +:+ b) = hasSpace a || hasSpace b.
Proof.
  induction a as [|c a IH]; [done|].
  rewrite append_cons, !hasSpace_cons. by rewrite IH, Bool.orb_assoc.
Qed.

Lemma append_assoc (a b c : string) : (a +:+ b) +:+ c = a +:+ (b +:+ c).
Proof.
  induction a as [|x a IH]; [done|].
  rewrite !append_cons. by rewrite IH.
Qed.

Lemma append_nil_r (a : string) : a +:+ "" = a.
Proof.
  induction a as [|x a IH]; [done|].
  rewrite append_cons. by rewrite IH.
Qed.

Lemma startsWith_cons a p b s :
  JsString.startsWith (String a p) (String b s) = Ascii.eqb a b && JsString.startsWith p s.
Proof. reflexivity. Qed.

Lemma includes_cons p b s :
  JsString.includes p (String b s) = JsString.startsWith p (String b s) || JsString.includes p s.
Proof. reflexivity. Qed.

(** A word without a space, followed by a space, cannot hold the start of
    NOT NULL unless the word ends in NOT and NULL follows. *)
Lemma includes_not_null_skip f r :
  hasSpace f = false →
  JsString.startsWith "NULL" r = false →
  JsString.includes "NOT NULL" (f +:+ " " +:+ r) = JsString.includes "NOT NULL" r.
Proof.
  intros Hf Hr. induction f as [|c f IH].
  - rewrite append_nil_l, append_cons, append_nil_l, includes_cons, startsWith_cons.
    by change (Ascii.eqb "N" " ")%char with false.
  - rewrite hasSpace_cons in Hf. apply orb_false_iff in Hf as [Hc Hf].
    rewrite append_cons, includes_cons, (IH Hf).
    replace (JsString.startsWith "NOT NULL" (String c (f +:+ " " +:+ r))) with false; [done|].
    symmetry.
    destruct f as [|c2 [|c3 [|c4 f]]];
      rewrite ?append_cons, ?append_nil_l, !startsWith_cons.
    + change (Ascii.eqb "O" " ")%char with false. by rewrite !andb_false_r.
    + change (Ascii.eqb "T" " ")%char with false. by rewrite !andb_false_r.
    + rewrite Hr. by rewrite !andb_false_r.
    + rewrite !hasSpace_cons in Hf.
      apply orb_false_iff in Hf as [_ Hf]. apply orb_false_iff in Hf as [_ Hf].
      apply orb_false_iff in Hf as [Hc4 _]. rewrite Hc4. by rewrite !andb_false_r.
Qed.

Lemma includes_no_space f : hasSpace f = false → JsString.includes "NOT NULL" f = false.
Proof.
  intros Hf.
  assert (JsString.includes "NOT NULL" (f +:+ " " +:+ "") = false) as Hskip.
  { by rewrite includes_not_null_skip. }
  destruct (JsString.includes "NOT NULL" f) eqn:Hi; [|done].
  by rewrite (includes_app_l _ _ _ Hi) in Hskip.
Qed.

Lemma pretty_N_go_no_space x s : hasSpace s = false → hasSpace (pretty_N_go x s) = false.
Proof.
  revert s. induction (N.lt_wf_0 x) as [x _ IH]; intros s Hs.
  assert (x = 0 ∨ 0 < x)%N as [->|Hx] by lia.
  - by rewrite pretty_N_go_0.
  - rewrite pretty_N_go_step by done. apply IH.
    { by apply N.div_lt. }
    rewrite hasSpace_cons, Hs. unfold pretty_N_char. by repeat case_match.
Qed.

Lemma pretty_length_no_space field : hasSpace (pretty (lengthOf field)) = false.
Proof.
  assert (0 < lengthOf field)%Z as Hpos.
  { unfold lengthOf. destruct (sf_length field) as [n|]; [|done].
    destruct (Z.ltb_spec 0 n); [done|lia]. }
  destruct (lengthOf field) as [|p|p]; try lia.
  unfold pretty, pretty_Z, pretty, pretty_positive, pretty, pretty_N.
  case_decide; [done|]. by apply pretty_N_go_no_space.
Qed.


Lemma sqlTypeOf_cases ft ty :
  sqlTypeOf ft = Some ty →
  ty ∈ ["VARCHAR"; "INT"; "BOOLEAN"; "DATETIME"; "JSON"; "NOW()"; "FLOAT"; "TEXT"; "TIMESTAMP"].
Proof.
  destruct ft as [t|]; [|done]. unfold sqlTypeOf, sqlTypeMap. simpl.
  repeat (destruct (String.eqb t _); [intros [= <-]; set_solver|]).
  done.
Qed.

Lemma typeClause_plain fieldName field colType :
  enumOf field = None →
  typeClause fieldName field = inr colType →
  hasSpace colType = false ∧ ∀ tail, JsString.startsWith "NULL" (colType +:+ tail) = false.
Proof.
  unfold typeClause. intros ->.
  destruct (sqlTypeOf (getFieldType field)) as [ty|] eqn:Hty; [|done].
  intros [= <-]. apply sqlTypeOf_cases in Hty.
  pose proof (pretty_length_no_space field) as Hlen.
  repeat (apply elem_of_cons in Hty as [->|Hty]);
    [..|by apply elem_of_nil in Hty]; simpl;
    rewrite ?hasSpace_app, ?Hlen; done.
Qed.

End NotNull.

Section NotNullClaim.

Lemma includes_after_type p fieldName colType tail :
  JsString.includes p tail = true →
  JsString.includes p (fieldName +:+ " " +:+ (colType +:+ tail)) = true.
Proof. intros Ht. by do 3 apply includes_app_r. Qed.

Lemma plain_suffix field :
  sf_required field = false → sf_default field = DefaultAbsent → sf_customize field = None →
  notNullClause field +:+ constraintClauses field = ""
  ∨ ∃ word, notNullClause field +:+ constraintClauses field = " " +:+ word
            ∧ JsString.startsWith "NULL" word = false
            ∧ JsString.includes "NOT NULL" word = false.
Proof.
  unfold notNullClause, constraintClauses. intros -> -> ->.
  destruct (sf_unique field), (sf_auto_increment field), (sf_primary_key field);
    first [ by left | right; eexists; split; [reflexivity|]; split; reflexivity ].
Qed.

(** C2, amended: for every field name and descriptor accepted by the
    column-definition compiler, the emitted clause contains NOT NULL whenever
    [required] is true; and for a descriptor without enumeration, default or
    customisation, whose field name has no space, the clause contains
    NOT NULL if and only if [required] is true: [primary_key] adds
    PRIMARY KEY and no NOT NULL. *)
Theorem getColumnDefinition_not_null (fieldName : string) (field : SchemaField) (clause : string) :
  getColumnDefinition fieldName field = inr clause →
  (sf_required field = true → JsString.includes "NOT NULL" clause = true)
  ∧ (plainDescriptor fieldName field →
     (JsString.includes "NOT NULL" clause = true ↔ sf_required field = true)).
Proof.
  unfold getColumnDefinition.
  destruct (sf_primary_key field && sf_unique field); [done|].
  destruct (typeClause fieldName field) as [e|colType] eqn:Hty; [done|].
  intros [= <-].
  assert (sf_required field = true →
          JsString.includes "NOT NULL"
            (fieldName +:+ " " +:+ (colType +:+ notNullClause field +:+ constraintClauses field))
          = true) as Hfwd.
  { intros Hreq. apply includes_after_type. unfold notNullClause. rewrite Hreq.
    by apply includes_app_l. }
  split; [exact Hfwd|].
  intros (Hname & Henum & Hdef & Hcust). split; [|exact Hfwd].
  destruct (sf_required field) eqn:Hreq; [done|].
  destruct (typeClause_plain _ _ _ Henum Hty) as [Hsp Hnull].
  rewrite includes_not_null_skip; [|done|].
  - destruct (plain_suffix field Hreq Hdef Hcust) as [->|(word & -> & Hw1 & Hw2)].
    + rewrite append_nil_r. by rewrite includes_no_space.
    + rewrite includes_not_null_skip by done. by rewrite Hw2.
  - apply Hnull.
Qed.

(** The theorem at a descriptor that is a primary key and not required. *)
Lemma getColumnDefinition_not_null_witness :
  getColumnDefinition "id" (Mock.primaryKey (Mock.field "Number")) = inr "id INT(255) PRIMARY KEY"
  ∧ JsString.includes "NOT NULL" "id INT(255) PRIMARY KEY" = false.
Proof.
  assert (getColumnDefinition "id" (Mock.primaryKey (Mock.field "Number"))
          = inr "id INT(255) PRIMARY KEY") as Hc by reflexivity.
  split; [exact Hc|].
  destruct (getColumnDefinition_not_null _ _ _ Hc) as [_ Hiff].
  destruct (JsString.includes "NOT NULL" "id INT(255) PRIMARY KEY") eqn:Hi; [|reflexivity].
  assert (plainDescriptor "id" (Mock.primaryKey (Mock.field "Number"))) as Hp.
  { repeat split. }
  destruct (Hiff Hp) as [Hreq _]. discriminate (Hreq eq_refl).
Defined.

(** C2 as stated fails: a primary key that is not required compiles to a
    clause without NOT NULL. *)
Lemma getColumnDefinition_primary_key_counterexample :
  ¬ (∀ fieldName field clause,
       getColumnDefinition fieldName field = inr clause →
       (JsString.includes "NOT NULL" clause = true
        ↔ sf_required field = true ∨ sf_primary_key field = true)).
Proof.
  intros Hclaim.
  destruct (Hclaim "id" (Mock.primaryKey (Mock.field "Number")) "id INT(255) PRIMARY KEY" eq_refl)
    as [_ Hback].
  discriminate Hback. by right.
Qed.

End NotNullClaim.

(** ** Runs of the pass: events and results of composed steps *)

Section Runs.
Context {Env : Type}.

Local Abbreviation always := (always (Env:=Env)).

Lemma bind_events {A B} (m : M Env A) (k : A → M Env B) (e : Env) :
  events_of (bind m k e) =
  events_of (m e) ++
  match value_of (m e) with
  | inr a => events_of (k a (env_of (m e)))
  | inl _ => []
  end.
Proof. unfold bind. destruct (value_of (m e)); simpl; by rewrite ?app_nil_r. Qed.

Lemma bind_inr {A B} (m : M Env A) (k : A → M Env B) (e : Env) (b : B) :
  value_of (bind m k e) = inr b →
  ∃ a, value_of (m e) = inr a
       ∧ value_of (k a (env_of (m e))) = inr b
       ∧ events_of (bind m k e) = events_of (m e) ++ events_of (k a (env_of (m e)))
       ∧ env_of (bind m k e) = env_of (k a (env_of (m e))).
Proof. unfold bind. destruct (value_of (m e)) as [x|a]; simpl; [done|]. eauto. Qed.

Lemma bind_inl_first {A B} (m : M Env A) (k : A → M Env B) (e : Env) (x : exn) :
  value_of (m e) = inl x →
  bind m k e = Run (env_of (m e)) (events_of (m e)) (inl x).
Proof. unfold bind. by intros ->. Qed.


Lemma always_ret {A} P (a : A) : always P (ret a).
Proof. intros e. constructor. Qed.

Lemma always_throw {A} P (x : exn) : always P (throw (A:=A) x).
Proof. intros e. constructor. Qed.

Lemma always_liftE {A} P (r : exn + A) : always P (liftE r).
Proof. destruct r; [apply always_throw|apply always_ret]. Qed.

Lemma always_emit P ev : P ev → always P (emit ev).
Proof. intros Hev e. by repeat constructor. Qed.

Lemma always_bind {A B} P (m : M Env A) (k : A → M Env B) :
  always P m → (∀ a, always P (k a)) → always P (bind m k).
Proof.
  intros Hm Hk e. rewrite bind_events. apply Forall_app. split; [apply Hm|].
  destruct (value_of (m e)); [constructor|apply Hk].
Qed.

Lemma always_tryCatch {A} P (m : M Env A) (h : exn → M Env A) :
  always P m → (∀ x, always P (h x)) → always P (tryCatch m h).
Proof.
  intros Hm Hh e. unfold tryCatch. destruct (value_of (m e)); simpl; [|apply Hm].
  apply Forall_app. split; [apply Hm|apply Hh].
Qed.

Lemma always_forEach {A} P (xs : list A) (body : A → M Env unit) :
  (∀ x, always P (body x)) → always P (forEach xs body).
Proof.
  intros Hbody. induction xs as [|x xs IH]; simpl; [apply always_ret|].
  apply always_bind; [apply Hbody|]. intros _. apply IH.
Qed.

Lemma always_forEach_in {A} P (xs : list A) (body : A → M Env unit) :
  (∀ x, x ∈ xs → always P (body x)) → always P (forEach xs body).
Proof.
  induction xs as [|x xs IH]; intros Hbody; simpl; [apply always_ret|].
  apply always_bind; [apply Hbody, list_elem_of_here|]. intros _. apply IH.
  intros y Hy. by apply Hbody, list_elem_of_further.
Qed.

Lemma always_forEachWith {A S} P (xs : list A) (body : S → A → M Env S) (s : S) :
  (∀ s x, always P (body s x)) → always P (forEachWith xs body s).
Proof.
  intros Hbody. revert s. induction xs as [|x xs IH]; intros s; simpl; [apply always_ret|].
  apply always_bind; [apply Hbody|]. intros s'. apply IH.
Qed.

Lemma always_impl {A} (P Q : event → Prop) (m : M Env A) :
  (∀ ev, P ev → Q ev) → always P m → always Q m.
Proof. intros HPQ Hm e. eapply Forall_impl; [apply Hm|done]. Qed.

Context `{Collaborators Env}.

Lemma always_query P (s : stmt) : (∀ r, P (EvQuery s r)) → always P (query s).
Proof.
  intros HP e. unfold query. destruct (drv_query s e) as [e' [reason|rows]];
    simpl; by repeat constructor.
Qed.

Lemma always_fsCall {A} P (call : Env → Env * (string + A)) (ev : outcome → event) :
  (∀ r, P (ev r)) → always P (fsCall call ev).
Proof.
  intros HP e. unfold fsCall. destruct (call e) as [e' [reason|a]];
    simpl; by repeat constructor.
Qed.

Lemma always_question P (p : prompt) : (∀ answer, P (EvQuestion p answer)) → always P (question p).
Proof.
  intros HP e. unfold question. destruct (rl_question p e) as [e' answer].
  simpl. by repeat constructor.
Qed.

Lemma always_now P : always P now.
Proof. intros e. unfold now. destruct (clock_now e). constructor. Qed.

Lemma always_globSync P pattern : always P (globSync pattern).
Proof. intros e. constructor. Qed.

(** The run of a primitive step. *)
Lemma question_run (p : prompt) (e : Env) :
  ∃ e' answer, question p e = Run e' [EvQuestion p answer] (inr answer).
Proof. unfold question. destruct (rl_question p e) as [e' answer]. eauto. Qed.

Lemma query_run (s : stmt) (e : Env) :
  (∃ e' reason, query s e = Run e' [EvQuery s (Failed reason)] (inl (Rejected reason)))
  ∨ (∃ e' rows, drv_query s e = (e', inr rows) ∧ query s e = Run e' [EvQuery s Done] (inr rows)).
Proof. unfold query. destruct (drv_query s e) as [e' [reason|rows]]; eauto. Qed.

Lemma fsCall_run {A} (call : Env → Env * (string + A)) (ev : outcome → event) (e : Env) :
  (∃ e' reason, fsCall call ev e = Run e' [ev (Failed reason)] (inl (Rejected reason)))
  ∨ (∃ e' a, fsCall call ev e = Run e' [ev Done] (inr a)).
Proof. unfold fsCall. destruct (call e) as [e' [reason|a]]; eauto. Qed.

Lemma now_run (e : Env) : ∃ e' t, now e = Run e' [] (inr t).
Proof. unfold now. destruct (clock_now e) as [e' t]. eauto. Qed.

Lemma bind_run_inr {A B} (m : M Env A) (k : A → M Env B) e e' evs a :
  m e = Run e' evs (inr a) →
  bind m k e = Run (env_of (k a e')) (evs ++ events_of (k a e')) (value_of (k a e')).
Proof. unfold bind. by intros ->. Qed.

Lemma bind_run_inl {A B} (m : M Env A) (k : A → M Env B) e e' evs x :
  m e = Run e' evs (inl x) → bind m k e = Run e' evs (inl x).
Proof. unfold bind. by intros ->. Qed.

Lemma tryCatch_run_inl {A} (m : M Env A) (h : exn → M Env A) e e' evs x :
  m e = Run e' evs (inl x) →
  tryCatch m h e = Run (env_of (h x e')) (evs ++ events_of (h x e')) (value_of (h x e')).
Proof. unfold tryCatch. by intros ->. Qed.

Lemma tryCatch_run_inr {A} (m : M Env A) (h : exn → M Env A) e e' evs a :
  m e = Run e' evs (inr a) → tryCatch m h e = Run e' evs (inr a).
Proof. unfold tryCatch. by intros ->. Qed.

End Runs.

(** One step of a run: the first call of the program in the goal is
    resolved into its possible outcomes. *)
Ltac run_first m e k :=
  lazymatch m with
  | question ?p =>
      let e' := fresh "e" in let a := fresh "answer" in let Hq := fresh "Hrun" in
      destruct (question_run p e) as (e' & a & Hq); k Hq
  | now =>
      let e' := fresh "e" in let t := fresh "t" in let Hq := fresh "Hrun" in
      destruct (now_run e) as (e' & t & Hq); k Hq
  | query ?s =>
      let e' := fresh "e" in let a := fresh "rows" in let Hq := fresh "Hrun" in
      let Hd := fresh "Hdrv" in
      destruct (query_run s e) as [(e' & a & Hq)|(e' & a & Hd & Hq)]; k Hq
  | fsCall ?c ?ev =>
      let e' := fresh "e" in let a := fresh "r" in let Hq := fresh "Hrun" in
      destruct (fsCall_run c ev e) as [(e' & a & Hq)|(e' & a & Hq)]; k Hq
  end.

Ltac run_rewrite Hq :=
  first [ rewrite (bind_run_inr _ _ _ _ _ _ Hq)
        | rewrite (bind_run_inl _ _ _ _ _ _ Hq)
        | rewrite (tryCatch_run_inr _ _ _ _ _ _ Hq)
        | rewrite (tryCatch_run_inl _ _ _ _ _ _ Hq)
        | rewrite Hq ];
  clear Hq; cbn [env_of events_of value_of app].


(** ** The restore offer *)

Section Latest.

Lemma latestOf_greatest (files : list string) (latest : string) :
  latestOf files = Some latest →
  latest ∈ files ∧ ∀ f, f ∈ files → JsString.leb f latest = true.
Proof.
  unfold latestOf. rewrite head_reverse. intros Hlast. split.
  - apply JsStringFacts.sort_elem. by eapply last_Some_elem_of.
  - intros f Hf. eapply JsStringFacts.ascending_last; [apply JsStringFacts.sort_ascending|exact Hlast|].
    by apply JsStringFacts.sort_elem.
Qed.

Lemma elem_of_List_filter {A} (f : A → bool) (l : list A) (x : A) :
  x ∈ List.filter f l ↔ x ∈ l ∧ f x = true.
Proof. rewrite !list_elem_of_In. apply filter_In. Qed.

(** C10: the restore offer for a declared table [T] picks the lexically
    greatest path listed for the pattern [./backup_T_*.sql] that does not end
    in [.ignored], and asks the operator about that path; and there are two
    declared tables, [user] and [user_roles], such that the backup written
    when [user_roles] was dropped is the one offered for [user]. *)
Theorem offerRestore_latest_backup {Env : Type} `{Collaborators Env}
    (model : Model) (e : Env) (latest : string) :
  let listed := glob_sync ("./backup_" +:+ name model +:+ "_*.sql") e in
  latestOf (List.filter (fun f => negb (JsString.endsWith ".ignored" f)) listed) = Some latest →
  (latest ∈ listed
   ∧ JsString.endsWith ".ignored" latest = false
   ∧ (∀ f, f ∈ listed → JsString.endsWith ".ignored" f = false → JsString.leb f latest = true)
   ∧ ∃ answer, head (events_of (offerRestore model e))
               = Some (EvQuestion (AskRestore (name model) latest) answer))
  ∧ (∃ path w1 evs1 w2 evs2,
       syncAllTables false Scenario.undeclared = (w1, evs1, inr tt)
       ∧ EvLog (BackupSaved (name Scenario.user_roles) path) ∈ evs1
       ∧ syncAllTables false (newModel Scenario.user_roles (newModel Scenario.user w1))
         = (w2, evs2, inr tt)
       ∧ EvQuestion (AskRestore (name Scenario.user) path) "" ∈ evs2).
Proof.
  intros listed Hlatest. split.
  - destruct (latestOf_greatest _ _ Hlatest) as [Hin Hmax].
    apply elem_of_List_filter in Hin as [Hin Hign].
    apply negb_true_iff in Hign.
    split; [done|]. split; [done|]. split.
    + intros f Hf Hfi. apply Hmax, elem_of_List_filter. by rewrite Hfi.
    + unfold offerRestore, bind, globSync. simpl. fold listed. rewrite Hlatest.
      unfold question. destruct (rl_question _ e) as [e1 answer]. simpl.
      by exists answer.
  - exists "./backup_user_roles_1700000000000.sql".
    eexists _, _, _, _.
    split; [vm_compute; reflexivity|].
    split; [vm_compute; set_solver|].
    split; [vm_compute; reflexivity|].
    vm_compute. set_solver.
Qed.

(** The theorem in the test double, with one backup file on disk. *)
Lemma offerRestore_latest_backup_witness :
  let e := Mock.withFiles (env Scenario.undeclared)
             [("./backup_user_1700000000000.sql", ""); ("./backup_user_1700000000001.sql", "")] in
  ∃ answer, head (events_of (offerRestore Scenario.user e))
            = Some (EvQuestion (AskRestore "user" "./backup_user_1700000000001.sql") answer).
Proof.
  intros e.
  assert (latestOf (List.filter (fun f => negb (JsString.endsWith ".ignored" f))
                      (glob_sync ("./backup_" +:+ name Scenario.user +:+ "_*.sql") e))
          = Some "./backup_user_1700000000001.sql") as Hl by reflexivity.
  destruct (offerRestore_latest_backup Scenario.user e _ Hl) as [(_ & _ & _ & answer & Hhead) _].
  exists answer. exact Hhead.
Defined.

End Latest.

(** ** A replay that fails *)

Section Restore.
Context {Env : Type} `{Collaborators Env}.

Lemma replayBackup_run (model : Model) (latest : string) (e : Env) :
  value_of (replayBackup model latest e) = inr tt
  ∧ ((∃ reason, events_of (replayBackup model latest e) =
        [EvReadFile latest (Failed reason);
         EvError (RestoreFailed (name model) (Rejected reason))])
     ∨ (∃ content reason, events_of (replayBackup model latest e) =
        [EvReadFile latest Done; EvQuery (Replay content) (Failed reason);
         EvError (RestoreFailed (name model) (Rejected reason))])
     ∨ (∃ content, events_of (replayBackup model latest e) =
        [EvReadFile latest Done; EvQuery (Replay content) Done;
         EvLog (BackupRestored (name model))])).
Proof.
  unfold replayBackup, readFileSync.
  run_first (fsCall (fs_readFileSync latest) (EvReadFile latest)) e ltac:(fun Hq => idtac).
  - rewrite (tryCatch_run_inl _ _ _ _ _ _ (bind_run_inl _ _ _ _ _ _ Hrun)).
    cbn. eauto.
  - run_first (query (Replay r)) e0 ltac:(fun Hq => idtac).
    + rewrite (tryCatch_run_inl _ _ _ e1 [EvReadFile latest Done; EvQuery (Replay r) (Failed rows)]
                 (Rejected rows)).
      * cbn. eauto 10.
      * rewrite (bind_run_inr _ _ _ _ _ _ Hrun). cbn [env_of events_of value_of].
        by rewrite (bind_run_inl _ _ _ _ _ _ Hrun0).
    + rewrite (tryCatch_run_inr _ _ _ e1
                 [EvReadFile latest Done; EvQuery (Replay r) Done; EvLog (BackupRestored (name model))] tt).
      * cbn. eauto 10.
      * rewrite (bind_run_inr _ _ _ _ _ _ Hrun). cbn [env_of events_of value_of].
        rewrite (bind_run_inr _ _ _ _ _ _ Hrun0). by destruct rows.
Qed.

Lemma disposeBackup_run (model : Model) (latest : string) (e : Env) :
  ∃ delAnswer r rest,
    events_of (disposeBackup model latest e) =
      EvQuestion (AskDelete latest) delAnswer :: disposal latest delAnswer r :: rest
    ∧ match r with
      | Done => value_of (disposeBackup model latest e) = inr tt
                ∧ rest = [EvLog (if isYes delAnswer then BackupDeleted latest
                                 else BackupIgnored (name model))]
      | Failed reason => value_of (disposeBackup model latest e) = inl (Rejected reason)
                         ∧ rest = []
      end.
Proof.
  unfold disposeBackup, disposal.
  run_first (question (AskDelete latest)) e run_rewrite.
  exists answer. destruct (isYes answer); unfold unlinkSync, renameSync.
  - run_first (fsCall (fs_unlinkSync latest) (EvUnlink latest)) e0 run_rewrite.
    + by exists (Failed r), [].
    + destruct r. by exists Done, [EvLog (BackupDeleted latest)].
  - run_first (fsCall (fs_renameSync latest (latest +:+ ".ignored"))
                 (EvRename latest (latest +:+ ".ignored"))) e0 run_rewrite.
    + by exists (Failed r), [].
    + destruct r. by exists Done, [EvLog (BackupIgnored (name model))].
Qed.

(** C5, amended: when replaying the artifact's statement fails, the failure
    is logged and the pass goes on to the second question; the artifact is
    then deleted when the operator answers yes, and renamed with the
    [.ignored] marker otherwise.  Once that call on the file has succeeded
    the restore step returns normally. *)
Theorem offerRestore_replay_failure (model : Model) (e : Env)
    (sqlContent reason : string) :
  EvQuery (Replay sqlContent) (Failed reason) ∈ events_of (offerRestore model e) →
  ∃ latest answer delAnswer r rest,
    events_of (offerRestore model e) =
      [ EvQuestion (AskRestore (name model) latest) answer;
        EvReadFile latest Done;
        EvQuery (Replay sqlContent) (Failed reason);
        EvError (RestoreFailed (name model) (Rejected reason));
        EvQuestion (AskDelete latest) delAnswer;
        disposal latest delAnswer r ] ++ rest
    ∧ (r = Done →
       value_of (offerRestore model e) = inr tt
       ∧ rest = [EvLog (if isYes delAnswer then BackupDeleted latest
                        else BackupIgnored (name model))]).
Proof.
  unfold offerRestore.
  rewrite (bind_run_inr (globSync _) _ e e [] _ eq_refl).
  cbn [env_of events_of value_of app].
  destruct (latestOf _) as [latest|].
  2:{ cbn. by intros ?%elem_of_nil. }
  run_first (question (AskRestore (name model) latest)) e run_rewrite.
  rewrite bind_events.
  destruct (disposeBackup_run model latest
              (env_of ((if isYes answer then replayBackup model latest else ret tt) e0)))
    as (delAnswer & r & rest & Hdisp & Hr).
  assert (value_of ((if isYes answer then replayBackup model latest else ret tt) e0) = inr tt)
    as Hval.
  { destruct (isYes answer); [apply replayBackup_run|done]. }
  rewrite Hval, Hdisp.
  assert (∀ x, x ∈ events_of ((if isYes answer then replayBackup model latest else ret tt) e0) ++
                    EvQuestion (AskDelete latest) delAnswer :: disposal latest delAnswer r :: rest →
               (∃ o, x = EvQuery (Replay sqlContent) o) →
               x ∈ events_of ((if isYes answer then replayBackup model latest else ret tt) e0)) as Hloc.
  { intros x Hx [o ->]. apply elem_of_app in Hx as [Hx|Hx]; [done|].
    apply elem_of_cons in Hx as [?|Hx]; [done|].
    apply elem_of_cons in Hx as [Hx|Hx].
    { unfold disposal in Hx. by destruct (isYes delAnswer). }
    destruct r; destruct Hr as [_ ->].
    - apply list_elem_of_singleton in Hx. done.
    - by apply elem_of_nil in Hx. }
  intros Hin. apply elem_of_cons in Hin as [?|Hin]; [done|].
  apply Hloc in Hin; [|eauto].
  exists latest, answer, delAnswer, r, rest.
  destruct (isYes answer).
  - destruct (replayBackup_run model latest e0) as [_ [(rd & Hev)|[(c & why & Hev)|(c & Hev)]]];
      rewrite Hev in Hin |- *.
    + repeat (apply elem_of_cons in Hin as [?|Hin]; [done|]). by apply elem_of_nil in Hin.
    + repeat (apply elem_of_cons in Hin as [Heq|Hin]; [try done|]);
        [|by apply elem_of_nil in Hin].
      injection Heq as -> ->. split; [done|].
      intros ->. unfold bind. rewrite Hval. cbn. by destruct Hr as [-> ->].
    + repeat (apply elem_of_cons in Hin as [?|Hin]; [done|]). by apply elem_of_nil in Hin.
  - by apply elem_of_nil in Hin.
Qed.
End Restore.

(** The theorem in the test double: the empty backup does not replay. *)
Lemma offerRestore_replay_failure_witness :
  ∃ latest answer delAnswer r rest,
    events_of (offerRestore Scenario.user Scenario.emptyBackup) =
      [ EvQuestion (AskRestore "user" latest) answer;
        EvReadFile latest Done;
        EvQuery (Replay "") (Failed "ER_EMPTY_QUERY");
        EvError (RestoreFailed "user" (Rejected "ER_EMPTY_QUERY"));
        EvQuestion (AskDelete latest) delAnswer;
        disposal latest delAnswer r ] ++ rest
    ∧ (r = Done →
       value_of (offerRestore Scenario.user Scenario.emptyBackup) = inr tt
       ∧ rest = [EvLog (if isYes delAnswer then BackupDeleted latest
                        else BackupIgnored "user")]).
Proof.
  apply (offerRestore_replay_failure Scenario.user Scenario.emptyBackup "" "ER_EMPTY_QUERY").
  vm_compute. apply list_elem_of_further, list_elem_of_further, list_elem_of_here.
Defined.

(** C5 as stated fails: after a replay that fails the artifact is renamed
    with the [.ignored] marker (or deleted), not left untouched. *)
Lemma offerRestore_untouched_counterexample :
  ¬ (∀ (Env : Type) (C : Collaborators Env) (model : Model) (e : Env) sqlContent reason,
       EvQuery (Replay sqlContent) (Failed reason) ∈ events_of (offerRestore model e) →
       (∀ path r, EvUnlink path r ∉ events_of (offerRestore model e))
       ∧ (∀ oldPath newPath r, EvRename oldPath newPath r ∉ events_of (offerRestore model e))).
Proof.
  intros Hclaim.
  destruct (Hclaim _ _ Scenario.user Scenario.emptyBackup "" "ER_EMPTY_QUERY") as [_ Hrename].
  { vm_compute. apply list_elem_of_further, list_elem_of_further, list_elem_of_here. }
  apply (Hrename "./backup_user_1700000000000.sql" "./backup_user_1700000000000.sql.ignored" Done).
  vm_compute. do 5 apply list_elem_of_further. apply list_elem_of_here.
Qed.

(** ** Orphan tables *)

Section Orphans.
Context {Env : Type} `{Collaborators Env}.

Lemma backup_run (dbTable : string) (e : Env) :
  let m := tryCatch (backupTable dbTable) (fun err => error (BackupFailed dbTable err)) in
  value_of (m e) = inr tt ∧ backupAttempt dbTable (events_of (m e)).
Proof.
  cbv zeta. unfold backupTable.
  run_first (@now Env _) e ltac:(fun Hq => idtac).
  run_first (query (SelectAll dbTable)) e0 ltac:(fun Hq => idtac).
  - rewrite (tryCatch_run_inl _ _ _ e1 [EvQuery (SelectAll dbTable) (Failed rows)] (Rejected rows)).
    + cbn. split; [done|constructor].
    + rewrite (bind_run_inr _ _ _ _ _ _ Hrun). cbn [env_of events_of value_of app].
      by rewrite (bind_run_inl _ _ _ _ _ _ Hrun0).
  - destruct rows as [|first rows]; unfold writeFileSync.
    + run_first (fsCall (fs_writeFileSync (backupPath dbTable t) "")
                   (EvWriteFile (backupPath dbTable t) "")) e1 ltac:(fun Hq => idtac).
      * rewrite (tryCatch_run_inl _ _ _ e2
                   [EvQuery (SelectAll dbTable) Done;
                    EvWriteFile (backupPath dbTable t) "" (Failed r)] (Rejected r)).
        -- cbn. split; [done|apply (WriteRejected dbTable t [])].
        -- rewrite (bind_run_inr _ _ _ _ _ _ Hrun). cbn [env_of events_of value_of app].
           rewrite (bind_run_inr _ _ _ _ _ _ Hrun0). cbn [env_of events_of value_of app].
           by rewrite (bind_run_inl _ _ _ _ _ _ Hrun1).
      * rewrite (tryCatch_run_inr _ _ _ e2
                   [EvQuery (SelectAll dbTable) Done;
                    EvWriteFile (backupPath dbTable t) "" Done;
                    EvLog (EmptyBackupCreated dbTable (backupPath dbTable t))] tt).
        -- cbn. split; [done|constructor].
        -- rewrite (bind_run_inr _ _ _ _ _ _ Hrun). cbn [env_of events_of value_of app].
           rewrite (bind_run_inr _ _ _ _ _ _ Hrun0). cbn [env_of events_of value_of app].
           by rewrite (bind_run_inr _ _ _ _ _ _ Hrun1).
    + run_first (fsCall (fs_writeFileSync (backupPath dbTable t) (insertSQL dbTable first (first :: rows)))
                   (EvWriteFile (backupPath dbTable t) (insertSQL dbTable first (first :: rows))))
        e1 ltac:(fun Hq => idtac).
      * rewrite (tryCatch_run_inl _ _ _ e2
                   [EvQuery (SelectAll dbTable) Done;
                    EvWriteFile (backupPath dbTable t) (insertSQL dbTable first (first :: rows)) (Failed r)]
                   (Rejected r)).
        -- cbn. split; [done|apply (WriteRejected dbTable t (first :: rows))].
        -- rewrite (bind_run_inr _ _ _ _ _ _ Hrun). cbn [env_of events_of value_of app].
           rewrite (bind_run_inr _ _ _ _ _ _ Hrun0). cbn [env_of events_of value_of app].
           by rewrite (bind_run_inl _ _ _ _ _ _ Hrun1).
      * rewrite (tryCatch_run_inr _ _ _ e2
                   [EvQuery (SelectAll dbTable) Done;
                    EvWriteFile (backupPath dbTable t) (insertSQL dbTable first (first :: rows)) Done;
                    EvLog (BackupSaved dbTable (backupPath dbTable t))] tt).
        -- cbn. split; [done|constructor].
        -- rewrite (bind_run_inr _ _ _ _ _ _ Hrun). cbn [env_of events_of value_of app].
           rewrite (bind_run_inr _ _ _ _ _ _ Hrun0). cbn [env_of events_of value_of app].
           by rewrite (bind_run_inr _ _ _ _ _ _ Hrun1).
Qed.

Lemma dropOrphan_run (dbTable : string) (e : Env) :
  ∃ backup r rest,
    backupAttempt dbTable backup
    ∧ events_of (dropOrphan dbTable e) =
        backup ++ [EvLog (NoSchemaDropping dbTable); EvQuery (DropTable dbTable) r] ++ rest
    ∧ match r with
      | Done => value_of (dropOrphan dbTable e) = inr tt
                ∧ rest = [EvLog (TableDropped dbTable)]
      | Failed reason => value_of (dropOrphan dbTable e) = inl (Rejected reason) ∧ rest = []
      end.
Proof.
  destruct (backup_run dbTable e) as [Hval Hatt]. cbv zeta in *.
  unfold dropOrphan.
  set (m := tryCatch (backupTable dbTable) (λ err, error (BackupFailed dbTable err))) in *.
  exists (events_of (m e)).
  assert (m e = Run (env_of (m e)) (events_of (m e)) (inr tt)) as Hm.
  { destruct (m e) as [e1 evs v]. simpl in *. by subst. }
  rewrite (bind_run_inr _ _ _ _ _ _ Hm). cbn [env_of events_of value_of].
  rewrite (bind_run_inr (logs _) _ _ _ [EvLog (NoSchemaDropping dbTable)] tt eq_refl).
  cbn [env_of events_of value_of app].
  run_first (query (DropTable dbTable)) (env_of (m e)) run_rewrite.
  - by exists (Failed rows), [].
  - by exists Done, [EvLog (TableDropped dbTable)].
Qed.

End Orphans.

(** ** The events of each step *)

Ltac always_step :=
  lazymatch goal with
  | |- always _ (ret _) => apply always_ret
  | |- always _ (throw _) => apply always_throw
  | |- always _ (liftE _) => apply always_liftE
  | |- always _ now => apply always_now
  | |- always _ (globSync _) => apply always_globSync
  | |- always _ (emit _) => apply always_emit
  | |- always _ (query ?s) => apply (always_query _ s); intros ?
  | |- always _ (fsCall _ _) => apply always_fsCall; intros ?
  | |- always _ (question _) => apply always_question; intros ?
  | |- always _ (bind _ _) => apply always_bind; [|intros ?]
  | |- always _ (tryCatch _ _) => apply always_tryCatch; [|intros ?]
  | |- always _ (forEach _ _) => apply always_forEach; intros ?
  | |- always _ (forEachWith _ _ _) => apply always_forEachWith; intros ? ?
  | |- always _ (match ?x with _ => _ end) => destruct x
  | |- always _ (let '(_, _) := ?x in _) => destruct x
  end.

Ltac always_go := repeat always_step.

Section Stages.
Context {Env : Type} `{Collaborators Env}.

Lemma dropOrphan_during dbTable : always (during [Orphan] dbTable) (dropOrphan dbTable).
Proof.
  unfold dropOrphan, backupTable, writeFileSync, logs, error. always_go;
    cbv [during stageOf tableOf]; set_solver.
Qed.

Lemma dropOrphans_during modelMap dbTables :
  always (fun ev => ∃ t, during [Orphan] t ev) (dropOrphans modelMap dbTables).
Proof.
  unfold dropOrphans. always_go.
  eapply always_impl; [|apply dropOrphan_during]. eauto.
Qed.

Lemma ensureTable_during model : always (during [Creation] (name model)) (ensureTable model).
Proof.
  unfold ensureTable, generateCreateTableStatement, logs, error. always_go;
    cbv [during stageOf tableOf]; set_solver.
Qed.

Lemma offerRestore_during model : always (during [Restore] (name model)) (offerRestore model).
Proof.
  unfold offerRestore, replayBackup, disposeBackup, readFileSync, unlinkSync, renameSync,
    logs, error.
  always_go; cbv [during stageOf tableOf]; set_solver.
Qed.

Lemma modifyColumns_during model columns existingCols :
  always (during [Inspection; Modify] (name model)) (modifyColumns model columns existingCols).
Proof.
  unfold modifyColumns, modifyColumn, logs. always_go; cbv [during stageOf tableOf]; set_solver.
Qed.

Lemma renameColumns_during model existingCols :
  always (during [Rename] (name model)) (renameColumns model existingCols).
Proof.
  unfold renameColumns, renameColumn, logs. always_go; cbv [during stageOf tableOf]; set_solver.
Qed.

Lemma addColumns_during model existingCols :
  always (during [Add] (name model)) (addColumns model existingCols).
Proof.
  unfold addColumns, addColumn, logs. always_go; cbv [during stageOf tableOf]; set_solver.
Qed.

Lemma dropColumns_during dangerousSync model existingCols :
  always (during [Drop] (name model)) (dropColumns dangerousSync model existingCols).
Proof.
  unfold dropColumns, dropColumn, logs. always_go; cbv [during stageOf tableOf]; set_solver.
Qed.

End Stages.

(** ** The orphan phase of a pass *)

Section OrphanPhase.
Context {Env : Type} `{Collaborators Env}.

Lemma registerModels_modelMap pending dependencies modelMap t :
  (registerModels pending dependencies modelMap).2 !! t = None ↔
  modelMap !! t = None ∧ ∀ m, m ∈ pending → name m ≠ t.
Proof.
  revert dependencies modelMap. induction pending as [|model rest IH]; intros deps mm; simpl.
  - split; [intros ?; split; [done|]; by intros m ?%elem_of_nil|by intros [? _]].
  - rewrite IH. rewrite lookup_insert_None. split.
    + intros [[Hmm Hne] Hrest]. split; [done|]. intros m [->|Hm]%elem_of_cons; auto.
    + intros [Hmm Hall]. split; [split; [done|]|].
      * apply Hall, list_elem_of_here.
      * intros m Hm. by apply Hall, list_elem_of_further.
Qed.

Lemma registerModels_named pending dependencies modelMap :
  (∀ t m, modelMap !! t = Some m → name m = t) →
  ∀ t m, (registerModels pending dependencies modelMap).2 !! t = Some m → name m = t.
Proof.
  revert dependencies modelMap. induction pending as [|model rest IH]; intros deps mm Hmm; simpl.
  - done.
  - apply IH. intros t m. rewrite lookup_insert_Some. intros [[<- <-]|[_ Hm]]; eauto.
Qed.

(** The orphan loop, when it does not throw: one run per table without a
    model, in the order of SHOW TABLES. *)
Lemma dropOrphans_inr modelMap dbTables e :
  value_of (dropOrphans modelMap dbTables e) = inr tt →
  ∃ runs,
    events_of (dropOrphans modelMap dbTables e) = concat runs
    ∧ Forall2 orphanRun (filter (fun t => hasModel modelMap t = false) dbTables) runs.
Proof.
  unfold dropOrphans. revert e. induction dbTables as [|t rest IH]; intros e; simpl.
  - intros _. exists []. split; [done|constructor].
  - intros Hval. apply bind_inr in Hval as (u & Hhead & Hrest & Hev & _).
    destruct (IH _ Hrest) as (runs & Hruns & Hall). rewrite Hev, Hruns.
    rewrite filter_cons. destruct (hasModel modelMap t) eqn:Hm.
    + rewrite decide_False by done. exists runs. split; [done|exact Hall].
    + rewrite decide_True by done.
      destruct (dropOrphan_run t e) as (backup & r & tail & Hb & Hevs & Hr).
      destruct r as [|reason]; [|destruct Hr as [Hr _]; congruence].
      destruct Hr as [_ ->].
      exists (events_of (dropOrphan t e) :: runs). split; [done|].
      constructor; [|exact Hall]. exists backup. split; [done|]. by rewrite Hevs.
Qed.

(** A pass that completes: the listing, the orphan phase, the tables. *)
Lemma syncPass_inr dangerousSync pending e :
  value_of (syncPass dangerousSync pending e) = inr tt →
  ∃ e1 dbTables order,
    drv_query ShowTables e = (e1, inr dbTables)
    ∧ creationOrder pending = Some (inr order)
    ∧ let modelMap := (registerModels pending [] ∅).2 in
      value_of (dropOrphans modelMap dbTables e1) = inr tt
      ∧ events_of (syncPass dangerousSync pending e) =
          EvQuery ShowTables Done ::
          events_of (dropOrphans modelMap dbTables e1) ++
          events_of (syncTables dangerousSync modelMap order
                       (env_of (dropOrphans modelMap dbTables e1))).
Proof.
  unfold syncPass, creationOrder.
  destruct (registerModels pending [] ∅) as [dependencies modelMap]. simpl.
  run_first (query ShowTables) e run_rewrite; [done|].
  intros Hval. exists e0, rows.
  destruct (topologicalSort dependencies modelMap) as [[x|order]|]; simpl in *; try done.
  exists order. split; [done|]. split; [done|].
  apply bind_inr in Hval as (u & Ho & Ht & Hev & _). destruct u.
  split; [done|]. by rewrite Hev.
Qed.

End OrphanPhase.


(** ** Orphan tables and the emptied registry *)

Section OrphanClaims.
Context {Env : Type} `{Collaborators Env}.

Lemma syncAllTables_inr dangerousSync (w w' : world) evs :
  syncAllTables dangerousSync w = (w', evs, inr tt) →
  value_of (syncPass dangerousSync (pendingModels w) (env w)) = inr tt
  ∧ evs = events_of (syncPass dangerousSync (pendingModels w) (env w))
  ∧ pendingModels w' = [].
Proof.
  unfold syncAllTables.
  destruct (value_of (syncPass dangerousSync (pendingModels w) (env w))) as [x|[]] eqn:Hv;
    [done|].
  by intros [= <- <-].
Qed.

Lemma split_mid {A} (l1 l2 pre post : list A) (x : A) :
  l1 ++ l2 = pre ++ x :: post →
  (∃ b, l1 = pre ++ x :: b ∧ post = b ++ l2) ∨ (∃ a, pre = l1 ++ a ∧ l2 = a ++ x :: post).
Proof.
  revert pre. induction l1 as [|y l1 IH]; intros pre Heq; simpl in *.
  - right. by exists pre.
  - destruct pre as [|z pre]; simpl in *.
    + injection Heq as -> <-. left. by exists l1.
    + injection Heq as -> Heq. destruct (IH _ Heq) as [(b & -> & ->)|(a & -> & ->)].
      * left. by exists b.
      * right. by exists a.
Qed.

Lemma concat_split {A} (runs : list (list A)) (pre post : list A) (x : A) :
  concat runs = pre ++ x :: post →
  ∃ before a b after,
    runs = before ++ (a ++ x :: b) :: after
    ∧ pre = concat before ++ a ∧ post = b ++ concat after.
Proof.
  revert pre. induction runs as [|run runs IH]; intros pre Heq; simpl in *.
  - by destruct pre.
  - apply split_mid in Heq as [(b & -> & ->)|(a & -> & Heq)].
    + by exists [], pre, b, runs.
    + destruct (IH _ Heq) as (before & a' & b & after & -> & -> & ->).
      exists (run :: before), a', b, after. simpl. by rewrite app_assoc.
Qed.

Lemma during_mono stages stages' table ev :
  stages ⊆ stages' → during stages table ev → during stages' table ev.
Proof. unfold during. destruct (stageOf ev); [|done]. intros Hsub [Hs Ht]. split; auto. Qed.

Lemma syncColumns_during dangerousSync model :
  always (during tableStages (name model)) (syncColumns dangerousSync model).
Proof.
  unfold syncColumns. apply always_bind.
  { apply (always_query _ (ShowColumns (name model))). intros r.
    cbv [during stageOf tableOf tableStages]. set_solver. }
  intros columns. apply always_bind.
  { eapply always_impl; [|apply modifyColumns_during]. intros ev. apply during_mono.
    unfold tableStages. set_solver. }
  intros _. apply always_bind.
  { eapply always_impl; [|apply renameColumns_during]. intros ev. apply during_mono.
    unfold tableStages. set_solver. }
  intros cols. apply always_bind.
  { eapply always_impl; [|apply addColumns_during]. intros ev. apply during_mono.
    unfold tableStages. set_solver. }
  intros cols'.
  eapply always_impl; [|apply dropColumns_during]. intros ev. apply during_mono.
  unfold tableStages. set_solver.
Qed.

Lemma syncTable_during dangerousSync model :
  always (during tableStages (name model)) (syncTable dangerousSync model).
Proof.
  unfold syncTable. apply always_bind.
  { eapply always_impl; [|apply ensureTable_during]. intros ev. apply during_mono.
    unfold tableStages. set_solver. }
  intros _. apply always_bind.
  { eapply always_impl; [|apply offerRestore_during]. intros ev. apply during_mono.
    unfold tableStages. set_solver. }
  intros _. apply syncColumns_during.
Qed.

Lemma syncTables_during dangerousSync modelMap order :
  always (fun ev => ∃ t, during tableStages t ev) (syncTables dangerousSync modelMap order).
Proof.
  unfold syncTables. apply always_forEach. intros table.
  destruct (modelMap !! table) as [model|]; [|apply always_throw].
  eapply always_impl; [|apply syncTable_during]. eauto.
Qed.

Lemma during_stage stages table ev s :
  during stages table ev → stageOf ev = Some s →
  s ∈ stages ∧ (tableOf ev = None ∨ tableOf ev = Some table).
Proof. unfold during. intros Hd Hs. by rewrite Hs in Hd. Qed.

(** The events of a pass, phase by phase. *)
Lemma syncPass_always (P : event → Prop) dangerousSync pending :
  (∀ r, P (EvQuery ShowTables r)) →
  (∀ dbTables, always P (dropOrphans (registerModels pending [] ∅).2 dbTables)) →
  (∀ t model, (registerModels pending [] ∅).2 !! t = Some model →
              always P (syncTable dangerousSync model)) →
  always P (syncPass dangerousSync pending).
Proof.
  intros Hshow Horphans Htable. unfold syncPass.
  destruct (registerModels pending [] ∅) as [dependencies modelMap]. simpl in *.
  apply always_bind; [by apply (always_query _ ShowTables)|]. intros dbTables.
  apply always_bind.
  { destruct (topologicalSort dependencies modelMap); [apply always_liftE|apply always_throw]. }
  intros order. apply always_bind; [apply Horphans|]. intros _.
  unfold syncTables. apply always_forEach. intros t.
  destruct (modelMap !! t) as [model|] eqn:Hm; [by eapply Htable|apply always_throw].
Qed.

Lemma syncAllTables_events dangerousSync (w : world) :
  (syncAllTables dangerousSync w).1.2
  = events_of (syncPass dangerousSync (pendingModels w) (env w)).
Proof.
  unfold syncAllTables.
  by destruct (value_of (syncPass dangerousSync (pendingModels w) (env w))).
Qed.

Lemma syncTable_stages dangerousSync model :
  always (fun ev => ∀ s, stageOf ev = Some s → s ∈ tableStages)
    (syncTable dangerousSync model).
Proof.
  eapply always_impl; [|apply syncTable_during].
  intros ev Hev s Hs. by destruct (during_stage _ _ _ _ Hev Hs).
Qed.

(** The orphan loop drops a table only when [modelMap[dbTable]] is falsy. *)
Lemma dropTable_falsy dangerousSync pending :
  always (fun ev => ∀ t r, ev = EvQuery (DropTable t) r →
                           hasModel (registerModels pending [] ∅).2 t = false)
    (syncPass dangerousSync pending).
Proof.
  apply syncPass_always.
  - done.
  - intros dbTables. unfold dropOrphans. apply always_forEach. intros dbTable.
    destruct (hasModel _ dbTable) eqn:Hm; [apply always_ret|].
    eapply always_impl; [|apply dropOrphan_during].
    intros ev Hev t r' ->. destruct (during_stage _ _ _ _ Hev eq_refl) as [_ [?|[= ->]]]; done.
  - intros t m _. eapply always_impl; [|apply syncTable_stages].
    intros ev Hev t' r' ->. specialize (Hev _ eq_refl). unfold tableStages in Hev. set_solver.
Qed.

Lemma hasModel_inherited modelMap t :
  JsObject.inherited t = true → hasModel modelMap t = true.
Proof. unfold hasModel. intros ->. apply orb_true_r. Qed.

Lemma hasModel_declared modelMap t :
  is_Some (modelMap !! t) → hasModel modelMap t = true.
Proof. unfold hasModel. intros Hsome. by rewrite bool_decide_eq_true_2. Qed.

Lemma hasModel_false modelMap t :
  hasModel modelMap t = false → modelMap !! t = None.
Proof.
  unfold hasModel. intros [Hnone _]%orb_false_iff.
  apply bool_decide_eq_false in Hnone. by apply eq_None_not_Some.
Qed.

Lemma hasModel_plain modelMap t :
  JsObject.inherited t = false →
  hasModel modelMap t = false ↔ modelMap !! t = None.
Proof.
  unfold hasModel. intros ->. rewrite orb_false_r, bool_decide_eq_false.
  rewrite <- eq_None_not_Some. done.
Qed.

(** C8: in a pass that completes, with no pending model named [__proto__],
    every table listed by SHOW TABLES that has no declared model and whose
    name is not a property of [Object.prototype] is dropped, whatever
    [dangerousSync] is; a table whose name is such a property
    ([constructor], [toString], ...) is never dropped, although it has no
    model; and a write of the backup file that fails is followed by the
    report of the failure and by the drop of the table. *)
Theorem orphan_tables_dropped (dangerousSync : bool) (w w' : world) (evs : list event)
    (e1 : Env) (dbTables : list string) :
  ownNames (pendingModels w) →
  drv_query ShowTables (env w) = (e1, inr dbTables) →
  syncAllTables dangerousSync w = (w', evs, inr tt) →
  (∀ t, t ∈ dbTables → (∀ m, m ∈ pendingModels w → name m ≠ t) →
        if JsObject.inherited t then ∀ r, EvQuery (DropTable t) r ∉ evs
        else EvQuery (DropTable t) Done ∈ evs)
  ∧ (∀ pre path content reason post,
       evs = pre ++ EvWriteFile path content (Failed reason) :: post →
       ∃ t post',
         post = EvError (BackupFailed t (Rejected reason))
                :: EvLog (NoSchemaDropping t)
                :: EvQuery (DropTable t) Done :: post').
Proof.
  intros _ Hshow Hsync.
  apply syncAllTables_inr in Hsync as (Hval & -> & _).
  pose proof (dropTable_falsy dangerousSync (pendingModels w) (env w)) as Hfalsy.
  apply syncPass_inr in Hval as (e1' & dbTables' & order & Hshow' & _ & Horph & Hev).
  rewrite Hshow in Hshow'. injection Hshow' as <- <-.
  cbv zeta in *. set (modelMap := (registerModels (pendingModels w) [] ∅).2) in *.
  destruct (dropOrphans_inr _ _ _ Horph) as (runs & Hruns & Hall).
  rewrite Hev, Hruns in Hfalsy |- *. clear Hev. split.
  - intros t Ht Hundeclared. destruct (JsObject.inherited t) eqn:Hinh.
    { intros r Hin. eapply Forall_forall in Hfalsy; [|exact Hin].
      specialize (Hfalsy _ _ eq_refl). by rewrite hasModel_inherited in Hfalsy. }
    assert (hasModel modelMap t = false) as Hnone.
    { apply hasModel_plain; [done|].
      apply registerModels_modelMap. split; [apply lookup_empty|done]. }
    assert (t ∈ filter (λ t, hasModel modelMap t = false) dbTables) as Hin.
    { by apply list_elem_of_filter. }
    apply list_elem_of_lookup in Hin as [i Hi].
    destruct (Forall2_lookup_l _ _ _ _ _ Hall Hi) as (run & Hrun & backup & _ & ->).
    apply list_elem_of_further, elem_of_app. left.
    apply list_elem_of_In, in_concat. exists (backup ++ [EvLog (NoSchemaDropping t);
      EvQuery (DropTable t) Done; EvLog (TableDropped t)]).
    split; [apply list_elem_of_In; by eapply list_elem_of_lookup_2|].
    apply list_elem_of_In, elem_of_app. right. set_solver.
  - intros pre path content reason post Heq.
    destruct pre as [|first pre]; [done|]. injection Heq as _ Heq.
    apply split_mid in Heq as [(b & Heq & ->)|(a & -> & Heq)].
    + apply concat_split in Heq as (before & a & b' & after & -> & -> & ->).
      apply Forall2_app_inv_r in Hall as (ts1 & ts2 & _ & Hall & _).
      inversion Hall as [|t run ts2' after' (backup & Hb & Hrun) Hrest]; subst.
      symmetry in Hrun. apply split_mid in Hrun as [(b'' & Hbk & ->)|(a' & -> & Htail)].
      * exists t. destruct Hb; 
          repeat (destruct a as [|? a]; simplify_eq/=); eauto.
      * repeat (destruct a' as [|? a']; simplify_eq/=).
    + pose proof (syncTables_during dangerousSync modelMap order
                    (env_of (dropOrphans modelMap dbTables e1))) as Hduring.
      rewrite Heq in Hduring. apply Forall_app in Hduring as [_ Hduring].
      apply Forall_cons in Hduring as [(t & Hd) _].
      cbv [during stageOf tableStages] in Hd. destruct Hd as [Hd _]. set_solver.
Qed.

(** C4: a call of [syncAllTables] that completes leaves [Model.pendingModels]
    empty; a later call made with the same pending models registers no
    declared table, and when it completes its events are the listing followed,
    for every table of SHOW TABLES in turn whose name is not a property of
    [Object.prototype], by the backup of the table and its drop; a table
    whose name is such a property is passed over. *)
Theorem pendingModels_emptied (dangerousSync : bool) (w w1 : world) (evs1 : list event) :
  syncAllTables dangerousSync w = (w1, evs1, inr tt) →
  pendingModels w1 = []
  ∧ ∀ dangerousSync2 (w1' w2 : world) evs2 e' dbTables,
      pendingModels w1' = pendingModels w1 →
      drv_query ShowTables (env w1') = (e', inr dbTables) →
      syncAllTables dangerousSync2 w1' = (w2, evs2, inr tt) →
      creationOrder (pendingModels w1') = Some (inr [])
      ∧ ∃ runs, evs2 = EvQuery ShowTables Done :: concat runs
                ∧ Forall2 orphanRun
                    (filter (fun t => JsObject.inherited t = false) dbTables) runs.
Proof.
  intros Hsync. apply syncAllTables_inr in Hsync as (_ & _ & Hempty).
  split; [done|].
  intros ds2 w1' w2 evs2 e' dbTables Hsame Hshow Hsync2.
  rewrite Hempty in Hsame.
  apply syncAllTables_inr in Hsync2 as (Hval & -> & _).
  apply syncPass_inr in Hval as (e1 & dbTables' & order & Hshow' & Horder & Horph & Hev).
  rewrite Hshow in Hshow'. injection Hshow' as <- <-.
  rewrite Hsame in *. split; [done|].
  assert (order = []) as -> by (vm_compute in Horder; congruence).
  cbv zeta in *. simpl in *.
  destruct (dropOrphans_inr _ _ _ Horph) as (runs & Hruns & Hall).
  exists runs. rewrite Hev, Hruns, app_nil_r. split; [done|].
  replace (filter (λ t, JsObject.inherited t = false) dbTables)
    with (filter (λ t, hasModel (∅ : gmap string Model) t = false) dbTables); [done|].
  clear. induction dbTables as [|t l IH]; [done|].
  rewrite !filter_cons, IH.
  assert (hasModel (∅ : gmap string Model) t = JsObject.inherited t) as ->; [|done].
  unfold hasModel. rewrite bool_decide_eq_false_2; [done|].
  rewrite lookup_empty. by intros [? ?].
Qed.

End OrphanClaims.

(** C8 in the test double: [legacy] is dropped although its backup could not
    be written, and [constructor], which has no model either, is kept. *)
Lemma orphan_tables_dropped_witness :
  EvQuery (DropTable "legacy") Done ∈ (syncAllTables false Scenario.crowdedFullDisk).1.2
  ∧ (∀ r, EvQuery (DropTable "constructor") r ∉ (syncAllTables false Scenario.crowdedFullDisk).1.2)
  ∧ ∃ pre path content reason t post',
      (syncAllTables false Scenario.crowdedFullDisk).1.2 =
        pre ++ EvWriteFile path content (Failed reason)
            :: EvError (BackupFailed t (Rejected reason))
            :: EvLog (NoSchemaDropping t)
            :: EvQuery (DropTable t) Done :: post'.
Proof.
  destruct (orphan_tables_dropped false Scenario.crowdedFullDisk
              (syncAllTables false Scenario.crowdedFullDisk).1.1
              (syncAllTables false Scenario.crowdedFullDisk).1.2
              (env Scenario.crowdedFullDisk) ["user"; "legacy"; "constructor"])
    as [Hdrop Hwrite].
  { intros m Hm. apply list_elem_of_singleton in Hm as ->. done. }
  { reflexivity. }
  { vm_compute. reflexivity. }
  split; [|split].
  - apply (Hdrop "legacy").
    + apply list_elem_of_further, list_elem_of_here.
    + intros m Hm. apply list_elem_of_singleton in Hm as ->. done.
  - apply (Hdrop "constructor").
    + do 2 apply list_elem_of_further. apply list_elem_of_here.
    + intros m Hm. apply list_elem_of_singleton in Hm as ->. done.
  - destruct (Hwrite [EvQuery ShowTables Done; EvQuery (SelectAll "legacy") Done]
                "./backup_legacy_1700000000000.sql"
                (insertSQL "legacy" [("id", DbNumber 7)] [[("id", DbNumber 7)]]) "ENOSPC"
                (skipn 3 (syncAllTables false Scenario.crowdedFullDisk).1.2))
      as (t & post' & Hpost).
    { vm_compute. reflexivity. }
    exists [EvQuery ShowTables Done; EvQuery (SelectAll "legacy") Done],
      "./backup_legacy_1700000000000.sql",
      (insertSQL "legacy" [("id", DbNumber 7)] [[("id", DbNumber 7)]]), "ENOSPC", t, post'.
    rewrite <- Hpost. vm_compute. reflexivity.
Defined.

(** C4 in the test double: after a first pass over [user], [legacy] and
    [constructor] with the model [user], a second pass backs up the rows of
    [user], drops it, and passes over [constructor]. *)
Lemma pendingModels_emptied_witness :
  pendingModels (syncAllTables false Scenario.crowded).1.1 = []
  ∧ ∃ runs,
      (syncAllTables true (syncAllTables false Scenario.crowded).1.1).1.2
      = EvQuery ShowTables Done :: concat runs
      ∧ Forall2 orphanRun ["user"] runs
      ∧ runs = [ [ EvQuery (SelectAll "user") Done;
                   EvWriteFile "./backup_user_1700000000001.sql"
                     ("INSERT INTO `user` (`id`) VALUES(7);" +:+ newline) Done;
                   EvLog (BackupSaved "user" "./backup_user_1700000000001.sql");
                   EvLog (NoSchemaDropping "user");
                   EvQuery (DropTable "user") Done;
                   EvLog (TableDropped "user") ] ].
Proof.
  destruct (pendingModels_emptied false Scenario.crowded
              (syncAllTables false Scenario.crowded).1.1
              (syncAllTables false Scenario.crowded).1.2) as [Hempty Hnext].
  { vm_compute. reflexivity. }
  split; [exact Hempty|].
  destruct (Hnext true (syncAllTables false Scenario.crowded).1.1
              (syncAllTables true (syncAllTables false Scenario.crowded).1.1).1.1
              (syncAllTables true (syncAllTables false Scenario.crowded).1.1).1.2
              (env (syncAllTables false Scenario.crowded).1.1) ["user"; "constructor"])
    as [_ (runs & Hevs & Hruns)].
  { reflexivity. }
  { vm_compute. reflexivity. }
  { vm_compute. reflexivity. }
  exists runs. split; [exact Hevs|].
  vm_compute filter in Hruns. split; [exact Hruns|].
  inversion Hruns as [|t run ts rest _ Hrest]; subst. inversion Hrest; subst.
  simpl in Hevs. rewrite app_nil_r in Hevs.
  assert ((syncAllTables true (syncAllTables false Scenario.crowded).1.1).1.2
          = [ EvQuery ShowTables Done;
              EvQuery (SelectAll "user") Done;
              EvWriteFile "./backup_user_1700000000001.sql"
                ("INSERT INTO `user` (`id`) VALUES(7);" +:+ newline) Done;
              EvLog (BackupSaved "user" "./backup_user_1700000000001.sql");
              EvLog (NoSchemaDropping "user");
              EvQuery (DropTable "user") Done;
              EvLog (TableDropped "user") ]) as Hrun by (vm_compute; reflexivity).
  rewrite Hrun in Hevs. injection Hevs as <-. reflexivity.
Defined.

(** ** Objects: lookup after assignment *)

Module JsObjectFacts.
Import JsObject.

Section Facts.
Context {A : Type}.
Implicit Types (o : obj A) (k : string) (v : A).

Lemma get_replace k k2 v o :
  is_Some (get k o) →
  get k2 (replace k v o) = if String.eqb k2 k then Some v else get k2 o.
Proof.
  induction o as [|[k' v'] o IH]; simpl; [by intros [? ?]|].
  destruct (String.eqb k k') eqn:Hk; simpl.
  - intros _. apply String.eqb_eq in Hk as <-. by destruct (String.eqb k2 k).
  - intros Hsome. rewrite (IH Hsome).
    destruct (String.eqb k2 k') eqn:Hk2; [|done].
    apply String.eqb_eq in Hk2 as ->. rewrite String.eqb_sym in Hk. by rewrite Hk.
Qed.

Lemma get_insertIndex n k k2 v o :
  get k o = None →
  get k2 (insertIndex n k v o) = if String.eqb k2 k then Some v else get k2 o.
Proof.
  induction o as [|[k' v'] o IH]; simpl; [done|].
  destruct (String.eqb k k') eqn:Hk; [done|]. intros Hnone.
  assert (String.eqb k2 k' = true → String.eqb k2 k = false) as Hdiff.
  { intros ->%String.eqb_eq. by rewrite String.eqb_sym. }
  destruct (arrayIndex k') as [m|]; [destruct (m <? n)%N|]; simpl; rewrite ?(IH Hnone);
    destruct (String.eqb k2 k') eqn:Hk2; try done; by rewrite Hdiff.
Qed.

Lemma get_app k o1 o2 :
  get k (o1 ++ o2) = match get k o1 with Some v => Some v | None => get k o2 end.
Proof.
  induction o1 as [|[k' v'] o1 IH]; simpl; [done|]. by destruct (String.eqb k k').
Qed.

Lemma get_set k k2 v o :
  get k2 (set k v o) = if String.eqb k2 k then Some v else get k2 o.
Proof.
  unfold set. destruct (get k o) as [old|] eqn:Hget.
  - apply get_replace. by rewrite Hget.
  - destruct (arrayIndex k) as [n|].
    + by apply get_insertIndex.
    + rewrite get_app. simpl.
      destruct (String.eqb k2 k) eqn:Hk.
      * apply String.eqb_eq in Hk as ->. by rewrite Hget.
      * by destruct (get k2 o).
Qed.

Lemma elem_of_keys k o : k ∈ keys o ↔ is_Some (get k o).
Proof.
  unfold keys. induction o as [|[k' v'] o IH]; simpl.
  - split; [by intros ?%elem_of_nil|by intros [? ?]].
  - rewrite elem_of_cons, IH. destruct (String.eqb k k') eqn:Hk.
    + apply String.eqb_eq in Hk. split; [by eauto|by left].
    + apply String.eqb_neq in Hk. naive_solver.
Qed.

End Facts.
End JsObjectFacts.

(** ** Registration *)

Section Registration.


Lemma registerModels_linked pending dependencies modelMap :
  linked dependencies modelMap →
  linked (registerModels pending dependencies modelMap).1
         (registerModels pending dependencies modelMap).2.
Proof.
  revert dependencies modelMap. induction pending as [|model rest IH]; intros deps mm Hl; simpl.
  - done.
  - apply IH. intros t. rewrite JsObjectFacts.get_set.
    destruct (String.eqb t (name model)) eqn:Ht.
    + apply String.eqb_eq in Ht as ->. by rewrite lookup_insert_eq.
    + apply String.eqb_neq in Ht. rewrite lookup_insert_ne by done. apply Hl.
Qed.

Lemma linked_empty : linked [] ∅.
Proof. intros t. by rewrite lookup_empty. Qed.

End Registration.

(** ** The depth-first visit *)

Section Visit.
Variable dependencies : JsObject.obj (list string).
Variable modelMap : gmap string Model.
Hypothesis Hlinked : linked dependencies modelMap.

Local Abbreviation edge := (edge dependencies modelMap).
Local Abbreviation sortInv := (sortInv dependencies modelMap).
Local Abbreviation visitReturns := (visitReturns dependencies modelMap).




Lemma extends_refl st : extends st st.
Proof. split; [done|done|]. exists []. by rewrite app_nil_r. Qed.

Lemma extends_trans st1 st2 st3 : extends st1 st2 → extends st2 st3 → extends st1 st3.
Proof.
  intros [Hm1 Ht1 [n1 Hs1]] [Hm2 Ht2 [n2 Hs2]]. split; [by auto|by auto|].
  exists (n1 ++ n2). by rewrite Hs2, Hs1, app_assoc.
Qed.

Lemma sortInv_empty : sortInv emptySort.
Proof.
  split; simpl.
  - intros t. rewrite lookup_empty. split; [done|by intros ?%elem_of_nil].
  - constructor.
  - intros l1 t l2 Heq. by destruct l1.
  - intros t. rewrite lookup_empty. by intros [? ?].
Qed.

(** A table that is finished: its mark becomes [true] and it is pushed. *)
Lemma sortInv_finish st t deps :
  sortInv st →
  visited st !! t = Some Temp →
  JsObject.get t dependencies = Some deps →
  (∀ d, d ∈ deps → is_Some (modelMap !! d) → visited st !! d = Some Visited) →
  sortInv {| visited := <[t := Visited]> (visited st); sorted := sorted st ++ [t] |}.
Proof.
  intros [Hv Hn Hd Hdecl] Htemp Hget Hdone.
  assert (t ∉ sorted st) as Hfresh.
  { intros Hin%Hv. congruence. }
  split; simpl.
  - intros s. rewrite elem_of_app, list_elem_of_singleton.
    destruct (decide (s = t)) as [->|Hne].
    + rewrite lookup_insert_eq. naive_solver.
    + rewrite lookup_insert_ne by done. rewrite Hv. naive_solver.
  - apply NoDup_app. split; [done|]. split; [|apply NoDup_singleton].
    intros s Hs ->%list_elem_of_singleton. done.
  - intros l1 s l2 Heq d Hedge.
    destruct l2 as [|x l2 _] using rev_ind.
    + apply app_inj_tail in Heq as [<- <-].
      destruct Hedge as (deps' & Hget' & Hin & Hsome).
      rewrite Hget in Hget'. injection Hget' as <-.
      apply Hv. by apply Hdone.
    + rewrite app_comm_cons, app_assoc in Heq.
      apply app_inj_tail in Heq as [Heq <-]. by eapply Hd.
  - intros s. destruct (decide (s = t)) as [->|Hne].
    + intros _. apply Hdecl. by rewrite Htemp.
    + rewrite lookup_insert_ne by done. apply Hdecl.
Qed.

Lemma sortInv_start st t :
  sortInv st → visited st !! t = None → is_Some (modelMap !! t) →
  sortInv {| visited := <[t := Temp]> (visited st); sorted := sorted st |}.
Proof.
  intros [Hv Hn Hd Hdecl] Hnone Hsome. split; simpl; [|done|done|].
  - intros s. destruct (decide (s = t)) as [->|Hne].
    + rewrite lookup_insert_eq. rewrite <- Hv. split; congruence.
    + by rewrite lookup_insert_ne.
  - intros s. destruct (decide (s = t)) as [->|Hne]; [done|].
    rewrite lookup_insert_ne by done. apply Hdecl.
Qed.

(** The visit of a table that is not declared returns no state: nothing is
    marked but declared tables, and [dependencies[table]] is not an own
    property. *)
Lemma visit_undeclared depth t st :
  sortInv st → modelMap !! t = None →
  visit (S depth) dependencies modelMap t st
  = Some (inl (TypeError "dependencies[table] is not iterable")).
Proof.
  intros Hinv Hnone. simpl.
  destruct (visited st !! t) as [m|] eqn:Hmark.
  { destruct (inv_declared _ _ _ Hinv t) as [x Hx]; [by eexists|congruence]. }
  by rewrite Hlinked, Hnone.
Qed.

Lemma visit_undeclared_inr depth t st st' :
  sortInv st → modelMap !! t = None →
  visit depth dependencies modelMap t st ≠ Some (inr st').
Proof.
  intros Hinv Hnone. destruct depth as [|depth]; [done|].
  by rewrite visit_undeclared.
Qed.

(** *** What a visit that returns has done *)


Lemma visitDeps_returns depth deps st st' :
  visitReturns depth →
  sortInv st →
  visitDeps (visit depth dependencies modelMap) modelMap deps st = Some (inr st') →
  sortInv st'
  ∧ (∀ d, d ∈ deps → is_Some (modelMap !! d) → visited st' !! d = Some Visited)
  ∧ extends st st'.
Proof.
  intros Hvisit. revert st. induction deps as [|dep rest IH]; intros st Hinv; simpl.
  - intros [= <-]. split; [done|]. split; [by intros d ?%elem_of_nil|apply extends_refl].
  - destruct (hasModel modelMap dep) eqn:Hhas.
    + destruct (visit depth dependencies modelMap dep st) as [[x|st1]|] eqn:Hv; try done.
      intros Hrest.
      destruct (modelMap !! dep) as [m|] eqn:Hm; [|by apply visit_undeclared_inr in Hv].
      destruct (Hvisit dep st st1 Hinv) as (Hinv1 & Hdone1 & Hext1); [by rewrite Hm|done|].
      destruct (IH st1 Hinv1 Hrest) as (Hinv' & Hdone' & Hext').
      split; [done|]. split; [|by eapply extends_trans].
      intros d [->|Hd]%elem_of_cons Hsome; [|by apply Hdone'].
      by apply (ext_marks _ _ Hext').
    + apply hasModel_false in Hhas as Hm.
      intros Hrest. destruct (IH st Hinv Hrest) as (Hinv' & Hdone' & Hext').
      split; [done|]. split; [|done].
      intros d [->|Hd]%elem_of_cons Hsome; [|by apply Hdone'].
      rewrite Hm in Hsome. by destruct Hsome.
Qed.

Lemma visit_returns depth : visitReturns depth.
Proof.
  induction depth as [|depth IH]; intros t st st' Hinv Hdecl; simpl; [done|].
  destruct (visited st !! t) as [[|]|] eqn:Hmark.
  - done.
  - intros [= <-]. split; [done|]. split; [done|apply extends_refl].
  - destruct (JsObject.get t dependencies) as [deps|] eqn:Hget; [|done].
    set (st1 := {| visited := <[t := Temp]> (visited st); sorted := sorted st |}).
    destruct (visitDeps _ modelMap deps st1) as [[x|st2]|] eqn:Hloop; try done.
    intros [= <-].
    assert (sortInv st1) as Hinv1 by by apply sortInv_start.
    destruct (visitDeps_returns depth deps st1 st2 IH Hinv1 Hloop) as (Hinv2 & Hdone & Hext).
    assert (visited st2 !! t = Some Temp) as Htemp.
    { apply (ext_marks _ _ Hext). simpl. apply lookup_insert_eq. }
    split; [by eapply sortInv_finish|]. split; [apply lookup_insert_eq|].
    destruct Hext as [Hm Ht [new Hs]]. split; simpl.
    + intros s m Hs'. destruct (decide (s = t)) as [->|Hne]; [congruence|].
      rewrite lookup_insert_ne by done. apply Hm. simpl. by rewrite lookup_insert_ne.
    + intros s. destruct (decide (s = t)) as [->|Hne].
      * by rewrite lookup_insert_eq.
      * rewrite lookup_insert_ne by done. intros Hs'%Ht. simpl in Hs'.
        by rewrite lookup_insert_ne in Hs'.
    + exists (new ++ [t]). rewrite Hs. simpl. by rewrite app_assoc.
Qed.

End Visit.

(** ** The visit terminates, and succeeds on an acyclic graph *)

Section VisitTotal.
Variable dependencies : JsObject.obj (list string).
Variable modelMap : gmap string Model.
Hypothesis Hlinked : linked dependencies modelMap.

Local Abbreviation edge := (edge dependencies modelMap).
Local Abbreviation sortInv := (sortInv dependencies modelMap).
Local Abbreviation unmarked := (unmarked dependencies).
Local Abbreviation visitBounded := (visitBounded dependencies modelMap).
Local Abbreviation visitSucceeds := (visitSucceeds dependencies modelMap).


Lemma filter_length_mono {A} (P Q : A → Prop) `{∀ x, Decision (P x)} `{∀ x, Decision (Q x)}
    (l : list A) :
  (∀ x, P x → Q x) → (length (filter P l) ≤ length (filter Q l))%nat.
Proof.
  intros HPQ. induction l as [|x l IH]; [done|].
  rewrite !filter_cons. destruct (decide (P x)) as [HP|HP].
  - rewrite decide_True by auto. simpl. lia.
  - destruct (decide (Q x)); simpl; lia.
Qed.

Lemma unmarked_extends st st' : extends st st' → (unmarked st' ≤ unmarked st)%nat.
Proof.
  intros Hext. apply filter_length_mono. intros k Hnone.
  destruct (visited st !! k) as [m|] eqn:Hk; [|done].
  apply (ext_marks _ _ Hext) in Hk. congruence.
Qed.

Lemma unmarked_start st t m :
  visited st !! t = None → is_Some (modelMap !! t) →
  (unmarked {| visited := <[t := m]> (visited st); sorted := sorted st |} < unmarked st)%nat.
Proof.
  intros Hnone Hdecl. unfold unmarked. simpl.
  assert (t ∈ JsObject.keys dependencies) as Hin.
  { apply JsObjectFacts.elem_of_keys. rewrite Hlinked. destruct Hdecl as [x ->]. by eexists. }
  induction (JsObject.keys dependencies) as [|k l IH]; [by apply elem_of_nil in Hin|].
  rewrite !filter_cons.
  destruct (decide (k = t)) as [->|Hne].
  - rewrite lookup_insert_eq, Hnone. rewrite decide_False by done. rewrite decide_True by done.
    simpl. apply Nat.lt_succ_r. apply filter_length_mono. intros k.
    destruct (decide (k = t)) as [->|Hne]; [by rewrite lookup_insert_eq|].
    by rewrite lookup_insert_ne.
  - rewrite lookup_insert_ne by done.
    apply elem_of_cons in Hin as [->|Hin]; [done|].
    destruct (decide (visited st !! k = None)); simpl; [apply -> Nat.succ_lt_mono|]; by apply IH.
Qed.

Lemma declared_get t : is_Some (modelMap !! t) → is_Some (JsObject.get t dependencies).
Proof. intros [m Hm]. rewrite Hlinked, Hm. by eexists. Qed.

(** *** The bound on the depth is never reached *)


Lemma visitDeps_bounded depth deps st :
  visitBounded depth → sortInv st → (unmarked st < depth)%nat →
  visitDeps (visit depth dependencies modelMap) modelMap deps st ≠ None.
Proof.
  intros Hvisit. revert st. induction deps as [|dep rest IH]; intros st Hinv Hfuel; simpl; [done|].
  destruct (hasModel modelMap dep) eqn:Hhas; [|by apply IH].
  destruct (modelMap !! dep) as [m|] eqn:Hm.
  - destruct (visit depth dependencies modelMap dep st) as [[x|st1]|] eqn:Hv; [done| |].
    + destruct (visit_returns dependencies modelMap Hlinked depth dep st st1 Hinv)
        as (Hinv1 & _ & Hext); [by rewrite Hm|done|].
      apply IH; [done|]. pose proof (unmarked_extends _ _ Hext). lia.
    + exfalso. eapply Hvisit; [exact Hinv|by rewrite Hm|exact Hfuel|exact Hv].
  - destruct depth as [|depth]; [lia|].
    by rewrite (visit_undeclared dependencies modelMap Hlinked).
Qed.

Lemma visit_bounded depth : visitBounded depth.
Proof.
  induction depth as [|depth IH]; intros t st Hinv Hdecl Hfuel; [lia|]. simpl.
  destruct (visited st !! t) as [[|]|] eqn:Hmark; [done|done|].
  destruct (declared_get t Hdecl) as [deps ->].
  set (st1 := {| visited := <[t := Temp]> (visited st); sorted := sorted st |}).
  assert (visitDeps (visit depth dependencies modelMap) modelMap deps st1 ≠ None) as Hloop.
  { apply visitDeps_bounded; [done|by apply sortInv_start|].
    pose proof (unmarked_start st t Temp Hmark Hdecl). unfold st1. lia. }
  by destruct (visitDeps _ modelMap deps st1) as [[x|st2]|].
Qed.

(** *** No cycle, no exception *)

Hypothesis Hacyclic : ∀ t, ¬ tc edge t t.

(** No foreign key names a table that is not declared and that
    [modelMap[dep]] finds in [Object.prototype]. *)
Hypothesis Hplain :
  ∀ t deps d, JsObject.get t dependencies = Some deps → d ∈ deps →
              hasModel modelMap d = true → is_Some (modelMap !! d).


Lemma visitDeps_succeeds depth deps st :
  visitSucceeds depth → sortInv st → (unmarked st < depth)%nat →
  (∀ d, d ∈ deps → hasModel modelMap d = true → is_Some (modelMap !! d)) →
  (∀ s d, visited st !! s = Some Temp → d ∈ deps → is_Some (modelMap !! d) → tc edge s d) →
  ∃ st', visitDeps (visit depth dependencies modelMap) modelMap deps st = Some (inr st').
Proof.
  intros Hvisit. revert st.
  induction deps as [|dep rest IH]; intros st Hinv Hfuel Hown Hreach; simpl.
  - by eexists.
  - assert (∀ d, d ∈ rest → hasModel modelMap d = true → is_Some (modelMap !! d)) as Hown'.
    { intros d Hd. by apply Hown, list_elem_of_further. }
    destruct (hasModel modelMap dep) eqn:Hhas.
    + destruct (Hown dep (list_elem_of_here _ _) Hhas) as [m Hm].
      destruct (Hvisit dep st Hinv) as [st1 Hv]; [by rewrite Hm|done|..].
      { intros s Hs. apply (Hreach s dep Hs); [apply list_elem_of_here|by rewrite Hm]. }
      rewrite Hv.
      destruct (visit_returns dependencies modelMap Hlinked depth dep st st1 Hinv)
        as (Hinv1 & _ & Hext); [by rewrite Hm|done|].
      apply IH; [done| |done|].
      * pose proof (unmarked_extends _ _ Hext). lia.
      * intros s d Hs%(ext_temp _ _ Hext) Hd Hsome.
        apply (Hreach s d Hs); [by apply list_elem_of_further|done].
    + apply IH; [done|done|done|]. intros s d Hs Hd Hsome.
      apply (Hreach s d Hs); [by apply list_elem_of_further|done].
Qed.

Lemma visit_succeeds depth : visitSucceeds depth.
Proof.
  induction depth as [|depth IH]; intros t st Hinv Hdecl Hfuel Hreach; [lia|]. simpl.
  destruct (visited st !! t) as [[|]|] eqn:Hmark.
  - destruct (Hacyclic t). by apply Hreach.
  - by eexists.
  - destruct (declared_get t Hdecl) as [deps Hget]. rewrite Hget.
    set (st1 := {| visited := <[t := Temp]> (visited st); sorted := sorted st |}).
    destruct (visitDeps_succeeds depth deps st1 IH) as [st2 ->]; [| | | |by eexists].
    + by apply sortInv_start.
    + pose proof (unmarked_start st t Temp Hmark Hdecl). unfold st1. lia.
    + intros d. by apply (Hplain t deps).
    + intros s d Hs Hd Hsome.
      assert (edge t d) as Hedge by (by exists deps).
      simpl in Hs. destruct (decide (s = t)) as [->|Hne]; [by apply tc_once|].
      rewrite lookup_insert_ne in Hs by done.
      eapply tc_r; [by apply Hreach|done].
Qed.

End VisitTotal.

(** ** The creation order *)

Section CreationOrder.

Lemma isMarked_true visited t :
  isMarked visited t = true → JsObject.inherited t = false → is_Some (visited !! t).
Proof.
  unfold isMarked. intros Hm Hown. rewrite Hown, orb_false_r in Hm.
  by apply bool_decide_eq_true in Hm.
Qed.

Lemma isMarked_false visited t : isMarked visited t = false → visited !! t = None.
Proof.
  unfold isMarked. intros [Hnone _]%orb_false_iff.
  apply bool_decide_eq_false in Hnone. by apply eq_None_not_Some.
Qed.

Lemma isMarked_extends st st' t :
  extends st st' → isMarked (visited st) t = true → isMarked (visited st') t = true.
Proof.
  unfold isMarked. intros Hext [Hm|Hi]%orb_true_iff; apply orb_true_iff; [left|by right].
  apply bool_decide_eq_true in Hm as [m Hm]. apply bool_decide_eq_true.
  rewrite (ext_marks _ _ Hext _ _ Hm). by eexists.
Qed.

Lemma visitAll_returns dependencies modelMap depth tables st st' :
  linked dependencies modelMap →
  sortInv dependencies modelMap st →
  (∀ t, t ∈ tables → is_Some (modelMap !! t)) →
  visitAll depth dependencies modelMap tables st = Some (inr st') →
  sortInv dependencies modelMap st'
  ∧ (∀ t, t ∈ tables → isMarked (visited st') t = true)
  ∧ extends st st'.
Proof.
  intros Hl. revert st. induction tables as [|t rest IH]; intros st Hinv Hdecl; simpl.
  - intros [= <-]. split; [done|]. split; [by intros t ?%elem_of_nil|apply extends_refl].
  - destruct (isMarked (visited st) t) eqn:Hmark.
    + intros Hrest. destruct (IH st Hinv) as (Hinv' & Hall & Hext); [|done|].
      { intros s Hs. by apply Hdecl, list_elem_of_further. }
      split; [done|]. split; [|done].
      intros s [->|Hs]%elem_of_cons; [|by apply Hall].
      by eapply isMarked_extends.
    + destruct (visit depth dependencies modelMap t st) as [[x|st1]|] eqn:Hv; try done.
      intros Hrest.
      destruct (visit_returns dependencies modelMap Hl depth t st st1 Hinv)
        as (Hinv1 & Hdone & Hext1); [apply Hdecl, list_elem_of_here|done|].
      destruct (IH st1 Hinv1) as (Hinv' & Hall & Hext); [|done|].
      { intros s Hs. by apply Hdecl, list_elem_of_further. }
      split; [done|]. split; [|by eapply extends_trans].
      intros s [->|Hs]%elem_of_cons; [|by apply Hall].
      unfold isMarked. rewrite (ext_marks _ _ Hext _ _ Hdone).
      by rewrite bool_decide_eq_true_2 by by eexists.
Qed.

Lemma visitAll_bounded dependencies modelMap depth tables st :
  linked dependencies modelMap →
  sortInv dependencies modelMap st →
  (∀ t, t ∈ tables → is_Some (modelMap !! t)) →
  (unmarked dependencies st < depth)%nat →
  visitAll depth dependencies modelMap tables st ≠ None.
Proof.
  intros Hl. revert st. induction tables as [|t rest IH]; intros st Hinv Hdecl Hfuel; simpl; [done|].
  assert (∀ s, s ∈ rest → is_Some (modelMap !! s)) as Hrest.
  { intros s Hs. by apply Hdecl, list_elem_of_further. }
  destruct (isMarked (visited st) t) eqn:Hmark; [by apply IH|].
  destruct (visit depth dependencies modelMap t st) as [[x|st1]|] eqn:Hv; [done| |].
  - destruct (visit_returns dependencies modelMap Hl depth t st st1 Hinv)
      as (Hinv1 & _ & Hext); [apply Hdecl, list_elem_of_here|done|].
    apply IH; [done|done|]. pose proof (unmarked_extends dependencies _ _ Hext). lia.
  - exfalso. eapply (visit_bounded dependencies modelMap Hl depth t st);
      [done|apply Hdecl, list_elem_of_here|done|done].
Qed.

Lemma visitAll_succeeds dependencies modelMap depth tables st :
  linked dependencies modelMap →
  (∀ t, ¬ tc (edge dependencies modelMap) t t) →
  (∀ t deps d, JsObject.get t dependencies = Some deps → d ∈ deps →
               hasModel modelMap d = true → is_Some (modelMap !! d)) →
  sortInv dependencies modelMap st →
  (∀ s, visited st !! s ≠ Some Temp) →
  (∀ t, t ∈ tables → is_Some (modelMap !! t)) →
  (unmarked dependencies st < depth)%nat →
  ∃ st', visitAll depth dependencies modelMap tables st = Some (inr st').
Proof.
  intros Hl Hacyclic Hplain. revert st.
  induction tables as [|t rest IH]; intros st Hinv Htemp Hdecl Hfuel; simpl; [by eexists|].
  assert (∀ s, s ∈ rest → is_Some (modelMap !! s)) as Hrest.
  { intros s Hs. by apply Hdecl, list_elem_of_further. }
  destruct (isMarked (visited st) t) eqn:Hmark; [by apply IH|].
  destruct (visit_succeeds dependencies modelMap Hl Hacyclic Hplain depth t st) as [st1 Hv];
    [done|apply Hdecl, list_elem_of_here|done|by intros s ?%Htemp|].
  rewrite Hv.
  destruct (visit_returns dependencies modelMap Hl depth t st st1 Hinv)
    as (Hinv1 & _ & Hext); [apply Hdecl, list_elem_of_here|done|].
  apply IH; [done| |done|].
  - intros s Hs%(ext_temp _ _ Hext). by apply Htemp in Hs.
  - pose proof (unmarked_extends dependencies _ _ Hext). lia.
Qed.

Lemma keys_declared dependencies modelMap t :
  linked dependencies modelMap →
  t ∈ JsObject.keys dependencies ↔ is_Some (modelMap !! t).
Proof.
  intros Hl. rewrite JsObjectFacts.elem_of_keys, Hl. by rewrite fmap_is_Some.
Qed.

Lemma unmarked_empty dependencies :
  unmarked dependencies emptySort = length (JsObject.keys dependencies).
Proof.
  unfold unmarked, emptySort. simpl.
  induction (JsObject.keys dependencies) as [|k l IH]; [done|].
  rewrite filter_cons_True by apply lookup_empty. simpl. by rewrite IH.
Qed.

(** The sort never reaches the bound on the depth of [visit]. *)
Lemma topologicalSort_bounded dependencies modelMap :
  linked dependencies modelMap → topologicalSort dependencies modelMap ≠ None.
Proof.
  intros Hl. unfold topologicalSort.
  assert (visitAll (S (length (JsObject.keys dependencies))) dependencies modelMap
            (JsObject.keys dependencies) emptySort ≠ None) as Hne.
  { apply visitAll_bounded; [done|apply sortInv_empty| |].
    - intros t. by apply keys_declared.
    - rewrite unmarked_empty. lia. }
  by destruct (visitAll _ _ _ _ _) as [[x|st]|].
Qed.

(** What an order that is returned satisfies, whether or not there is a cycle
    elsewhere: a declared table whose name [visited[table]] finds in
    [Object.prototype] is in the order only if another table led to it. *)
Lemma topologicalSort_returns dependencies modelMap order :
  linked dependencies modelMap →
  topologicalSort dependencies modelMap = Some (inr order) →
  NoDup order
  ∧ ((∀ t, t ∈ order → is_Some (modelMap !! t))
     ∧ (∀ t, is_Some (modelMap !! t) → JsObject.inherited t = false → t ∈ order))
  ∧ (∀ l1 t l2, order = l1 ++ t :: l2 → ∀ d, edge dependencies modelMap t d → d ∈ l1).
Proof.
  intros Hl. unfold topologicalSort.
  destruct (visitAll _ _ _ _ _) as [[x|st]|] eqn:Hall; try done.
  intros [= <-].
  destruct (visitAll_returns _ _ _ _ _ _ Hl (sortInv_empty dependencies modelMap)
              (λ t, proj1 (keys_declared _ _ t Hl)) Hall)
    as ([Hv Hn Hd Hdecl] & Hmarked & Hext).
  split; [done|]. split; [|done]. split.
  - intros t Ht%Hv. apply Hdecl. by rewrite Ht.
  - intros t Ht%(keys_declared _ _ _ Hl) Hown. apply Hv.
    (* no table is left in progress *)
    destruct (isMarked_true _ _ (Hmarked t Ht) Hown) as [[|] Hm]; [|done].
    apply (ext_temp _ _ Hext) in Hm. simpl in Hm. by rewrite lookup_empty in Hm.
Qed.

Lemma topologicalSort_succeeds dependencies modelMap :
  linked dependencies modelMap →
  (∀ t, ¬ tc (edge dependencies modelMap) t t) →
  (∀ t deps d, JsObject.get t dependencies = Some deps → d ∈ deps →
               hasModel modelMap d = true → is_Some (modelMap !! d)) →
  ∃ order, topologicalSort dependencies modelMap = Some (inr order).
Proof.
  intros Hl Hacyclic Hplain. unfold topologicalSort.
  destruct (visitAll_succeeds dependencies modelMap (S (length (JsObject.keys dependencies)))
              (JsObject.keys dependencies) emptySort Hl Hacyclic Hplain) as [st ->].
  - apply sortInv_empty.
  - intros s. simpl. by rewrite lookup_empty.
  - intros t. by apply keys_declared.
  - rewrite unmarked_empty. lia.
  - by eexists.
Qed.

End CreationOrder.

(** ** The creation order of the declared tables *)

Section CreationOrderClaim.

Lemma registerModels_elem pending dependencies modelMap t m :
  (registerModels pending dependencies modelMap).2 !! t = Some m →
  modelMap !! t = Some m ∨ m ∈ pending.
Proof.
  revert dependencies modelMap. induction pending as [|model rest IH]; intros deps mm; simpl.
  - by left.
  - intros [Hm|Hm]%IH.
    + apply lookup_insert_Some in Hm as [[_ <-]|[_ Hm]]; [right; apply list_elem_of_here|by left].
    + right. by apply list_elem_of_further.
Qed.

Lemma declaredModel_elem pending t m :
  declaredModel pending t = Some m → m ∈ pending ∧ name m = t.
Proof.
  intros Hm. split.
  - by apply registerModels_elem in Hm as [Hm|Hm].
  - eapply (registerModels_named pending [] ∅); [|exact Hm]. intros t' m'. by rewrite lookup_empty.
Qed.

Lemma pending_linked pending :
  linked (registerModels pending [] ∅).1 (registerModels pending [] ∅).2.
Proof. apply registerModels_linked, linked_empty. Qed.

Lemma references_edge pending t d :
  references pending t d ↔
  edge (registerModels pending [] ∅).1 (registerModels pending [] ∅).2 t d.
Proof.
  unfold references, edge, declaredModel. rewrite (pending_linked pending t).
  split.
  - intros (m & -> & Hd & Hsome). by exists (foreignTables (schemaDict m)).
  - intros (deps & Hget & Hd & Hsome).
    destruct ((registerModels pending [] ∅).2 !! t) as [m|]; [|done].
    injection Hget as <-. by exists m.
Qed.

Lemma acyclic_edge pending :
  acyclic pending →
  ∀ t, ¬ tc (edge (registerModels pending [] ∅).1 (registerModels pending [] ∅).2) t t.
Proof.
  intros Hacyclic t Htc. apply (Hacyclic t).
  eapply tc_congruence with (f := id); [|exact Htc].
  intros x y. by apply references_edge.
Qed.

(** A graph whose edges go down a rank has no cycle. *)
Lemma acyclic_ranked pending (rank : string → nat) :
  (∀ t d, references pending t d → (rank d < rank t)%nat) → acyclic pending.
Proof.
  intros Hrank t Htc.
  assert (∀ x y, tc (references pending) x y → (rank y < rank x)%nat) as Hdown.
  { induction 1 as [x y Hxy|x y z Hxy _ IH]; [by apply Hrank|].
    apply Hrank in Hxy. lia. }
  apply Hdown in Htc. lia.
Qed.

Lemma creationOrder_unfold pending :
  creationOrder pending =
  topologicalSort (registerModels pending [] ∅).1 (registerModels pending [] ∅).2.
Proof. unfold creationOrder. by destruct (registerModels pending [] ∅). Qed.

(** The bound on the depth of [visit] is never reached. *)
Lemma creationOrder_total pending : creationOrder pending ≠ None.
Proof. rewrite creationOrder_unfold. apply topologicalSort_bounded, pending_linked. Qed.

(** The sort reads the models through their signatures only. *)
Lemma hasModel_dom (modelMap modelMap' : gmap string Model) :
  (∀ t, is_Some (modelMap !! t) ↔ is_Some (modelMap' !! t)) →
  ∀ t, hasModel modelMap t = hasModel modelMap' t.
Proof.
  intros Hdom t. unfold hasModel. f_equal. apply bool_decide_ext, Hdom.
Qed.

Lemma visit_modelMap depth dependencies modelMap modelMap' :
  (∀ t, is_Some (modelMap !! t) ↔ is_Some (modelMap' !! t)) →
  ∀ t st, visit depth dependencies modelMap t st = visit depth dependencies modelMap' t st.
Proof.
  intros Hdom. induction depth as [|depth IH]; intros t st; simpl; [done|].
  destruct (visited st !! t) as [[|]|]; try done.
  destruct (JsObject.get t dependencies) as [deps|]; [|done].
  match goal with |- match ?a with _ => _ end = match ?b with _ => _ end =>
    assert (a = b) as ->; [|done] end.
  generalize ({| visited := <[t:=Temp]> (visited st); sorted := sorted st |}).
  induction deps as [|dep rest IHd]; intros st1; simpl; [done|].
  rewrite (hasModel_dom _ _ Hdom dep).
  destruct (hasModel modelMap' dep); [|apply IHd].
  rewrite IH. destruct (visit depth dependencies modelMap' dep st1) as [[x|st2]|]; auto.
Qed.

Lemma visitAll_modelMap depth dependencies modelMap modelMap' tables st :
  (∀ t, is_Some (modelMap !! t) ↔ is_Some (modelMap' !! t)) →
  visitAll depth dependencies modelMap tables st = visitAll depth dependencies modelMap' tables st.
Proof.
  intros Hdom. revert st. induction tables as [|t rest IH]; intros st; simpl; [done|].
  destruct (isMarked (visited st) t); [apply IH|].
  rewrite (visit_modelMap depth dependencies modelMap modelMap' Hdom).
  destruct (visit depth dependencies modelMap' t st) as [[x|st1]|]; auto.
Qed.

Lemma registerModels_signature pending pending' dependencies modelMap modelMap' :
  map signature pending = map signature pending' →
  (∀ t, is_Some (modelMap !! t) ↔ is_Some (modelMap' !! t)) →
  (registerModels pending dependencies modelMap).1
  = (registerModels pending' dependencies modelMap').1
  ∧ ∀ t, is_Some ((registerModels pending dependencies modelMap).2 !! t)
         ↔ is_Some ((registerModels pending' dependencies modelMap').2 !! t).
Proof.
  revert pending' dependencies modelMap modelMap'.
  induction pending as [|m rest IH]; intros [|m' rest'] deps mm mm' Hsig Hdom; simpl in *;
    try done.
  injection Hsig as Hname Hfk Hrest. rewrite Hname, Hfk.
  apply IH; [done|]. intros t. rewrite !lookup_insert_is_Some. by rewrite Hdom.
Qed.

Lemma creationOrder_signature pending pending' :
  map signature pending = map signature pending' →
  creationOrder pending = creationOrder pending'.
Proof.
  intros Hsig. rewrite !creationOrder_unfold.
  destruct (registerModels_signature pending pending' [] ∅ ∅ Hsig) as [Hdeps Hdom]; [done|].
  unfold topologicalSort. rewrite Hdeps.
  by rewrite (visitAll_modelMap _ _ _ _ _ _ Hdom).
Qed.

(** Models with plain names: [modelMap[dep]] is truthy for declared tables
    only, and no declared table has an inherited name. *)
Lemma plainNames_declared pending t :
  plainNames pending → is_Some (declaredModel pending t) → JsObject.inherited t = false.
Proof.
  intros Hplain [m Hm]. apply declaredModel_elem in Hm as [Hin <-]. by apply Hplain.
Qed.

Lemma plainNames_deps pending :
  plainNames pending →
  ∀ t deps d, JsObject.get t (registerModels pending [] ∅).1 = Some deps → d ∈ deps →
              hasModel (registerModels pending [] ∅).2 d = true →
              is_Some ((registerModels pending [] ∅).2 !! d).
Proof.
  intros Hplain t deps d Hget Hd Hhas.
  rewrite (pending_linked pending t) in Hget.
  destruct ((registerModels pending [] ∅).2 !! t) as [m|] eqn:Hm; [|done].
  injection Hget as <-. apply declaredModel_elem in Hm as [Hin _].
  destruct (Hplain m Hin) as [_ Hfk]. unfold hasModel in Hhas.
  rewrite (Hfk d Hd), orb_false_r in Hhas. by apply bool_decide_eq_true in Hhas.
Qed.

(** C3: when the foreign-key graph restricted to the declared tables has no
    cycle, and no model and no foreign key names a table as a property of
    [Object.prototype], the sort returns an order that holds every declared
    table exactly once and places each declared table that is referenced
    before the table that references it; foreign keys to tables that are not
    declared play no part; the order is the same for every registration of
    the same names and foreign keys in the same order; and for two tables
    that reference each other the sort throws the cyclic-dependency error.
    With such a name the graph can be acyclic and the order is not as said:
    the only declared table [constructor] is left out of the order, and a
    foreign key to [toString], which is not declared, makes the sort throw a
    [TypeError]. *)
Theorem creationOrder_topological (pending : list Model) :
  acyclic pending →
  plainNames pending →
  ∃ order,
    creationOrder pending = Some (inr order)
    ∧ NoDup order
    ∧ (∀ t, t ∈ order ↔ is_Some (declaredModel pending t))
    ∧ (∀ t d, references pending t d → before d t order)
    ∧ (∀ pending', map signature pending' = map signature pending →
                   creationOrder pending' = Some (inr order))
    ∧ (¬ acyclic [Scenario.left; Scenario.right]
       ∧ creationOrder [Scenario.left; Scenario.right] = Some (inl CyclicDependency))
    ∧ (acyclic [Scenario.constructorModel]
       ∧ is_Some (declaredModel [Scenario.constructorModel] "constructor")
       ∧ creationOrder [Scenario.constructorModel] = Some (inr []))
    ∧ (acyclic [Scenario.audited]
       ∧ declaredModel [Scenario.audited] "toString" = None
       ∧ creationOrder [Scenario.audited]
         = Some (inl (TypeError "dependencies[table] is not iterable"))).
Proof.
  intros Hacyclic Hplain.
  destruct (topologicalSort_succeeds _ _ (pending_linked pending) (acyclic_edge _ Hacyclic)
              (plainNames_deps _ Hplain))
    as [order Horder].
  destruct (topologicalSort_returns _ _ _ (pending_linked pending) Horder)
    as (Hnodup & [Hmem1 Hmem2] & Hdeps).
  assert (∀ t, t ∈ order ↔ is_Some (declaredModel pending t)) as Hmem.
  { intros t. split; [apply Hmem1|]. intros Ht. apply Hmem2; [done|].
    by eapply plainNames_declared. }
  exists order. rewrite creationOrder_unfold.
  split; [done|]. split; [done|]. split; [done|]. split; [|split; [|split; [|split]]].
  - intros t d Href.
    assert (t ∈ order) as Ht.
    { apply Hmem. destruct Href as (m & Hm & _). by rewrite Hm. }
    apply list_elem_of_split in Ht as (l1 & l3 & ->).
    assert (d ∈ l1) as Hd.
    { eapply Hdeps; [done|]. by apply references_edge. }
    apply list_elem_of_split in Hd as (l0 & l2 & ->).
    exists l0, l2, l3. by rewrite <- app_assoc.
  - intros pending' Hsig. rewrite (creationOrder_signature _ _ Hsig).
    by rewrite creationOrder_unfold.
  - split; [|by vm_compute].
    intros Hno. apply (Hno "left").
    assert (declaredModel [Scenario.left; Scenario.right] "left" = Some Scenario.left) as Hl
      by by vm_compute.
    assert (declaredModel [Scenario.left; Scenario.right] "right" = Some Scenario.right) as Hr
      by by vm_compute.
    eapply tc_l; [|apply tc_once].
    + exists Scenario.left. split; [done|]. split; [|by rewrite Hr].
      vm_compute. apply list_elem_of_here.
    + exists Scenario.right. split; [done|]. split; [|by rewrite Hl].
      vm_compute. apply list_elem_of_here.
  - split; [|split; [by eexists|by vm_compute]].
    apply (acyclic_ranked _ (fun _ => 0%nat)). intros t d (m & Hm & Hd & _).
    apply declaredModel_elem in Hm as [->%list_elem_of_singleton _].
    vm_compute in Hd. by apply elem_of_nil in Hd.
  - split; [|split; [by vm_compute|by vm_compute]].
    apply (acyclic_ranked _ (fun _ => 0%nat)). intros t d (m & Hm & Hd & Hsome).
    apply declaredModel_elem in Hm as [->%list_elem_of_singleton _].
    vm_compute in Hd. apply list_elem_of_singleton in Hd as ->.
    vm_compute in Hsome. by destruct Hsome.
Qed.

End CreationOrderClaim.

(** C3 at [users], which references [roles] and is registered first. *)
Lemma creationOrder_topological_witness :
  creationOrder [Scenario.users; Scenario.roles] = Some (inr ["roles"; "users"])
  ∧ before "roles" "users" ["roles"; "users"].
Proof.
  assert (acyclic [Scenario.users; Scenario.roles]) as Hacyclic.
  { apply (acyclic_ranked _ (fun t => if String.eqb t "users" then 1 else 0)).
    intros t d (m & Hm & Hd & _).
    apply declaredModel_elem in Hm as [Hm <-].
    apply elem_of_cons in Hm as [->|Hm].
    - vm_compute in Hd. apply list_elem_of_singleton in Hd as ->. vm_compute. lia.
    - apply list_elem_of_singleton in Hm as ->. vm_compute in Hd. by apply elem_of_nil in Hd. }
  assert (plainNames [Scenario.users; Scenario.roles]) as Hplain.
  { intros m [->|Hm]%elem_of_cons; [|apply list_elem_of_singleton in Hm as ->].
    - split; [reflexivity|]. intros d Hd. vm_compute in Hd.
      apply list_elem_of_singleton in Hd as ->. reflexivity.
    - split; [reflexivity|]. intros d Hd. vm_compute in Hd. by apply elem_of_nil in Hd. }
  destruct (creationOrder_topological _ Hacyclic Hplain)
    as (order & Horder & _ & _ & Hbefore & _).
  assert (order = ["roles"; "users"]) as ->.
  { vm_compute in Horder. congruence. }
  split; [exact Horder|].
  apply Hbefore. exists Scenario.users. split; [vm_compute; reflexivity|].
  split; [vm_compute; apply list_elem_of_here|].
  exists Scenario.roles. vm_compute. reflexivity.
Defined.

(** ** The order of the structural operations on a table *)

Section Ranks.
Context {Env : Type}.

Local Abbreviation ranked := (ranked (Env:=Env)).


Lemma ranksOf_app table evs1 evs2 :
  ranksOf table (evs1 ++ evs2) = ranksOf table evs1 ++ ranksOf table evs2.
Proof. apply omap_app. Qed.

Lemma silent_ranks table evs :
  Forall (fun ev => structuralRank table ev = None) evs → ranksOf table evs = [].
Proof.
  unfold ranksOf. induction 1 as [|ev evs Hev _ IH]; [done|]. simpl. by rewrite Hev.
Qed.

Lemma ranked_weaken {A} table lo hi lo' hi' (m : M Env A) :
  (lo' ≤ lo)%nat → (hi ≤ hi')%nat → ranked table lo hi m → ranked table lo' hi' m.
Proof.
  intros Hlo Hhi Hm e. destruct (Hm e) as [Hs Hr]. split; [done|].
  eapply Forall_impl; [exact Hr|]. intros r ?. simpl in *. lia.
Qed.

Lemma ranked_silent {A} table lo hi (m : M Env A) :
  always (fun ev => structuralRank table ev = None) m → ranked table lo hi m.
Proof.
  intros Hm e. rewrite (silent_ranks _ _ (Hm e)). split; constructor.
Qed.

Lemma ranked_single {A} table k (m : M Env A) :
  always (fun ev => ∀ r, structuralRank table ev = Some r → r = k) m → ranked table k k m.
Proof.
  intros Hm e.
  assert (Forall (fun r => r = k) (ranksOf table (events_of (m e)))) as Hall.
  { unfold ranksOf. induction (Hm e) as [|ev evs Hev _ IH]; [constructor|]. simpl.
    destruct (structuralRank table ev) as [r|] eqn:Hr; [|done].
    constructor; [by apply Hev|done]. }
  split.
  - induction Hall as [|r rs -> Hrs IH]; constructor; [done|].
    eapply Forall_impl; [exact Hrs|]. intros r ->. done.
  - eapply Forall_impl; [exact Hall|]. intros r ->. simpl. lia.
Qed.

Lemma ranked_bind {A B} table lo mid hi (m : M Env A) (k : A → M Env B) :
  (lo ≤ mid ≤ hi)%nat →
  ranked table lo mid m → (∀ a, ranked table mid hi (k a)) → ranked table lo hi (bind m k).
Proof.
  intros Hmid Hm Hk e. rewrite bind_events, ranksOf_app.
  destruct (Hm e) as [Hs1 Hr1].
  assert (StronglySorted le (ranksOf table (match value_of (m e) with
            | inr a => events_of (k a (env_of (m e))) | inl _ => [] end))
          ∧ Forall (fun r => (mid ≤ r ≤ hi)%nat) (ranksOf table (match value_of (m e) with
            | inr a => events_of (k a (env_of (m e))) | inl _ => [] end))) as [Hs2 Hr2].
  { destruct (value_of (m e)); [split; constructor|apply Hk]. }
  split.
  - apply StronglySorted_app_2; [|done|done].
    intros r1 r2 H1 H2.
    eapply Forall_forall in Hr1; [|exact H1]. eapply Forall_forall in Hr2; [|exact H2].
    simpl in *. lia.
  - apply Forall_app. split; (eapply Forall_impl; [eassumption|]); intros r ?; simpl in *; lia.
Qed.

Lemma ranked_ret {A} table lo hi (a : A) : ranked table lo hi (ret a).
Proof. intros e. simpl. split; constructor. Qed.

Lemma ranked_throw {A} table lo hi (x : exn) : ranked table lo hi (throw (A:=A) x).
Proof. intros e. simpl. split; constructor. Qed.

(** Steps on distinct tables: at most one of them touches [table]. *)
Lemma ranked_forEach table lo hi (xs : list string) (body : string → M Env unit) :
  NoDup xs →
  (∀ x, ranked table lo hi (body x)) →
  (∀ x, x ≠ table → always (fun ev => structuralRank table ev = None) (body x)) →
  ranked table lo hi (forEach xs body).
Proof.
  intros Hnodup Hbody Hother.
  assert (∀ ys, table ∉ ys →
            always (fun ev => structuralRank table ev = None) (forEach ys body)) as Hsilent.
  { intros ys Hys. apply always_forEach_in. intros y Hy. apply Hother. by intros ->. }
  induction Hnodup as [|x xs Hx Hxs IH]; simpl; [apply ranked_ret|].
  intros e. rewrite bind_events, ranksOf_app.
  destruct (decide (x = table)) as [->|Hne].
  - assert (ranksOf table
              match value_of (body table e) with
              | inr a => events_of (forEach xs body (env_of (body table e)))
              | inl _ => []
              end = []) as ->.
    { destruct (value_of (body table e)); [done|]. apply silent_ranks, (Hsilent xs Hx). }
    rewrite app_nil_r. apply Hbody.
  - rewrite (silent_ranks _ _ (Hother x Hne e)). simpl.
    destruct (value_of (body x e)); [split; constructor|apply IH].
Qed.

End Ranks.


(** ** Modify, rename, add, drop *)

Section Ordering.
Context {Env : Type} `{Collaborators Env}.

Lemma during_rank stages table' table ev r :
  during stages table' ev → structuralRank table ev = Some r →
  table = table'
  ∧ ((r = 0 ∧ Modify ∈ stages) ∨ (r = 1 ∧ Rename ∈ stages)
     ∨ (r = 2 ∧ Add ∈ stages) ∨ (r = 3 ∧ Drop ∈ stages)).
Proof.
  unfold during.
  destruct ev as [s o| | | | | | |]; try done.
  destruct s; try done; cbn [stageOf tableOf structuralRank];
    (destruct (String.eqb _ table) eqn:Heq; [|done]);
    apply String.eqb_eq in Heq as ->;
    intros [Hs [?|[= ->]]] [= <-]; try done; (split; [done|]); auto.
Qed.

Lemma during_other stages table' table ev :
  table ≠ table' → during stages table' ev → structuralRank table ev = None.
Proof.
  intros Hne Hd. destruct (structuralRank table ev) as [r|] eqn:Hr; [|done].
  by destruct (during_rank _ _ _ _ _ Hd Hr) as [-> _].
Qed.

Lemma during_unranked stages table' table ev :
  Modify ∉ stages → Rename ∉ stages → Add ∉ stages → Drop ∉ stages →
  during stages table' ev → structuralRank table ev = None.
Proof.
  intros H0 H1 H2 H3 Hd. destruct (structuralRank table ev) as [r|] eqn:Hr; [|done].
  destruct (during_rank _ _ _ _ _ Hd Hr) as [_ Hcases]. naive_solver.
Qed.

Lemma stage_not_in (s : stage) (stages : list stage) :
  bool_decide (s ∈ stages) = false → s ∉ stages.
Proof. by intros Hb%bool_decide_eq_false. Qed.

Lemma syncColumns_ranked table dangerousSync model :
  ranked table 0 3 (syncColumns dangerousSync model).
Proof.
  unfold syncColumns.
  apply (ranked_bind table 0 0 3); [lia| |intros columns].
  { apply ranked_silent, (always_query _ (ShowColumns (name model))). done. }
  apply (ranked_bind table 0 0 3); [lia| |intros _].
  { apply ranked_single. eapply always_impl; [|apply modifyColumns_during].
    intros ev Hd r Hr. destruct (during_rank _ _ _ _ _ Hd Hr) as [_ Hcases].
    destruct Hcases as [[-> _]|[[_ Hin]|[[_ Hin]|[_ Hin]]]]; [done|..];
      by apply stage_not_in in Hin. }
  apply (ranked_bind table 0 1 3); [lia| |intros cols].
  { apply (ranked_weaken table 1 1); [lia|lia|].
    apply ranked_single. eapply always_impl; [|apply renameColumns_during].
    intros ev Hd r Hr. destruct (during_rank _ _ _ _ _ Hd Hr) as [_ Hcases].
    destruct Hcases as [[_ Hin]|[[-> _]|[[_ Hin]|[_ Hin]]]]; [|done|..];
      by apply stage_not_in in Hin. }
  apply (ranked_bind table 1 2 3); [lia| |intros cols'].
  { apply (ranked_weaken table 2 2); [lia|lia|].
    apply ranked_single. eapply always_impl; [|apply addColumns_during].
    intros ev Hd r Hr. destruct (during_rank _ _ _ _ _ Hd Hr) as [_ Hcases].
    destruct Hcases as [[_ Hin]|[[_ Hin]|[[-> _]|[_ Hin]]]]; [| |done|];
      by apply stage_not_in in Hin. }
  apply (ranked_weaken table 3 3); [lia|lia|].
  apply ranked_single. eapply always_impl; [|apply dropColumns_during].
  intros ev Hd r Hr. destruct (during_rank _ _ _ _ _ Hd Hr) as [_ Hcases].
  destruct Hcases as [[_ Hin]|[[_ Hin]|[[_ Hin]|[-> _]]]]; [| | |done];
    by apply stage_not_in in Hin.
Qed.

Lemma syncTable_ranked table dangerousSync model :
  ranked table 0 3 (syncTable dangerousSync model).
Proof.
  unfold syncTable.
  apply (ranked_bind table 0 0 3); [lia| |intros _].
  { apply ranked_silent. eapply always_impl; [|apply ensureTable_during].
    intros ev. by apply during_unranked; apply stage_not_in. }
  apply (ranked_bind table 0 0 3); [lia| |intros _].
  { apply ranked_silent. eapply always_impl; [|apply offerRestore_during].
    intros ev. by apply during_unranked; apply stage_not_in. }
  apply syncColumns_ranked.
Qed.

Lemma syncTable_other table dangerousSync model :
  name model ≠ table →
  always (fun ev => structuralRank table ev = None) (syncTable dangerousSync model).
Proof.
  intros Hne. eapply always_impl; [|apply syncTable_during].
  intros ev. by apply during_other.
Qed.

Lemma syncTables_ranked table dangerousSync modelMap order :
  NoDup order →
  (∀ t m, modelMap !! t = Some m → name m = t) →
  ranked table 0 3 (syncTables dangerousSync modelMap order).
Proof.
  intros Hnodup Hnamed. unfold syncTables. apply ranked_forEach; [done|..].
  - intros t. destruct (modelMap !! t); [apply syncTable_ranked|apply ranked_throw].
  - intros t Hne. destruct (modelMap !! t) as [m|] eqn:Hm; [|apply always_throw].
    apply syncTable_other. by rewrite (Hnamed _ _ Hm).
Qed.

Lemma syncPass_ranked table dangerousSync pending :
  ranked table 0 3 (syncPass dangerousSync pending).
Proof.
  unfold syncPass.
  pose proof (pending_linked pending) as Hlinked.
  pose proof (registerModels_named pending [] ∅) as Hnamed.
  destruct (registerModels pending [] ∅) as [dependencies modelMap]. simpl in *.
  apply (ranked_bind table 0 0 3); [lia| |intros dbTables].
  { by apply ranked_silent, (always_query _ ShowTables). }
  destruct (topologicalSort dependencies modelMap) as [[x|order]|] eqn:Hsort.
  - intros e. simpl. split; constructor.
  - destruct (topologicalSort_returns _ _ _ Hlinked Hsort) as (Hnodup & _ & _).
    assert (ranked table 0 3
              (dropOrphans modelMap dbTables ;; syncTables dangerousSync modelMap order))
      as Hrest.
    { apply (ranked_bind table 0 0 3); [lia| |intros _].
      - apply ranked_silent. eapply always_impl; [|apply dropOrphans_during].
        intros ev [t Hd]. revert Hd. by apply during_unranked; apply stage_not_in.
      - apply syncTables_ranked; [done|]. apply Hnamed. intros t m. by rewrite lookup_empty. }
    intros e. exact (Hrest e).
  - intros e. simpl. split; constructor.
Qed.

Lemma sorted_precedes table evs (P Q : event → Prop) p q :
  StronglySorted le (ranksOf table evs) →
  (∀ ev, P ev → structuralRank table ev = Some p) →
  (∀ ev, Q ev → structuralRank table ev = Some q) →
  (p < q)%nat →
  precedes P Q evs.
Proof.
  intros Hsorted HP HQ Hlt pre x post -> Hx.
  rewrite ranksOf_app in Hsorted. apply StronglySorted_app_1_r in Hsorted.
  unfold ranksOf in Hsorted. simpl in Hsorted. rewrite (HQ _ Hx) in Hsorted.
  apply StronglySorted_inv in Hsorted as [_ Hall].
  apply Forall_forall. intros y Hy HPy.
  assert (p ∈ omap (structuralRank table) post) as Hp.
  { apply list_elem_of_omap. exists y. split; [done|by apply HP]. }
  eapply Forall_forall in Hall; [|exact Hp]. lia.
Qed.


End Ordering.


(** ** The column loops follow their plan *)

Section ColumnLoops.
Context {Env : Type} `{Collaborators Env}.

Lemma includes_elem x xs : includes x xs = true ↔ x ∈ xs.
Proof.
  unfold includes. rewrite existsb_exists. split.
  - intros (y & Hy & ->%String.eqb_eq). by apply list_elem_of_In.
  - intros Hx. exists x. split; [by apply list_elem_of_In|apply String.eqb_refl].
Qed.

Lemma includes_not_elem x xs : includes x xs = false ↔ x ∉ xs.
Proof. rewrite <- includes_elem. by destruct (includes x xs). Qed.

(** One turn of the rename loop that returns. *)
Lemma renameColumn_inr model cols entry e cols' :
  value_of (renameColumn model cols entry e) = inr cols' →
  match renameSource cols entry with
  | Some oldName =>
      cols' = applyRename oldName (fst entry) cols
      ∧ ∃ colDef,
          getColumnDefinition (fst entry) (snd entry) = inr colDef
          ∧ events_of (renameColumn model cols entry e) =
              [ EvQuery (ChangeColumn (name model) oldName (fst entry) colDef) Done;
                EvLog (ColumnRenamed oldName (fst entry) (name model)) ]
  | None => cols' = cols ∧ events_of (renameColumn model cols entry e) = []
  end.
Proof.
  unfold renameColumn, renameSource. destruct entry as [fieldName field]. simpl.
  destruct (oldNameOf field) as [oldName|]; [|by intros [= <-]].
  destruct (includes oldName cols && negb (includes fieldName cols)); [|by intros [= <-]].
  destruct (getColumnDefinition fieldName field) as [x|colDef]; [done|].
  rewrite (bind_run_inr (liftE (inr colDef)) _ e e [] colDef eq_refl).
  cbn [env_of events_of value_of app].
  run_first (query (ChangeColumn (name model) oldName fieldName colDef)) e run_rewrite; [done|].
  intros [= <-]. split; [done|]. by exists colDef.
Qed.

Lemma addColumn_inr model cols entry e cols' :
  value_of (addColumn model cols entry e) = inr cols' →
  if includes (fst entry) cols
  then cols' = cols ∧ events_of (addColumn model cols entry e) = []
  else cols' = cols ++ [fst entry]
       ∧ ∃ colDef,
           getColumnDefinition (fst entry) (snd entry) = inr colDef
           ∧ events_of (addColumn model cols entry e) =
               [ EvQuery (AddColumn (name model) (fst entry) colDef) Done;
                 EvLog (ColumnAdded (fst entry) (name model)) ].
Proof.
  unfold addColumn. destruct entry as [fieldName field]. simpl.
  destruct (includes fieldName cols); [by intros [= <-]|].
  destruct (getColumnDefinition fieldName field) as [x|colDef]; [done|].
  rewrite (bind_run_inr (liftE (inr colDef)) _ e e [] colDef eq_refl).
  cbn [env_of events_of value_of app].
  run_first (query (AddColumn (name model) fieldName colDef)) e run_rewrite; [done|].
  intros [= <-]. split; [done|]. by exists colDef.
Qed.

Lemma dropColumn_inr model col e :
  value_of (dropColumn model col e) = inr tt →
  events_of (dropColumn model col e) =
    if includes col (JsObject.keys (schemaDict model)) then []
    else [ EvQuery (DropColumn (name model) col) Done; EvLog (ColumnDropped col (name model)) ].
Proof.
  unfold dropColumn. destruct (includes col (JsObject.keys (schemaDict model))); [done|].
  by run_first (query (DropColumn (name model) col)) e run_rewrite.
Qed.

(** A completed rename loop. *)
Lemma renameLoop_inr model entries cols e cols' :
  value_of (forEachWith entries (renameColumn model) cols e) = inr cols' →
  cols' = renamedCols entries cols
  ∧ renamesOf (name model) (events_of (forEachWith entries (renameColumn model) cols e))
    = plannedRenames entries cols
  ∧ addsOf (name model) (events_of (forEachWith entries (renameColumn model) cols e)) = []
  ∧ dropsOf (name model) (events_of (forEachWith entries (renameColumn model) cols e)) = []
  ∧ Forall (fun ev => ∀ o n d r, ev = EvQuery (ChangeColumn (name model) o n d) r →
                                 r = Done ∧ ∃ f, (n, f) ∈ entries ∧ getColumnDefinition n f = inr d)
      (events_of (forEachWith entries (renameColumn model) cols e)).
Proof.
  revert cols e. induction entries as [|entry rest IH]; intros cols e; simpl.
  - intros [= <-]. repeat split; constructor.
  - intros Hval. apply bind_inr in Hval as (cols1 & Hstep & Hrest & Hev & _).
    rewrite Hev. unfold renamesOf, addsOf, dropsOf. rewrite !omap_app.
    destruct (IH _ _ Hrest) as (-> & Hren & Hadd & Hdrop & Hall).
    unfold renamesOf, addsOf, dropsOf in Hren, Hadd, Hdrop. rewrite Hren, Hadd, Hdrop.
    assert (Forall (fun ev => ∀ o n d r, ev = EvQuery (ChangeColumn (name model) o n d) r →
              r = Done ∧ ∃ f, (n, f) ∈ entry :: rest ∧ getColumnDefinition n f = inr d)
              (events_of (forEachWith rest (renameColumn model) cols1
                            (env_of (renameColumn model cols entry e))))) as Hall'.
    { eapply Forall_impl; [exact Hall|]. intros ev Hev' o n d r ->.
      destruct (Hev' o n d r eq_refl) as (-> & f & Hf & Hd). split; [done|].
      exists f. split; [by apply list_elem_of_further|done]. }
    apply renameColumn_inr in Hstep.
    destruct (renameSource cols entry) as [oldName|].
    + destruct Hstep as (-> & colDef & Hcol & ->). simpl. rewrite String.eqb_refl.
      repeat split; try done.
      constructor; [|constructor; [done|exact Hall']].
      intros o n d r [= <- <- <- <-]. split; [done|]. exists (snd entry).
      split; [|done]. destruct entry. apply list_elem_of_here.
    + destruct Hstep as (-> & ->). simpl. repeat split; try done.
Qed.

(** A completed add loop. *)
Lemma addLoop_inr model entries cols e cols' :
  value_of (forEachWith entries (addColumn model) cols e) = inr cols' →
  cols' = addedCols entries cols
  ∧ addsOf (name model) (events_of (forEachWith entries (addColumn model) cols e))
    = plannedAdds entries cols
  ∧ renamesOf (name model) (events_of (forEachWith entries (addColumn model) cols e)) = []
  ∧ dropsOf (name model) (events_of (forEachWith entries (addColumn model) cols e)) = [].
Proof.
  revert cols e. induction entries as [|entry rest IH]; intros cols e; simpl.
  - by intros [= <-].
  - intros Hval. apply bind_inr in Hval as (cols1 & Hstep & Hrest & Hev & _).
    rewrite Hev. unfold renamesOf, addsOf, dropsOf. rewrite !omap_app.
    destruct (IH _ _ Hrest) as (-> & Hadd & Hren & Hdrop).
    unfold renamesOf, addsOf, dropsOf in Hren, Hadd, Hdrop. rewrite Hren, Hadd, Hdrop.
    apply addColumn_inr in Hstep.
    destruct (includes (fst entry) cols).
    + by destruct Hstep as (-> & ->).
    + destruct Hstep as (-> & colDef & Hcol & ->). simpl. by rewrite String.eqb_refl.
Qed.

(** A completed drop loop. *)
Lemma dropColumns_inr dangerousSync model cols e :
  value_of (dropColumns dangerousSync model cols e) = inr tt →
  dropsOf (name model) (events_of (dropColumns dangerousSync model cols e))
  = plannedDrops dangerousSync (JsObject.keys (schemaDict model)) cols
  ∧ renamesOf (name model) (events_of (dropColumns dangerousSync model cols e)) = []
  ∧ addsOf (name model) (events_of (dropColumns dangerousSync model cols e)) = [].
Proof.
  unfold dropColumns, plannedDrops. destruct dangerousSync; [|done].
  revert e. induction cols as [|col rest IH]; intros e; simpl; [done|].
  intros Hval. apply bind_inr in Hval as (u & Hstep & Hrest & Hev & _).
  rewrite Hev. unfold renamesOf, addsOf, dropsOf. rewrite !omap_app.
  destruct (IH _ Hrest) as (Hdrop & Hren & Hadd).
  unfold renamesOf, addsOf, dropsOf in Hren, Hadd, Hdrop. rewrite Hren, Hadd, Hdrop.
  destruct u. rewrite (dropColumn_inr _ _ _ Hstep).
  destruct (includes col (JsObject.keys (schemaDict model))); simpl; [done|].
  by rewrite String.eqb_refl.
Qed.

End ColumnLoops.

(** ** A completed synchronisation of the columns *)

Section ColumnSync.
Context {Env : Type} `{Collaborators Env}.

Lemma renameOf_rank table ev p : renameOf table ev = Some p → structuralRank table ev = Some 1.
Proof.
  destruct ev as [s o| | | | | | |]; try done. destruct s; try done. simpl.
  by destruct (String.eqb _ table).
Qed.

Lemma addOf_rank table ev p : addOf table ev = Some p → structuralRank table ev = Some 2.
Proof.
  destruct ev as [s o| | | | | | |]; try done. destruct s; try done. simpl.
  by destruct (String.eqb _ table).
Qed.

Lemma dropOf_rank table ev p : dropOf table ev = Some p → structuralRank table ev = Some 3.
Proof.
  destruct ev as [s o| | | | | | |]; try done. destruct s; try done. simpl.
  by destruct (String.eqb _ table).
Qed.

Lemma omap_nil_Forall {A B} (f : A → option B) (l : list A) :
  Forall (fun x => f x = None) l → omap f l = [].
Proof. induction 1 as [|x l Hx _ IH]; [done|]. cbn. by rewrite Hx. Qed.

(** Events of the stages before the renames carry no rename, add or drop. *)
Lemma early_events table table' evs :
  Forall (during [Inspection; Modify] table') evs →
  renamesOf table evs = [] ∧ addsOf table evs = [] ∧ dropsOf table evs = []
  ∧ Forall (fun ev => ∀ o n d r, ev ≠ EvQuery (ChangeColumn table o n d) r) evs.
Proof.
  intros Hall.
  assert (Forall (fun ev => ∀ r, structuralRank table ev = Some r → r = 0) evs) as Hrank.
  { eapply Forall_impl; [exact Hall|]. intros ev Hev r Hr'.
    destruct (during_rank _ _ _ _ _ Hev Hr') as [_ Hcases].
    destruct Hcases as [[-> _]|[[_ Hin]|[[_ Hin]|[_ Hin]]]]; [done|..];
      by apply stage_not_in in Hin. }
  repeat split.
  - apply omap_nil_Forall. eapply Forall_impl; [exact Hrank|]. intros ev Hev.
    destruct (renameOf table ev) as [p|] eqn:H1; [by apply renameOf_rank, Hev in H1|done].
  - apply omap_nil_Forall. eapply Forall_impl; [exact Hrank|]. intros ev Hev.
    destruct (addOf table ev) as [p|] eqn:H1; [by apply addOf_rank, Hev in H1|done].
  - apply omap_nil_Forall. eapply Forall_impl; [exact Hrank|]. intros ev Hev.
    destruct (dropOf table ev) as [p|] eqn:H1; [by apply dropOf_rank, Hev in H1|done].
  - eapply Forall_impl; [exact Hrank|]. intros ev Hev o n d r ->.
    specialize (Hev 1). simpl in Hev. rewrite String.eqb_refl in Hev. by specialize (Hev eq_refl).
Qed.

Lemma no_rename_event table evs :
  renamesOf table evs = [] →
  Forall (fun ev => ∀ o n d r, ev ≠ EvQuery (ChangeColumn table o n d) r) evs.
Proof.
  unfold renamesOf. induction evs as [|ev evs IH]; [constructor|]. cbn.
  destruct (renameOf table ev) as [p|] eqn:Hp; [done|].
  intros Hrest. constructor; [|by apply IH].
  intros o n d r ->. simpl in Hp. by rewrite String.eqb_refl in Hp.
Qed.

(** What a synchronisation of the columns that completes has issued. *)
Lemma syncColumns_inr dangerousSync model e e1 columns :
  drv_query (ShowColumns (name model)) e = (e1, inr columns) →
  value_of (syncColumns dangerousSync model e) = inr tt →
  let evs := events_of (syncColumns dangerousSync model e) in
  let live := map col_Field columns in
  let renamed := renamedCols (schemaDict model) live in
  let final := addedCols (schemaDict model) renamed in
  renamesOf (name model) evs = plannedRenames (schemaDict model) live
  ∧ addsOf (name model) evs = plannedAdds (schemaDict model) renamed
  ∧ dropsOf (name model) evs
    = plannedDrops dangerousSync (JsObject.keys (schemaDict model)) final
  ∧ Forall (fun ev => ∀ o n d r, ev = EvQuery (ChangeColumn (name model) o n d) r →
                                 r = Done ∧ ∃ f, (n, f) ∈ schemaDict model
                                                 ∧ getColumnDefinition n f = inr d) evs.
Proof.
  intros Hshow Hval. cbv zeta.
  unfold syncColumns in *.
  assert (query (ShowColumns (name model)) e = Run e1 [EvQuery (ShowColumns (name model)) Done]
            (inr columns)) as Hq.
  { unfold query. by rewrite Hshow. }
  rewrite (bind_run_inr _ _ _ _ _ _ Hq) in Hval |- *. cbn [env_of events_of value_of] in *.
  apply bind_inr in Hval as (u & Hmod & Hval & -> & _).
  apply bind_inr in Hval as (cols1 & Hren & Hval & -> & _).
  apply bind_inr in Hval as (cols2 & Hadd & Hdrop & -> & _).
  destruct (early_events (name model) (name model) _
              (modifyColumns_during model columns (map col_Field columns) e1))
    as (Hm1 & Hm2 & Hm3 & Hm4).
  destruct (renameLoop_inr _ _ _ _ _ Hren) as (-> & Hr1 & Hr2 & Hr3 & Hr4).
  destruct (addLoop_inr _ _ _ _ _ Hadd) as (-> & Ha1 & Ha2 & Ha3).
  destruct (dropColumns_inr _ _ _ _ Hdrop) as (Hd1 & Hd2 & Hd3).
  unfold renameColumns, addColumns, JsObject.entries in *.
  unfold renamesOf, addsOf, dropsOf in *. simpl.
  rewrite !omap_app, Hm1, Hm2, Hm3, Hr1, Hr2, Hr3, Ha1, Ha2, Ha3, Hd1, Hd2, Hd3.
  rewrite !app_nil_r. simpl. repeat split; try done.
  constructor; [done|]. repeat apply Forall_app_2.
  - eapply Forall_impl; [exact Hm4|]. intros ev Hne o n d r ->. by destruct (Hne o n d r).
  - exact Hr4.
  - eapply Forall_impl; [apply (no_rename_event (name model)), Ha2|].
    intros ev Hne o n d r ->. by destruct (Hne o n d r).
  - eapply Forall_impl; [apply (no_rename_event (name model)), Hd2|].
    intros ev Hne o n d r ->. by destruct (Hne o n d r).
Qed.

End ColumnSync.

(** ** The plan of the column loops *)

Section Plans.

Implicit Types (entries : list (string * SchemaField)) (cols : list string).

Lemma occurrences_app c l1 l2 : occurrences c (l1 ++ l2) = occurrences c l1 + occurrences c l2.
Proof. unfold occurrences. by rewrite filter_app, length_app. Qed.

Lemma occurrences_zero c cols : c ∉ cols → occurrences c cols = 0.
Proof.
  unfold occurrences. induction cols as [|x l IH]; [done|].
  rewrite not_elem_of_cons. intros [Hne Hc]. rewrite filter_cons_False by done. by apply IH.
Qed.

Lemma occurrences_NoDup c cols : NoDup cols → c ∈ cols → occurrences c cols = 1.
Proof.
  induction 1 as [|x l Hx Hl IH]; [by intros ?%elem_of_nil|].
  unfold occurrences in *. rewrite filter_cons. intros [->|Hc]%elem_of_cons.
  - rewrite decide_True by done. simpl. f_equal. by apply occurrences_zero.
  - rewrite decide_False; [by apply IH|]. by intros ->.
Qed.

Lemma occurrences_applyRename c o n cols :
  c ≠ o → c ≠ n → occurrences c (applyRename o n cols) = occurrences c cols.
Proof.
  intros Ho Hn. unfold occurrences, applyRename.
  induction cols as [|x l IH]; [done|]. simpl. rewrite !filter_cons.
  destruct (String.eqb x o) eqn:Hx.
  - apply String.eqb_eq in Hx as ->. rewrite !decide_False by done. exact IH.
  - destruct (decide (x = c)); simpl; by rewrite IH.
Qed.

Lemma elem_of_applyRename x o n cols :
  x ∈ applyRename o n cols ↔ (x = n ∧ o ∈ cols) ∨ (x ≠ o ∧ x ∈ cols).
Proof.
  unfold applyRename. rewrite list_elem_of_fmap. split.
  - intros (y & -> & Hy). destruct (String.eqb y o) eqn:Hyo.
    + apply String.eqb_eq in Hyo as ->. by left.
    + apply String.eqb_neq in Hyo. by right.
  - intros [[-> Ho]|[Hne Hx]].
    + exists o. by rewrite String.eqb_refl.
    + exists x. apply String.eqb_neq in Hne. by rewrite Hne.
Qed.

Lemma renameSource_Some cols entry o :
  renameSource cols entry = Some o ↔
  oldNameOf (snd entry) = Some o ∧ o ∈ cols ∧ fst entry ∉ cols.
Proof.
  unfold renameSource. destruct (oldNameOf (snd entry)) as [o'|]; [|naive_solver].
  destruct (includes o' cols) eqn:Ho; destruct (includes (fst entry) cols) eqn:Hn; simpl;
    rewrite ?includes_elem, ?includes_not_elem in *; naive_solver.
Qed.

Lemma renamedCols_app before after cols :
  renamedCols (before ++ after) cols = renamedCols after (renamedCols before cols).
Proof.
  revert cols. induction before as [|entry rest IH]; intros cols; simpl; [done|].
  destruct (renameSource cols entry); apply IH.
Qed.

Lemma plannedRenames_app before after cols :
  plannedRenames (before ++ after) cols
  = plannedRenames before cols ++ plannedRenames after (renamedCols before cols).
Proof.
  revert cols. induction before as [|entry rest IH]; intros cols; simpl; [done|].
  destruct (renameSource cols entry); simpl; by rewrite IH.
Qed.

(** A column stays through the renames of fields that do not name it as
    their old name. *)
Lemma renamedCols_keeps x entries cols :
  x ∈ cols →
  (∀ entry, entry ∈ entries → oldNameOf (snd entry) ≠ Some x) →
  x ∈ renamedCols entries cols.
Proof.
  revert cols. induction entries as [|entry rest IH]; intros cols Hx Hold; simpl; [done|].
  assert (∀ e, e ∈ rest → oldNameOf (snd e) ≠ Some x) as Hrest.
  { intros e He. by apply Hold, list_elem_of_further. }
  destruct (renameSource cols entry) as [o|] eqn:Hsrc; [|by apply IH].
  apply IH; [|done]. apply elem_of_applyRename. right. split; [|done].
  intros ->. apply renameSource_Some in Hsrc as [Hsrc _].
  by apply (Hold entry (list_elem_of_here _ _)).
Qed.

(** The renames bring in declared names only. *)
Lemma renamedCols_elem x entries cols :
  x ∈ renamedCols entries cols → x ∈ cols ∨ x ∈ entries.*1.
Proof.
  revert cols. induction entries as [|entry rest IH]; intros cols; simpl; [by left|].
  destruct (renameSource cols entry) as [o|].
  - intros [Hx|Hx]%IH; [|right; by apply list_elem_of_further].
    apply elem_of_applyRename in Hx as [[-> _]|[_ Hx]]; [right; apply list_elem_of_here|by left].
  - intros [Hx|Hx]%IH; [by left|right; by apply list_elem_of_further].
Qed.

Lemma addedCols_elem x entries cols :
  x ∈ addedCols entries cols → x ∈ cols ∨ x ∈ entries.*1.
Proof.
  revert cols. induction entries as [|entry rest IH]; intros cols; simpl; [by left|].
  destruct (includes (fst entry) cols).
  - intros [Hx|Hx]%IH; [by left|right; by apply list_elem_of_further].
  - intros [Hx|Hx]%IH; [|right; by apply list_elem_of_further].
    apply elem_of_app in Hx as [Hx|Hx%list_elem_of_singleton]; [by left|].
    subst x. right. apply list_elem_of_here.
Qed.

(** Only missing columns are added. *)
Lemma plannedAdds_fresh x entries cols : x ∈ plannedAdds entries cols → x ∉ cols.
Proof.
  revert cols. induction entries as [|entry rest IH]; intros cols; simpl;
    [by intros ?%elem_of_nil|].
  destruct (includes (fst entry) cols) eqn:Hin; [apply IH|].
  intros [->|Hx]%elem_of_cons; [by apply includes_not_elem|].
  apply IH in Hx. intros Hc. apply Hx, elem_of_app. by left.
Qed.

Lemma occurrences_renamedCols c entries cols :
  c ∉ entries.*1 →
  (∀ n, (c, n) ∉ plannedRenames entries cols) →
  occurrences c (renamedCols entries cols) = occurrences c cols.
Proof.
  revert cols. induction entries as [|entry rest IH]; intros cols Hc Hsrc; simpl; [done|].
  simpl in Hsrc. rewrite fmap_cons, not_elem_of_cons in Hc. destruct Hc as [Hne Hc].
  destruct (renameSource cols entry) as [o|].
  - rewrite IH; [|done|].
    + apply occurrences_applyRename; [|done]. intros ->. apply (Hsrc (fst entry)), list_elem_of_here.
    + intros n Hn. apply (Hsrc n). by apply list_elem_of_further.
  - by apply IH.
Qed.

Lemma occurrences_addedCols c entries cols :
  c ∉ entries.*1 → occurrences c (addedCols entries cols) = occurrences c cols.
Proof.
  revert cols. induction entries as [|entry rest IH]; intros cols Hc; simpl; [done|].
  rewrite fmap_cons, not_elem_of_cons in Hc. destruct Hc as [Hne Hc].
  destruct (includes (fst entry) cols); [by apply IH|].
  rewrite IH by done. rewrite occurrences_app.
  rewrite (occurrences_zero c [fst entry]); [lia|].
  by intros ->%list_elem_of_singleton.
Qed.

Lemma occurrences_plannedDrops c dangerousSync declared cols :
  c ∉ declared →
  occurrences c (plannedDrops dangerousSync declared cols)
  = if dangerousSync then occurrences c cols else 0.
Proof.
  intros Hc. unfold plannedDrops. destruct dangerousSync; [|done].
  unfold occurrences. induction cols as [|x l IH]; [done|]. simpl.
  destruct (includes x declared) eqn:Hx; simpl; rewrite !filter_cons.
  - apply includes_elem in Hx. rewrite decide_False; [done|]. by intros ->.
  - destruct (decide (x = c)); simpl; by rewrite IH.
Qed.

Lemma elem_of_plannedDrops c dangerousSync declared cols :
  c ∈ plannedDrops dangerousSync declared cols → c ∈ cols ∧ c ∉ declared.
Proof.
  unfold plannedDrops. destruct dangerousSync; [|by intros ?%elem_of_nil].
  rewrite elem_of_List_filter, negb_true_iff, includes_not_elem. done.
Qed.

End Plans.

(** ** Dropped columns and renamed columns *)

Section ColumnClaims.
Context {Env : Type} `{Collaborators Env}.

Lemma renamesOf_elem table evs o n :
  (o, n) ∈ renamesOf table evs →
  ∃ d r, EvQuery (ChangeColumn table o n d) r ∈ evs.
Proof.
  unfold renamesOf. intros (ev & Hev & Hren)%list_elem_of_omap.
  destruct ev as [s r| | | | | | |]; try done. destruct s; try done. simpl in Hren.
  destruct (String.eqb table0 table) eqn:Ht; [|done].
  apply String.eqb_eq in Ht as ->. injection Hren as -> ->. eauto.
Qed.

Lemma addsOf_elem table evs n d r :
  EvQuery (AddColumn table n d) r ∈ evs → n ∈ addsOf table evs.
Proof.
  intros Hev. apply list_elem_of_omap. eexists. split; [exact Hev|].
  simpl. by rewrite String.eqb_refl.
Qed.

Lemma dropsOf_elem table evs c r :
  EvQuery (DropColumn table c) r ∈ evs → c ∈ dropsOf table evs.
Proof.
  intros Hev. apply list_elem_of_omap. eexists. split; [exact Hev|].
  simpl. by rewrite String.eqb_refl.
Qed.

(** C6: in a synchronisation of the columns of a table that completes, a
    live column whose name is not among the declared field names and that is
    not the source of a rename of the pass is dropped exactly once when
    [dangerousSync] is true, and no DROP COLUMN is issued for it when
    [dangerousSync] is false. *)
Theorem undeclared_column_dropped (dangerousSync : bool) (model : Model) (e e1 : Env)
    (columns : list ColumnInfo) (col : string) :
  drv_query (ShowColumns (name model)) e = (e1, inr columns) →
  value_of (syncColumns dangerousSync model e) = inr tt →
  NoDup (map col_Field columns) →
  col ∈ map col_Field columns →
  col ∉ JsObject.keys (schemaDict model) →
  (∀ fieldName colDef r,
     EvQuery (ChangeColumn (name model) col fieldName colDef) r
     ∉ events_of (syncColumns dangerousSync model e)) →
  occurrences col (dropsOf (name model) (events_of (syncColumns dangerousSync model e)))
  = if dangerousSync then 1 else 0.
Proof.
  intros Hshow Hval Hnodup Hlive Hundeclared Hsource.
  destruct (syncColumns_inr _ _ _ _ _ Hshow Hval) as (Hren & _ & Hdrop & _).
  cbv zeta in *. rewrite Hdrop, occurrences_plannedDrops by done.
  destruct dangerousSync; [|done].
  rewrite occurrences_addedCols by done.
  rewrite occurrences_renamedCols; [by apply occurrences_NoDup|done|].
  intros n Hn. rewrite <- Hren in Hn.
  apply renamesOf_elem in Hn as (d & r & Hn). by apply Hsource in Hn.
Qed.

Lemma entries_functional (entries : list (string * SchemaField)) k v v' :
  NoDup entries.*1 → (k, v) ∈ entries → (k, v') ∈ entries → v = v'.
Proof.
  induction entries as [|[k0 v0] rest IH]; [by intros _ ?%elem_of_nil|].
  rewrite fmap_cons. intros [Hk Hrest]%NoDup_cons.
  intros [[= -> ->]|H1]%elem_of_cons [[= <-]|H2]%elem_of_cons; try done.
  - destruct Hk. apply list_elem_of_fmap. by exists (k0, v').
  - destruct Hk. apply list_elem_of_fmap. by exists (k, v).
  - by apply IH.
Qed.

(** C7, amended: for a declared field that has an old name, when a live
    column with that old name exists and no live column with the new name
    exists, and when no field enumerated before it has the same old name and
    no field enumerated after it has this field's name as its old name, a
    synchronisation of the columns that completes issues a CHANGE COLUMN of
    the old column to the new name, and issues neither an ADD of the new
    column nor a DROP of the old column. *)
Theorem rename_takes_precedence (dangerousSync : bool) (model : Model) (e e1 : Env)
    (columns : list ColumnInfo) (earlier later : list (string * SchemaField))
    (fieldName oldName : string) (field : SchemaField) :
  drv_query (ShowColumns (name model)) e = (e1, inr columns) →
  value_of (syncColumns dangerousSync model e) = inr tt →
  NoDup (JsObject.keys (schemaDict model)) →
  schemaDict model = earlier ++ (fieldName, field) :: later →
  oldNameOf field = Some oldName →
  oldName ∈ map col_Field columns →
  fieldName ∉ map col_Field columns →
  (∀ entry, entry ∈ earlier → oldNameOf (snd entry) ≠ Some oldName) →
  (∀ entry, entry ∈ later → oldNameOf (snd entry) ≠ Some fieldName) →
  let evs := events_of (syncColumns dangerousSync model e) in
  (∃ colDef, getColumnDefinition fieldName field = inr colDef
             ∧ EvQuery (ChangeColumn (name model) oldName fieldName colDef) Done ∈ evs)
  ∧ (∀ colDef r, EvQuery (AddColumn (name model) fieldName colDef) r ∉ evs)
  ∧ (∀ r, EvQuery (DropColumn (name model) oldName) r ∉ evs).
Proof.
  intros Hshow Hval Hkeys Hsplit Hold Ho Hn Hearlier Hlater evs.
  destruct (syncColumns_inr _ _ _ _ _ Hshow Hval) as (Hren & Hadd & Hdrop & Hall).
  cbv zeta in *. fold evs in Hren, Hadd, Hdrop, Hall.
  set (live := map col_Field columns) in *.
  change (JsObject.keys (schemaDict model)) with ((schemaDict model).*1) in *.
  rewrite Hsplit in *.
  pose proof Hkeys as Hfun.
  rewrite fmap_app, fmap_cons in Hkeys. simpl in Hkeys.
  apply NoDup_app in Hkeys as (_ & Hdisj & [Hfresh _]%NoDup_cons).
  set (atTurn := renamedCols earlier live) in *.
  assert (oldName ∈ atTurn) as Ho' by by apply renamedCols_keeps.
  assert (fieldName ∉ atTurn) as Hn'.
  { intros [Hin|Hin]%renamedCols_elem; [done|]. apply (Hdisj _ Hin), list_elem_of_here. }
  assert (renameSource atTurn (fieldName, field) = Some oldName) as Hsrc.
  { by apply renameSource_Some. }
  assert (oldName ≠ fieldName) as Hne by (by intros ->).
  set (afterTurn := applyRename oldName fieldName atTurn) in *.
  assert (fieldName ∈ afterTurn) as Hn''.
  { apply elem_of_applyRename. by left. }
  assert (oldName ∉ afterTurn) as Ho''.
  { intros [[? _]|[? _]]%elem_of_applyRename; done. }
  assert (renamedCols (earlier ++ (fieldName, field) :: later) live
          = renamedCols later afterTurn) as Hrenamed.
  { rewrite renamedCols_app. simpl. fold atTurn. by rewrite Hsrc. }
  rewrite Hrenamed in *.
  split; [|split].
  - assert ((oldName, fieldName) ∈ renamesOf (name model) evs) as Hin.
    { rewrite Hren, plannedRenames_app. apply elem_of_app. right. simpl. fold atTurn.
      rewrite Hsrc. apply list_elem_of_here. }
    apply renamesOf_elem in Hin as (d & r & Hin).
    eapply Forall_forall in Hall; [|exact Hin].
    destruct (Hall _ _ _ _ eq_refl) as (-> & f & Hf & Hd).
    assert (f = field) as ->.
    { eapply entries_functional; [exact Hfun|exact Hf|].
      apply elem_of_app. right. apply list_elem_of_here. }
    by exists d.
  - intros d r Hin%addsOf_elem. rewrite Hadd in Hin.
    apply plannedAdds_fresh in Hin. apply Hin. by apply renamedCols_keeps.
  - intros r Hin%dropsOf_elem. rewrite Hdrop in Hin.
    apply elem_of_plannedDrops in Hin as [Hin Hundeclared].
    apply addedCols_elem in Hin as [Hin|Hin]; [|done].
    apply renamedCols_elem in Hin as [Hin|Hin]; [done|].
    apply Hundeclared. rewrite fmap_app, fmap_cons. apply elem_of_app. right.
    by apply list_elem_of_further.
Qed.

End ColumnClaims.

(** C6 in the test double: [old] is live and not declared; with
    [dangerousSync] it is dropped once. *)
Lemma undeclared_column_dropped_witness :
  occurrences "old"
    (dropsOf "staff" (events_of (syncColumns true Scenario.staff Scenario.staffTable))) = 1.
Proof.
  assert (events_of (syncColumns true Scenario.staff Scenario.staffTable)
          = [EvQuery (ShowColumns "staff") Done; EvQuery (ShowIndex "staff" "id") Done;
             EvLog (RemoveOldNameHint "role" "staff");
             EvQuery (ChangeColumn "staff" "rang" "role" "role VARCHAR(255)") Done;
             EvLog (ColumnRenamed "rang" "role" "staff");
             EvQuery (DropColumn "staff" "old") Done;
             EvLog (ColumnDropped "old" "staff")]) as Hevents
    by (vm_compute; reflexivity).
  apply (undeclared_column_dropped true Scenario.staff Scenario.staffTable
           Scenario.staffTable
           [Mock.column "id" "int(11)"; Mock.column "rang" "varchar(255)";
            Mock.column "old" "text"] "old").
  - reflexivity.
  - vm_compute. reflexivity.
  - simpl. repeat (apply NoDup_cons; split; [set_solver|]). apply NoDup_nil_2.
  - simpl. set_solver.
  - simpl. set_solver.
  - intros fieldName colDef r. rewrite Hevents. set_solver.
Defined.

(** C7, amended, in the test double: [role] was [rang]. *)
Lemma rename_takes_precedence_witness :
  let evs := events_of (syncColumns true Scenario.staff Scenario.staffTable) in
  (∃ colDef, getColumnDefinition "role" (Mock.renamedFrom "rang" (Mock.field "String"))
             = inr colDef
             ∧ EvQuery (ChangeColumn "staff" "rang" "role" colDef) Done ∈ evs)
  ∧ (∀ colDef r, EvQuery (AddColumn "staff" "role" colDef) r ∉ evs)
  ∧ (∀ r, EvQuery (DropColumn "staff" "rang") r ∉ evs).
Proof.
  apply (rename_takes_precedence true Scenario.staff Scenario.staffTable
           Scenario.staffTable
           [Mock.column "id" "int(11)"; Mock.column "rang" "varchar(255)";
            Mock.column "old" "text"]
           [("id", Mock.field "Number")] [] "role" "rang").
  - reflexivity.
  - vm_compute. reflexivity.
  - simpl. repeat (apply NoDup_cons; split; [set_solver|]). apply NoDup_nil_2.
  - reflexivity.
  - reflexivity.
  - simpl. set_solver.
  - simpl. set_solver.
  - intros entry ->%list_elem_of_singleton. done.
  - intros entry ?%elem_of_nil. done.
Defined.

(** C7 as stated does not hold: of two declared fields with the same old
    name, the second is added, not renamed. *)
Lemma rename_shared_old_name_counterexample :
  ¬ (∀ (Env : Type) (C : Collaborators Env) (dangerousSync : bool) (model : Model)
       (e e1 : Env) (columns : list ColumnInfo) (fieldName oldName : string)
       (field : SchemaField),
       drv_query (ShowColumns (name model)) e = (e1, inr columns) →
       value_of (syncColumns dangerousSync model e) = inr tt →
       (fieldName, field) ∈ schemaDict model →
       oldNameOf field = Some oldName →
       oldName ∈ map col_Field columns →
       fieldName ∉ map col_Field columns →
       let evs := events_of (syncColumns dangerousSync model e) in
       (∃ colDef r, EvQuery (ChangeColumn (name model) oldName fieldName colDef) r ∈ evs)
       ∧ (∀ colDef r, EvQuery (AddColumn (name model) fieldName colDef) r ∉ evs)
       ∧ (∀ r, EvQuery (DropColumn (name model) oldName) r ∉ evs)).
Proof.
  intros Hclaim.
  destruct (Hclaim _ _ false Scenario.staffTwice Scenario.staffTable Scenario.staffTable
              [Mock.column "id" "int(11)"; Mock.column "rang" "varchar(255)";
               Mock.column "old" "text"]
              "grade" "rang" (Mock.renamedFrom "rang" (Mock.field "String")))
    as (_ & Hadd & _).
  - reflexivity.
  - vm_compute. reflexivity.
  - simpl. set_solver.
  - reflexivity.
  - simpl. set_solver.
  - simpl. set_solver.
  - apply (Hadd "grade VARCHAR(255)" Done). vm_compute.
    do 5 apply list_elem_of_further. apply list_elem_of_here.
Qed.

(** ** A reserved table name *)

Section Reserved.
Context {Env : Type} `{Collaborators Env}.

(** C9: for a model whose table name is a reserved word and whose columns
    compile, [generateCreateTableStatement] reports the invalid name and
    returns no statement, and the creation step then calls the driver with
    it: the first two events of the step are the report and the query. *)
Theorem reserved_name_reaches_driver (model : Model) (e : Env) (columns : list string) :
  ifReservedKeywords (name model) = true →
  mapE createColumn (JsObject.entries (schemaDict model)) = inr columns →
  ∃ r post,
    events_of (ensureTable model e)
    = EvError InvalidTableName :: EvQuery (CreateTable (name model) None) r :: post.
Proof.
  intros Hreserved Hcolumns.
  assert (generateCreateTableStatement model e
          = Run e [EvError InvalidTableName] (inr None)) as Hgen.
  { unfold generateCreateTableStatement, bind, liftE, error, emit, ret.
    rewrite Hcolumns. cbn [env_of events_of value_of app]. by rewrite Hreserved. }
  unfold ensureTable.
  destruct (query_run (CreateTable (name model) None) e)
    as [(e' & reason & Hq)|(e' & rows & _ & Hq)].
  - erewrite tryCatch_run_inl.
    2:{ erewrite bind_run_inr by exact Hgen. erewrite bind_run_inl by exact Hq.
        cbn [env_of events_of value_of app]. reflexivity. }
    cbn [env_of events_of value_of app]. eauto.
  - erewrite tryCatch_run_inr.
    2:{ erewrite bind_run_inr by exact Hgen. erewrite bind_run_inr by exact Hq.
        cbn [env_of events_of value_of app]. reflexivity. }
    cbn [env_of events_of value_of app]. eauto.
Qed.

End Reserved.

(** C9 in the test double: the model [select]. *)
Lemma reserved_name_reaches_driver_witness :
  ∃ r post,
    events_of (ensureTable Scenario.reserved (Mock.database []))
    = EvError InvalidTableName :: EvQuery (CreateTable "select" None) r :: post.
Proof.
  apply (reserved_name_reaches_driver Scenario.reserved (Mock.database []) ["id INT(255)"]).
  - vm_compute. reflexivity.
  - vm_compute. reflexivity.
Defined.

(** * Further properties of the code *)

(** ** What a pass never drops *)

Section Safety.
Context {Env : Type} `{Collaborators Env}.

(** X1: without [dangerousSync] a pass never makes the call of its drop
    loop, [ALTER TABLE t DROP COLUMN c], for any table and column and
    whatever the collaborators answer.  The property is about the calls the
    pass makes, not about the text of its other statements: what is replayed
    from a backup file is the content of the file, and the column clauses
    come from the schema. *)
Theorem no_column_dropped_without_dangerousSync (w : world) (table col : string)
    (r : outcome) :
  EvQuery (DropColumn table col) r ∉ (syncAllTables false w).1.2.
Proof.
  rewrite syncAllTables_events. intros Hin.
  assert (always (fun ev => stageOf ev ≠ Some Drop) (syncPass false (pendingModels w))) as Hnever.
  { apply syncPass_always.
    - done.
    - intros dbTables. eapply always_impl; [|apply dropOrphans_during].
      intros ev [t Hev] Hs. by destruct (during_stage _ _ _ _ Hev Hs) as [?%list_elem_of_singleton _].
    - intros t model _. unfold syncTable. apply always_bind.
      { eapply always_impl; [|apply ensureTable_during].
        intros ev Hev Hs. by destruct (during_stage _ _ _ _ Hev Hs) as [?%list_elem_of_singleton _]. }
      intros _. apply always_bind.
      { eapply always_impl; [|apply offerRestore_during].
        intros ev Hev Hs. by destruct (during_stage _ _ _ _ Hev Hs) as [?%list_elem_of_singleton _]. }
      intros _. unfold syncColumns. apply always_bind.
      { by apply (always_query _ (ShowColumns (name model))). }
      intros columns. apply always_bind.
      { eapply always_impl; [|apply modifyColumns_during].
        intros ev Hev Hs. destruct (during_stage _ _ _ _ Hev Hs) as [Hin' _]. set_solver. }
      intros _. apply always_bind.
      { eapply always_impl; [|apply renameColumns_during].
        intros ev Hev Hs. by destruct (during_stage _ _ _ _ Hev Hs) as [?%list_elem_of_singleton _]. }
      intros cols. apply always_bind.
      { eapply always_impl; [|apply addColumns_during].
        intros ev Hev Hs. by destruct (during_stage _ _ _ _ Hev Hs) as [?%list_elem_of_singleton _]. }
      intros cols'. apply always_ret. }
  specialize (Hnever (env w)). eapply Forall_forall in Hnever; [|exact Hin]. by apply Hnever.
Qed.

Lemma declared_named pending t model :
  (registerModels pending [] ∅).2 !! t = Some model → name model = t.
Proof. apply registerModels_named. intros t' m'. by rewrite lookup_empty. Qed.

(** X2: a pass never makes the call of its orphan loop,
    [DROP TABLE IF EXISTS t], for the table of a pending model.  The
    property is about the calls the pass makes, not about the text replayed
    from a backup file, which is the content of the file. *)
Theorem declared_tables_never_dropped (dangerousSync : bool) (w : world) (model : Model)
    (r : outcome) :
  model ∈ pendingModels w →
  EvQuery (DropTable (name model)) r ∉ (syncAllTables dangerousSync w).1.2.
Proof.
  intros Hmodel. rewrite syncAllTables_events. intros Hin.
  pose proof (dropTable_falsy dangerousSync (pendingModels w) (env w)) as Hnever.
  eapply Forall_forall in Hnever; [|exact Hin].
  specialize (Hnever _ _ eq_refl). apply hasModel_false in Hnever.
  apply registerModels_modelMap in Hnever as [_ Hnone]. by apply (Hnone model).
Qed.

Lemma dropColumns_undeclared dangerousSync model existingCols :
  always (fun ev => ∀ t c r, ev = EvQuery (DropColumn t c) r →
                             t = name model ∧ c ∉ JsObject.keys (schemaDict model))
    (dropColumns dangerousSync model existingCols).
Proof.
  unfold dropColumns. destruct dangerousSync; [|apply always_ret].
  apply always_forEach. intros col. unfold dropColumn.
  destruct (includes col _) eqn:Hdecl; [apply always_ret|].
  apply includes_not_elem in Hdecl.
  apply always_bind.
  - apply (always_query _ (DropColumn (name model) col)). by intros r t c r' [= <- <-].
  - intros _. by apply always_emit.
Qed.

(** X3: every call of the drop loop, [ALTER TABLE t DROP COLUMN c], that a
    pass makes is against the table of a pending model and names a column
    that is not a field of that model's schema.  The property is about the
    calls the pass makes, not about the text of its other statements: what
    is replayed from a backup file is the content of the file, and the
    column clauses come from the schema. *)
Theorem declared_columns_never_dropped (dangerousSync : bool) (w : world)
    (table col : string) (r : outcome) :
  EvQuery (DropColumn table col) r ∈ (syncAllTables dangerousSync w).1.2 →
  ∃ model, declaredModel (pendingModels w) table = Some model
           ∧ col ∉ JsObject.keys (schemaDict model).
Proof.
  rewrite syncAllTables_events. intros Hin.
  assert (always (fun ev => ∀ t c r, ev = EvQuery (DropColumn t c) r →
                    ∃ model, declaredModel (pendingModels w) t = Some model
                             ∧ c ∉ JsObject.keys (schemaDict model))
            (syncPass dangerousSync (pendingModels w))) as Honly.
  { apply syncPass_always.
    - done.
    - intros dbTables. eapply always_impl; [|apply dropOrphans_during].
      intros ev [t Hev] t' c r' ->.
      by destruct (during_stage _ _ _ _ Hev eq_refl) as [?%list_elem_of_singleton _].
    - intros t model Hm.
      assert (∀ ev, stageOf ev ≠ Some Drop →
                ∀ t c r, ev = EvQuery (DropColumn t c) r →
                  ∃ model, declaredModel (pendingModels w) t = Some model
                           ∧ c ∉ JsObject.keys (schemaDict model)) as Hother.
      { by intros ev Hs t' c r' ->. }
      unfold syncTable. apply always_bind.
      { eapply always_impl; [|apply ensureTable_during].
        intros ev Hev. apply Hother. intros Hs.
        by destruct (during_stage _ _ _ _ Hev Hs) as [?%list_elem_of_singleton _]. }
      intros _. apply always_bind.
      { eapply always_impl; [|apply offerRestore_during].
        intros ev Hev. apply Hother. intros Hs.
        by destruct (during_stage _ _ _ _ Hev Hs) as [?%list_elem_of_singleton _]. }
      intros _. unfold syncColumns. apply always_bind.
      { by apply (always_query _ (ShowColumns (name model))). }
      intros columns. apply always_bind.
      { eapply always_impl; [|apply modifyColumns_during].
        intros ev Hev. apply Hother. intros Hs.
        destruct (during_stage _ _ _ _ Hev Hs) as [Hin' _]. set_solver. }
      intros _. apply always_bind.
      { eapply always_impl; [|apply renameColumns_during].
        intros ev Hev. apply Hother. intros Hs.
        by destruct (during_stage _ _ _ _ Hev Hs) as [?%list_elem_of_singleton _]. }
      intros cols. apply always_bind.
      { eapply always_impl; [|apply addColumns_during].
        intros ev Hev. apply Hother. intros Hs.
        by destruct (during_stage _ _ _ _ Hev Hs) as [?%list_elem_of_singleton _]. }
      intros cols'. eapply always_impl; [|apply dropColumns_undeclared].
      intros ev Hev t' c r' Heq. destruct (Hev _ _ _ Heq) as [-> Hc].
      exists model. split; [|done]. unfold declaredModel.
      by rewrite (declared_named _ _ _ Hm). }
  specialize (Honly (env w)). eapply Forall_forall in Honly; [|exact Hin]. by eapply Honly.
Qed.

End Safety.

(** X2 in the test double: [user] is declared and the orphan loop does not
    drop it. *)
Lemma declared_tables_never_dropped_witness :
  EvQuery (DropTable "user") Done ∉ (syncAllTables false Scenario.fullDisk).1.2.
Proof.
  apply (declared_tables_never_dropped false Scenario.fullDisk Scenario.user Done).
  apply list_elem_of_here.
Defined.

(** X3 in the test double: the column [old] of [staff] is dropped, and it is
    not a field of the model. *)
Lemma declared_columns_never_dropped_witness :
  ∃ model, declaredModel [Scenario.staff] "staff" = Some model
           ∧ "old" ∉ JsObject.keys (schemaDict model).
Proof.
  apply (declared_columns_never_dropped true Example.staffWorld "staff" "old" Done).
  vm_compute. repeat first [apply list_elem_of_here|apply list_elem_of_further].
Defined.

(** ** Cycles among the declared tables *)

Section SortErrors.
Variable dependencies : JsObject.obj (list string).
Variable modelMap : gmap string Model.
Hypothesis Hlinked : linked dependencies modelMap.

(** No foreign key names a table that is not declared and that
    [modelMap[dep]] finds in [Object.prototype]; no declared table has a name
    that [visited[table]] finds there. *)
Hypothesis Hplain :
  ∀ t deps d, JsObject.get t dependencies = Some deps → d ∈ deps →
              hasModel modelMap d = true → is_Some (modelMap !! d).
Hypothesis Hown : ∀ t, is_Some (modelMap !! t) → JsObject.inherited t = false.

Lemma visitDeps_error (visitTable : string → sortState → bounded sortState) deps st x :
  (∀ t st x, is_Some (modelMap !! t) → visitTable t st = Some (inl x) → x = CyclicDependency) →
  (∀ d, d ∈ deps → hasModel modelMap d = true → is_Some (modelMap !! d)) →
  visitDeps visitTable modelMap deps st = Some (inl x) → x = CyclicDependency.
Proof.
  intros Hvisit. revert st. induction deps as [|dep rest IH]; intros st Hdeps; simpl; [done|].
  assert (∀ d, d ∈ rest → hasModel modelMap d = true → is_Some (modelMap !! d)) as Hrest.
  { intros d Hd. by apply Hdeps, list_elem_of_further. }
  destruct (hasModel modelMap dep) eqn:Hhas; [|by apply IH].
  destruct (visitTable dep st) as [[y|st1]|] eqn:Hv; [|by apply IH|done].
  intros [= <-]. eapply Hvisit; [|exact Hv]. apply Hdeps; [apply list_elem_of_here|done].
Qed.

Lemma visit_error depth t st x :
  is_Some (modelMap !! t) →
  visit depth dependencies modelMap t st = Some (inl x) → x = CyclicDependency.
Proof.
  revert t st x. induction depth as [|depth IH]; intros t st x Hdecl; simpl; [done|].
  destruct (visited st !! t) as [[|]|]; [by intros [= <-]|done|].
  destruct (JsObject.get t dependencies) as [deps|] eqn:Hget.
  - destruct (visitDeps _ modelMap deps _) as [[y|st2]|] eqn:Hloop; [|done|done].
    intros [= <-]. eapply visitDeps_error; [|intros d; by apply (Hplain t deps d)|exact Hloop].
    apply IH.
  - destruct Hdecl as [m Hm]. by rewrite Hlinked, Hm in Hget.
Qed.

Lemma visitAll_error depth tables st x :
  (∀ t, t ∈ tables → is_Some (modelMap !! t)) →
  visitAll depth dependencies modelMap tables st = Some (inl x) → x = CyclicDependency.
Proof.
  revert st. induction tables as [|t rest IH]; intros st Hdecl; simpl; [done|].
  assert (∀ s, s ∈ rest → is_Some (modelMap !! s)) as Hrest.
  { intros s Hs. by apply Hdecl, list_elem_of_further. }
  destruct (isMarked (visited st) t); [by apply IH|].
  destruct (visit depth dependencies modelMap t st) as [[y|st1]|] eqn:Hv; [|by apply IH|done].
  intros [= <-]. eapply visit_error; [|exact Hv]. apply Hdecl, list_elem_of_here.
Qed.

(** The only exception of the sort is the cyclic-dependency error. *)
Lemma topologicalSort_error x :
  topologicalSort dependencies modelMap = Some (inl x) → x = CyclicDependency.
Proof.
  unfold topologicalSort.
  destruct (visitAll _ _ _ _ _) as [[y|st]|] eqn:Hall; [|done|done].
  intros [= <-]. eapply visitAll_error; [|exact Hall].
  intros t. by apply keys_declared.
Qed.

(** An order that is returned shows that there is no cycle. *)
Lemma topologicalSort_acyclic order :
  topologicalSort dependencies modelMap = Some (inr order) →
  ∀ t, ¬ tc (edge dependencies modelMap) t t.
Proof.
  intros Horder.
  destruct (topologicalSort_returns _ _ _ Hlinked Horder) as (Hnodup & [_ Hmem] & Hdeps).
  assert (∀ t d, tc (edge dependencies modelMap) t d →
            ∀ l1 l2, order = l1 ++ t :: l2 → d ∈ l1) as Hbefore.
  { induction 1 as [t d Htd|t y d Hty _ IH]; intros l1 l2 Heq.
    - by eapply Hdeps.
    - assert (y ∈ l1) as Hy by by eapply Hdeps.
      apply list_elem_of_split in Hy as (a & b & ->).
      rewrite <- app_assoc in Heq. simpl in Heq.
      apply elem_of_app. left. by eapply IH. }
  intros t Htc.
  assert (is_Some (modelMap !! t)) as Hdecl.
  { inversion Htc as [? ? Hed|? y ? Hed _]; subst;
      destruct Hed as (deps & Hget & _); rewrite Hlinked in Hget;
      by destruct (modelMap !! t). }
  assert (t ∈ order) as Ht by (apply Hmem; [done|by apply Hown]).
  apply list_elem_of_split in Ht as (l1 & l2 & ->).
  specialize (Hbefore _ _ Htc _ _ eq_refl).
  apply NoDup_app in Hnodup as (_ & Hdisj & _).
  apply (Hdisj _ Hbefore), list_elem_of_here.
Qed.

End SortErrors.

Section Cycles.
Context {Env : Type} `{Collaborators Env}.

Lemma plainNames_own pending :
  plainNames pending →
  ∀ t, is_Some ((registerModels pending [] ∅).2 !! t) → JsObject.inherited t = false.
Proof. intros Hplain t. by apply plainNames_declared. Qed.

Lemma creationOrder_error pending x :
  plainNames pending → creationOrder pending = Some (inl x) → x = CyclicDependency.
Proof.
  intros Hplain. rewrite creationOrder_unfold.
  apply topologicalSort_error; [apply pending_linked|by apply plainNames_deps].
Qed.

Lemma creationOrder_cycle pending t :
  plainNames pending →
  tc (references pending) t t → creationOrder pending = Some (inl CyclicDependency).
Proof.
  intros Hplain Htc.
  destruct (creationOrder pending) as [[x|order]|] eqn:Hsort.
  - by rewrite (creationOrder_error _ _ Hplain Hsort).
  - rewrite creationOrder_unfold in Hsort.
    destruct (topologicalSort_acyclic _ _ (pending_linked pending)
                (plainNames_own _ Hplain) _ Hsort t).
    eapply tc_congruence with (f := id); [|exact Htc].
    intros x y. by apply references_edge.
  - by destruct (creationOrder_total pending).
Qed.

(** X4: when no pending model and no foreign key names a table as a
    property of [Object.prototype], the sort throws the cyclic-dependency
    error exactly when the foreign keys between the declared tables form a
    cycle, and it throws nothing else. *)
Theorem creationOrder_cyclic_iff (pending : list Model) :
  plainNames pending →
  (creationOrder pending = Some (inl CyclicDependency) ↔ ¬ acyclic pending)
  ∧ ∀ x, creationOrder pending = Some (inl x) → x = CyclicDependency.
Proof.
  intros Hplain. split; [split|].
  - intros Hcyclic Hacyclic. rewrite creationOrder_unfold in Hcyclic.
    destruct (topologicalSort_succeeds _ _ (pending_linked pending) (acyclic_edge _ Hacyclic)
                (plainNames_deps _ Hplain))
      as [order Horder].
    congruence.
  - intros Hcyclic.
    destruct (creationOrder pending) as [[x|order]|] eqn:Hsort.
    + by rewrite (creationOrder_error _ _ Hplain Hsort).
    + destruct Hcyclic. intros t Htc. rewrite creationOrder_unfold in Hsort.
      apply (topologicalSort_acyclic _ _ (pending_linked pending)
               (plainNames_own _ Hplain) _ Hsort t).
      eapply tc_congruence with (f := id); [|exact Htc].
      intros x y. by apply references_edge.
    + by destruct (creationOrder_total pending).
  - intros x. by apply creationOrder_error.
Qed.

(** X5: when no pending model and no foreign key names a table as a
    property of [Object.prototype] and the foreign keys between the pending
    models form a cycle, the pass issues SHOW TABLES and nothing else: no
    table is dropped, created or altered, no file is written, the pass throws
    (the cyclic-dependency error when SHOW TABLES was answered) and the
    pending models are kept. *)
Theorem cyclic_dependency_aborts (dangerousSync : bool) (w : world) (t : string) :
  plainNames (pendingModels w) →
  tc (references (pendingModels w)) t t →
  ∃ r, (syncAllTables dangerousSync w).1.2 = [EvQuery ShowTables r]
       ∧ (syncAllTables dangerousSync w).2
         = inl (match r with Done => CyclicDependency | Failed reason => Rejected reason end)
       ∧ pendingModels (syncAllTables dangerousSync w).1.1 = pendingModels w.
Proof.
  intros Hplain Hcycle. apply (creationOrder_cycle _ _ Hplain) in Hcycle.
  rewrite creationOrder_unfold in Hcycle.
  unfold syncAllTables, syncPass.
  destruct (registerModels (pendingModels w) [] ∅) as [dependencies modelMap]. simpl in Hcycle.
  rewrite Hcycle. simpl.
  destruct (query_run ShowTables (env w)) as [(e' & reason & Hq)|(e' & rows & _ & Hq)].
  - rewrite (bind_run_inl _ _ _ _ _ _ Hq). simpl. by exists (Failed reason).
  - rewrite (bind_run_inr _ _ _ _ _ _ Hq). simpl. by exists Done.
Qed.

End Cycles.

(** [left] and [right] have plain names and reference each other. *)
Lemma plainNames_left_right : plainNames [Scenario.left; Scenario.right].
Proof.
  intros m [->|Hm]%elem_of_cons; [|apply list_elem_of_singleton in Hm as ->].
  - split; [reflexivity|]. intros d Hd. vm_compute in Hd.
    apply list_elem_of_singleton in Hd as ->. reflexivity.
  - split; [reflexivity|]. intros d Hd. vm_compute in Hd.
    apply list_elem_of_singleton in Hd as ->. reflexivity.
Defined.

Lemma cycle_left_right : tc (references [Scenario.left; Scenario.right]) "left" "left".
Proof.
  assert (declaredModel [Scenario.left; Scenario.right] "left" = Some Scenario.left) as Hl
    by (vm_compute; reflexivity).
  assert (declaredModel [Scenario.left; Scenario.right] "right" = Some Scenario.right) as Hr
    by (vm_compute; reflexivity).
  eapply tc_l; [|apply tc_once].
  - exists Scenario.left. split; [exact Hl|]. split; [|by rewrite Hr].
    vm_compute. apply list_elem_of_here.
  - exists Scenario.right. split; [exact Hr|]. split; [|by rewrite Hl].
    vm_compute. apply list_elem_of_here.
Defined.

(** X4 at [left] and [right]: the sort throws the cyclic-dependency error. *)
Lemma creationOrder_cyclic_iff_witness :
  creationOrder [Scenario.left; Scenario.right] = Some (inl CyclicDependency).
Proof.
  destruct (creationOrder_cyclic_iff [Scenario.left; Scenario.right] plainNames_left_right)
    as [[_ Hcyclic] _].
  apply Hcyclic. intros Hacyclic. exact (Hacyclic "left" cycle_left_right).
Defined.

(** X5 in the test double: [left] and [right] reference each other; the
    table [legacy], which has no model, is left alone. *)
Lemma cyclic_dependency_aborts_witness :
  ∃ r, (syncAllTables true Example.cyclicWorld).1.2 = [EvQuery ShowTables r]
       ∧ (syncAllTables true Example.cyclicWorld).2
         = inl (match r with Done => CyclicDependency | Failed reason => Rejected reason end)
       ∧ pendingModels (syncAllTables true Example.cyclicWorld).1.1
         = [Scenario.left; Scenario.right].
Proof.
  apply (cyclic_dependency_aborts true Example.cyclicWorld "left").
  - exact plainNames_left_right.
  - exact cycle_left_right.
Defined.

(** ** The tables are created in the creation order *)

Section Creation.
Context {Env : Type} `{Collaborators Env}.

Lemma createdTables_app evs1 evs2 :
  createdTables (evs1 ++ evs2) = createdTables evs1 ++ createdTables evs2.
Proof. apply omap_app. Qed.

Lemma createdTables_bind {A B} (m : M Env A) (k : A → M Env B) (e : Env) :
  createdTables (events_of (bind m k e)) =
  createdTables (events_of (m e)) ++
  match value_of (m e) with
  | inr a => createdTables (events_of (k a (env_of (m e))))
  | inl _ => []
  end.
Proof. rewrite bind_events, createdTables_app. by destruct (value_of (m e)). Qed.

Lemma bind_value {A B} (m : M Env A) (k : A → M Env B) (e : Env) :
  value_of (bind m k e) =
  match value_of (m e) with
  | inr a => value_of (k a (env_of (m e)))
  | inl x => inl x
  end.
Proof. unfold bind. by destruct (value_of (m e)). Qed.

Lemma createdTables_during {A} stages table (m : M Env A) e :
  always (during stages table) m → Creation ∉ stages →
  createdTables (events_of (m e)) = [].
Proof.
  intros Hm Hno. apply omap_nil_Forall. eapply Forall_impl; [apply Hm|].
  intros ev Hev. destruct ev as [[| | |? []| | | | | | |] r| | | | | | |]; try done.
  by destruct (during_stage _ _ _ _ Hev eq_refl) as [? _].
Qed.

Lemma syncColumns_stages dangerousSync model :
  always (during columnStages (name model)) (syncColumns dangerousSync model).
Proof.
  unfold syncColumns. apply always_bind.
  { apply (always_query _ (ShowColumns (name model))). intros r.
    cbv [during stageOf tableOf columnStages]. set_solver. }
  intros columns. apply always_bind.
  { eapply always_impl; [|apply modifyColumns_during]. intros ev. apply during_mono.
    unfold columnStages. set_solver. }
  intros _. apply always_bind.
  { eapply always_impl; [|apply renameColumns_during]. intros ev. apply during_mono.
    unfold columnStages. set_solver. }
  intros cols. apply always_bind.
  { eapply always_impl; [|apply addColumns_during]. intros ev. apply during_mono.
    unfold columnStages. set_solver. }
  intros cols'.
  eapply always_impl; [|apply dropColumns_during]. intros ev. apply during_mono.
  unfold columnStages. set_solver.
Qed.

Definition createdBy (model : Model) : list string :=
  if ifReservedKeywords (name model) then [] else [name model].

Lemma ensureTable_created model e :
  (createdTables (events_of (ensureTable model e)) = []
   ∧ ∃ x, value_of (ensureTable model e) = inl x)
  ∨ createdTables (events_of (ensureTable model e)) = createdBy model.
Proof.
  unfold ensureTable, generateCreateTableStatement, createdBy.
  destruct (mapE createColumn (JsObject.entries (schemaDict model))) as [x|columns].
  { left. unfold tryCatch, bind, liftE, throw, error, emit. simpl. eauto. }
  right.
  assert (∃ evs sql,
            bind (liftE (inr columns))
              (fun columns => if ifReservedKeywords (name model)
                              then error InvalidTableName ;; ret None
                              else ret (Some ("CREATE TABLE IF NOT EXISTS " +:+ name model +:+ " ("
                                              +:+ JsString.join ", " columns +:+ ") ENGINE=InnoDB")))
              e = Run e evs (inr sql) ∧ createdTables evs = []
            ∧ ∀ r rest, createdTables (EvQuery (CreateTable (name model) sql) r :: rest)
                        = (if ifReservedKeywords (name model) then [] else [name model])
                          ++ createdTables rest)
    as (evs & sql & Hgen & Hevs & Hcreated).
  { unfold bind, liftE, ret, error, emit. simpl.
    destruct (ifReservedKeywords (name model)); simpl; eauto 10. }
  destruct (query_run (CreateTable (name model) sql) e)
    as [(e' & reason & Hq)|(e' & rows & _ & Hq)].
  - erewrite tryCatch_run_inl.
    2:{ erewrite bind_run_inr by exact Hgen. erewrite bind_run_inl by exact Hq.
        cbn [env_of events_of value_of app]. reflexivity. }
    unfold bind, error, emit, throw. cbn [env_of events_of value_of app].
    rewrite !createdTables_app, Hevs, Hcreated. simpl. by rewrite !app_nil_r.
  - erewrite tryCatch_run_inr.
    2:{ erewrite bind_run_inr by exact Hgen. erewrite bind_run_inr by exact Hq.
        cbn [env_of events_of value_of app]. reflexivity. }
    unfold logs, emit. cbn [env_of events_of value_of app].
    rewrite !createdTables_app, Hevs, Hcreated. simpl. by rewrite !app_nil_r.
Qed.

Lemma syncTable_created dangerousSync model e :
  (createdTables (events_of (syncTable dangerousSync model e)) = []
   ∧ ∃ x, value_of (syncTable dangerousSync model e) = inl x)
  ∨ createdTables (events_of (syncTable dangerousSync model e)) = createdBy model.
Proof.
  unfold syncTable. rewrite createdTables_bind.
  destruct (ensureTable_created model e) as [[Hnone [x Hx]]|Hone].
  - left. rewrite Hnone. unfold bind. rewrite Hx. simpl. eauto.
  - right. rewrite Hone. destruct (value_of (ensureTable model e)); [by rewrite app_nil_r|].
    rewrite createdTables_bind.
    rewrite (createdTables_during [Restore] (name model)) by
      (apply offerRestore_during || set_solver).
    destruct (value_of (offerRestore model _)); [by rewrite app_nil_r|].
    rewrite (createdTables_during columnStages (name model)).
    + by rewrite app_nil_r.
    + apply syncColumns_stages.
    + unfold columnStages. set_solver.
Qed.

Lemma creatable_cons t order :
  creatable (t :: order)
  = (if ifReservedKeywords t then [] else [t]) ++ creatable order.
Proof.
  unfold creatable. rewrite filter_cons.
  destruct (ifReservedKeywords t); [by rewrite decide_False|by rewrite decide_True].
Qed.

Lemma syncTables_created dangerousSync modelMap order e :
  (∀ t m, modelMap !! t = Some m → name m = t) →
  createdTables (events_of (syncTables dangerousSync modelMap order e))
    `prefix_of` creatable order
  ∧ (value_of (syncTables dangerousSync modelMap order e) = inr tt →
     createdTables (events_of (syncTables dangerousSync modelMap order e)) = creatable order).
Proof.
  intros Hnamed. unfold syncTables. revert e.
  induction order as [|t rest IH]; intros e; simpl.
  { split; [apply prefix_nil|done]. }
  rewrite createdTables_bind, bind_value, creatable_cons.
  destruct (modelMap !! t) as [model|] eqn:Hm.
  - apply Hnamed in Hm as <-.
    destruct (syncTable_created dangerousSync model e) as [[-> [x ->]] | ->].
    + split; [apply prefix_nil|done].
    + unfold createdBy.
      destruct (value_of (syncTable dangerousSync model e)) as [x|[]].
      * split; [|done]. rewrite app_nil_r. apply prefix_app_r. done.
      * destruct (IH (env_of (syncTable dangerousSync model e))) as [Hpre Hall].
        split; [by apply prefix_app|]. intros Hval. by rewrite Hall.
  - simpl. split; [apply prefix_nil|done].
Qed.

(** X6: when no pending model is named [__proto__], the CREATE TABLE
    statements of a pass follow the creation order: the tables they are
    issued for, in order of issue, are the first of the tables of the order
    computed by the sort whose name is not a reserved keyword, each once, and
    all of those when the pass completes.  For a table whose name is a
    reserved keyword the driver is called with no statement. *)
Theorem tables_created_in_order (dangerousSync : bool) (w : world) (order : list string) :
  ownNames (pendingModels w) →
  creationOrder (pendingModels w) = Some (inr order) →
  createdTables (syncAllTables dangerousSync w).1.2 `prefix_of` creatable order
  ∧ NoDup (createdTables (syncAllTables dangerousSync w).1.2)
  ∧ ((syncAllTables dangerousSync w).2 = inr tt →
     createdTables (syncAllTables dangerousSync w).1.2 = creatable order).
Proof.
  intros _ Horder. rewrite creationOrder_unfold in Horder.
  assert (NoDup (creatable order)) as Hnodup.
  { apply NoDup_filter.
    by destruct (topologicalSort_returns _ _ _ (pending_linked (pendingModels w)) Horder). }
  cut (createdTables (syncAllTables dangerousSync w).1.2 `prefix_of` creatable order
       ∧ ((syncAllTables dangerousSync w).2 = inr tt →
          createdTables (syncAllTables dangerousSync w).1.2 = creatable order)).
  { intros [[rest Hpre] Hall]. split; [by exists rest|]. split; [|done].
    rewrite Hpre in Hnodup. by apply NoDup_app in Hnodup as [? _]. }
  clear Hnodup.
  assert ((syncAllTables dangerousSync w).2 = inr tt →
          value_of (syncPass dangerousSync (pendingModels w) (env w)) = inr tt) as Hdone.
  { unfold syncAllTables.
    by destruct (value_of (syncPass dangerousSync (pendingModels w) (env w))) as [x|[]]. }
  rewrite syncAllTables_events.
  pose proof (declared_named (pendingModels w)) as Hnamed.
  revert Hdone. generalize ((syncAllTables dangerousSync w).2). intros result Hdone.
  unfold syncPass in *.
  destruct (registerModels (pendingModels w) [] ∅) as [dependencies modelMap].
  simpl in Horder, Hnamed. rewrite Horder in *. clear Horder.
  rewrite createdTables_bind. rewrite bind_value in Hdone.
  destruct (query_run ShowTables (env w)) as [(e' & reason & Hq)|(e' & rows & _ & Hq)];
    rewrite Hq in *; cbn [env_of events_of value_of] in *.
  { split; [apply prefix_nil|]. intros Hr. by apply Hdone in Hr. }
  change (createdTables [EvQuery ShowTables Done]) with (@nil string). rewrite app_nil_l.
  rewrite createdTables_bind. rewrite bind_value in Hdone.
  cbn [liftE ret env_of events_of value_of] in *.
  change (createdTables []) with (@nil string). rewrite app_nil_l.
  rewrite createdTables_bind. rewrite bind_value in Hdone.
  assert (createdTables (events_of (dropOrphans modelMap rows e')) = []) as ->.
  { apply omap_nil_Forall. eapply Forall_impl; [apply dropOrphans_during|].
    intros ev [t Hev]. destruct ev as [[| | |? []| | | | | | |] r| | | | | | |]; try done.
    by destruct (during_stage _ _ _ _ Hev eq_refl) as [?%list_elem_of_singleton _]. }
  rewrite app_nil_l.
  destruct (value_of (dropOrphans modelMap rows e')) as [x|[]].
  { split; [apply prefix_nil|]. intros Hr. by apply Hdone in Hr. }
  destruct (syncTables_created dangerousSync modelMap order
              (env_of (dropOrphans modelMap rows e'))) as [Hpre Hall]; [by eapply Hnamed|].
  split; [done|]. intros Hr. apply Hall. by apply Hdone.
Qed.

End Creation.

(** X6 in the test double: [users] references [roles]; [roles] is created
    first although it was registered last. *)
Lemma tables_created_in_order_witness :
  createdTables (syncAllTables false Example.usersWorld).1.2 `prefix_of` ["roles"; "users"]
  ∧ NoDup (createdTables (syncAllTables false Example.usersWorld).1.2)
  ∧ ((syncAllTables false Example.usersWorld).2 = inr tt →
     createdTables (syncAllTables false Example.usersWorld).1.2 = ["roles"; "users"]).
Proof.
  apply (tables_created_in_order false Example.usersWorld ["roles"; "users"]).
  - intros m Hm. apply elem_of_cons in Hm as [->|Hm]; [done|].
    apply list_elem_of_singleton in Hm as ->. done.
  - vm_compute. reflexivity.
Defined.

(** ** Every declared field gets its column *)

Section Returning.
Context {Env : Type} `{Collaborators Env}.

Lemma returning_ret {A} P (a : A) : returning (Env:=Env) P (ret a).
Proof. intros e a' _. constructor. Qed.

Lemma returning_throw {A} P (x : exn) : returning (Env:=Env) P (throw (A:=A) x).
Proof. intros e a. done. Qed.

Lemma returning_liftE {A} P (r : exn + A) : returning (Env:=Env) P (liftE r).
Proof. destruct r; [apply returning_throw|apply returning_ret]. Qed.

Lemma returning_emit P ev : P ev → returning (Env:=Env) P (emit ev).
Proof. intros Hev e a _. by repeat constructor. Qed.

Lemma returning_bind {A B} P (m : M Env A) (k : A → M Env B) :
  returning P m → (∀ a, returning P (k a)) → returning P (bind m k).
Proof.
  intros Hm Hk e b Hval. apply bind_inr in Hval as (a & Hma & Hkb & -> & _).
  apply Forall_app. split; [by eapply Hm|by eapply Hk].
Qed.

Lemma returning_forEach {A} P (xs : list A) (body : A → M Env unit) :
  (∀ x, returning P (body x)) → returning P (forEach xs body).
Proof.
  intros Hbody. induction xs as [|x xs IH]; simpl; [apply returning_ret|].
  apply returning_bind; [apply Hbody|]. intros _. apply IH.
Qed.

Lemma returning_forEachWith {A S} P (xs : list A) (body : S → A → M Env S) (s : S) :
  (∀ s x, returning P (body s x)) → returning P (forEachWith xs body s).
Proof.
  intros Hbody. revert s. induction xs as [|x xs IH]; intros s; simpl; [apply returning_ret|].
  apply returning_bind; [apply Hbody|]. intros s'. apply IH.
Qed.

Lemma returning_query P (s : stmt) : P (EvQuery s Done) → returning P (query s).
Proof.
  intros HP e a. unfold query. destruct (drv_query s e) as [e' [reason|rows]]; simpl; [done|].
  intros _. by repeat constructor.
Qed.

(** In a synchronisation of the columns that completes, every statement was
    answered by the driver. *)
Lemma syncColumns_answered dangerousSync model :
  returning answered (syncColumns dangerousSync model).
Proof.
  assert (∀ s, answered (EvQuery s Done)) as Hq by by intros s s' r [= _ <-].
  assert (∀ m, answered (EvLog m)) as Hl by by intros m s r.
  unfold syncColumns, modifyColumns, modifyColumn, renameColumns, renameColumn,
    addColumns, addColumn, dropColumns, dropColumn, logs.
  repeat lazymatch goal with
  | |- returning _ (ret _) => apply returning_ret
  | |- returning _ (throw _) => apply returning_throw
  | |- returning _ (liftE _) => apply returning_liftE
  | |- returning _ (emit _) => apply returning_emit; apply Hl
  | |- returning _ (query ?s) => apply (returning_query _ s); apply Hq
  | |- returning _ (bind _ _) => apply returning_bind; [|intros ?]
  | |- returning _ (forEach _ _) => apply returning_forEach; intros ?
  | |- returning _ (forEachWith _ _ _) => apply returning_forEachWith; intros ? ?
  | |- returning _ (match ?x with _ => _ end) => destruct x
  | |- returning _ (let '(_, _) := ?x in _) => destruct x
  end.
Qed.

Lemma addsOf_elem_inv table evs n :
  n ∈ addsOf table evs → ∃ d r, EvQuery (AddColumn table n d) r ∈ evs.
Proof.
  unfold addsOf. intros (ev & Hev & Hadd)%list_elem_of_omap.
  destruct ev as [s r| | | | | | |]; try done. destruct s; try done. simpl in Hadd.
  destruct (String.eqb table0 table) eqn:Ht; [|done].
  apply String.eqb_eq in Ht as ->. injection Hadd as ->. eauto.
Qed.

Lemma plannedAdds_complete x entries cols :
  x ∈ entries.*1 → x ∈ cols ∨ x ∈ plannedAdds entries cols.
Proof.
  revert cols. induction entries as [|entry rest IH]; intros cols; simpl;
    [by intros ?%elem_of_nil|].
  intros [->|Hx]%elem_of_cons.
  - destruct (includes (fst entry) cols) eqn:Hin.
    + left. by apply includes_elem.
    + right. apply list_elem_of_here.
  - destruct (includes (fst entry) cols) eqn:Hin; [by apply IH|].
    destruct (IH (cols ++ [fst entry]) Hx) as [[Hc|Hc%list_elem_of_singleton]%elem_of_app|Hp].
    + by left.
    + subst x. right. apply list_elem_of_here.
    + right. by apply list_elem_of_further.
Qed.

Lemma renamedCols_source x entries cols :
  x ∈ renamedCols entries cols → x ∈ cols ∨ ∃ o, (o, x) ∈ plannedRenames entries cols.
Proof.
  revert cols. induction entries as [|entry rest IH]; intros cols; simpl; [by left|].
  destruct (renameSource cols entry) as [o|] eqn:Hsrc.
  - intros [[[-> Ho]|[Hne Hx]]%elem_of_applyRename|[o' Hr]]%IH.
    + right. exists o. apply list_elem_of_here.
    + by left.
    + right. exists o'. by apply list_elem_of_further.
  - apply IH.
Qed.

(** X7: in a synchronisation of the columns that completes, every declared
    field that had no live column was given one: the driver has answered a
    CHANGE COLUMN that renames a column to the field's name, or an ADD COLUMN
    of the field. *)
Theorem missing_field_gets_column (dangerousSync : bool) (model : Model) (e e1 : Env)
    (columns : list ColumnInfo) (fieldName : string) :
  drv_query (ShowColumns (name model)) e = (e1, inr columns) →
  value_of (syncColumns dangerousSync model e) = inr tt →
  fieldName ∈ JsObject.keys (schemaDict model) →
  fieldName ∉ map col_Field columns →
  let evs := events_of (syncColumns dangerousSync model e) in
  (∃ oldName colDef, EvQuery (ChangeColumn (name model) oldName fieldName colDef) Done ∈ evs)
  ∨ (∃ colDef, EvQuery (AddColumn (name model) fieldName colDef) Done ∈ evs).
Proof.
  intros Hshow Hval Hdeclared Hmissing evs.
  destruct (syncColumns_inr _ _ _ _ _ Hshow Hval) as (Hren & Hadd & _ & _).
  cbv zeta in Hren, Hadd. fold evs in Hren, Hadd.
  pose proof (syncColumns_answered dangerousSync model e tt Hval) as Hdone. fold evs in Hdone.
  destruct (plannedAdds_complete fieldName (schemaDict model)
              (renamedCols (schemaDict model) (map col_Field columns)) Hdeclared) as [Hcol|Hnew].
  - apply renamedCols_source in Hcol as [Hlive|[o Ho]]; [done|].
    rewrite <- Hren in Ho. apply renamesOf_elem in Ho as (d & r & Hev).
    left. exists o, d. eapply Forall_forall in Hdone; [|exact Hev].
    by rewrite <- (Hdone _ _ eq_refl).
  - rewrite <- Hadd in Hnew. apply addsOf_elem_inv in Hnew as (d & r & Hev).
    right. exists d. eapply Forall_forall in Hdone; [|exact Hev].
    by rewrite <- (Hdone _ _ eq_refl).
Qed.

End Returning.

(** X7 in the test double: [phone] is declared for [account] and is not a
    live column. *)
Lemma missing_field_gets_column_witness :
  let evs := events_of (syncColumns false Scenario.account (env Scenario.drifted)) in
  (∃ oldName colDef, EvQuery (ChangeColumn "account" oldName "phone" colDef) Done ∈ evs)
  ∨ (∃ colDef, EvQuery (AddColumn "account" "phone" colDef) Done ∈ evs).
Proof.
  apply (missing_field_gets_column false Scenario.account (env Scenario.drifted)
           (env Scenario.drifted) [Mock.column "email" "text"] "phone").
  - reflexivity.
  - vm_compute. reflexivity.
  - simpl. set_solver.
  - simpl. set_solver.
Defined.

(** ** The restore offer *)

Section Consent.
Context {Env : Type} `{Collaborators Env}.

Lemma filter_none {A} (f : A → bool) (l : list A) :
  (∀ x, x ∈ l → f x = false) → List.filter f l = [].
Proof.
  induction l as [|x l IH]; intros Hall; simpl; [done|].
  rewrite (Hall x) by apply list_elem_of_here.
  apply IH. intros y Hy. by apply Hall, list_elem_of_further.
Qed.

(** X8: when every path listed for the pattern of the table ends in
    [.ignored], and so when none is listed, the restore step asks nothing
    and touches neither the files nor the database. *)
Theorem no_candidate_backup_no_question (model : Model) (e : Env) :
  (∀ f, f ∈ glob_sync ("./backup_" +:+ name model +:+ "_*.sql") e →
        JsString.endsWith ".ignored" f = true) →
  offerRestore model e = Run e [] (inr tt).
Proof.
  intros Hignored. unfold offerRestore.
  rewrite (bind_run_inr (globSync _) _ e e [] _ eq_refl).
  cbn [env_of events_of value_of app].
  rewrite filter_none; [done|].
  intros f Hf. by rewrite (Hignored f Hf).
Qed.

Lemma disposeBackup_restores_nothing model latest :
  always (fun ev => ¬ restores ev) (disposeBackup model latest).
Proof.
  unfold disposeBackup, unlinkSync, renameSync, logs. always_go;
    intros [(? & ? & ?)|(? & ? & ?)]; done.
Qed.

(** X9: the backup is read and replayed only with the operator's consent:
    when the restore step reads a file or sends its content to the driver,
    its first event is the restore question, and the answer to it is [y] or
    [Y], blanks around it aside. *)
Theorem backup_replayed_only_on_yes (model : Model) (e : Env) (ev : event) :
  ev ∈ events_of (offerRestore model e) →
  restores ev →
  ∃ latest answer,
    head (events_of (offerRestore model e))
    = Some (EvQuestion (AskRestore (name model) latest) answer)
    ∧ JsString.toLowerCase (JsString.trim answer) = "y".
Proof.
  unfold offerRestore.
  rewrite (bind_run_inr (globSync _) _ e e [] _ eq_refl).
  cbn [env_of events_of value_of app].
  destruct (latestOf _) as [latest|]; [|by intros ?%elem_of_nil].
  run_first (question (AskRestore (name model) latest)) e run_rewrite.
  intros Hin Hev. exists latest, answer. split; [done|].
  destruct (isYes answer) eqn:Hyes; [by apply String.eqb_eq|].
  exfalso. apply elem_of_cons in Hin as [->|Hin].
  { by destruct Hev as [(? & ? & ?)|(? & ? & ?)]. }
  rewrite (bind_run_inr (ret tt) _ e0 e0 [] tt eq_refl) in Hin.
  cbn [env_of events_of value_of app] in Hin.
  pose proof (disposeBackup_restores_nothing model latest e0) as Hnone.
  eapply Forall_forall in Hnone; [|exact Hin]. done.
Qed.

End Consent.

(** X8 in the test double: no file on disk. *)
Lemma no_candidate_backup_no_question_witness :
  offerRestore Scenario.user (env Scenario.fullDisk) = Run (env Scenario.fullDisk) [] (inr tt).
Proof.
  apply (no_candidate_backup_no_question Scenario.user (env Scenario.fullDisk)).
  intros f Hf. vm_compute in Hf. by apply elem_of_nil in Hf.
Defined.

(** X9 in the test double: the operator answers [y] and the backup of
    [user] is read. *)
Lemma backup_replayed_only_on_yes_witness :
  ∃ latest answer,
    head (events_of (offerRestore Scenario.user Scenario.emptyBackup))
    = Some (EvQuestion (AskRestore "user" latest) answer)
    ∧ JsString.toLowerCase (JsString.trim answer) = "y".
Proof.
  apply (backup_replayed_only_on_yes Scenario.user Scenario.emptyBackup
           (EvReadFile "./backup_user_1700000000000.sql" Done)).
  - vm_compute. repeat first [apply list_elem_of_here|apply list_elem_of_further].
  - left. by exists "./backup_user_1700000000000.sql", Done.
Defined.

(** ** Registration *)

Section Registration.

Lemma registerModels_last pending dependencies modelMap t :
  (registerModels pending dependencies modelMap).2 !! t
  = match last (filter (fun m => name m = t) pending) with
    | Some m => Some m
    | None => modelMap !! t
    end.
Proof.
  revert dependencies modelMap. induction pending as [|model rest IH]; intros deps mm; simpl.
  - done.
  - rewrite IH, filter_cons. destruct (decide (name model = t)) as [<-|Hne].
    + rewrite last_cons. destruct (last (filter _ rest)); [done|]. apply lookup_insert_eq.
    + destruct (last (filter _ rest)); [done|]. by apply lookup_insert_ne.
Qed.

(** X10: of the pending models registered under one name, the one the pass
    takes for the table is the last registered. *)
Theorem last_registration_wins (pending : list Model) (t : string) :
  declaredModel pending t = last (filter (fun m => name m = t) pending).
Proof.
  unfold declaredModel. rewrite registerModels_last, lookup_empty.
  by destruct (last _).
Qed.

End Registration.

(** ** The compiler of column definitions and the CREATE TABLE statement *)

Section CompilerFacts.
Context {Env : Type} `{Collaborators Env}.

Lemma upper_lower_char c : JsString.upper_char (JsString.lower_char c) = JsString.upper_char c.
Proof. destruct c as [[] [] [] [] [] [] [] []]; reflexivity. Qed.

Lemma upper_upper_char c : JsString.upper_char (JsString.upper_char c) = JsString.upper_char c.
Proof. destruct c as [[] [] [] [] [] [] [] []]; reflexivity. Qed.

Lemma toUpperCase_toLowerCase s :
  JsString.toUpperCase (JsString.toLowerCase s) = JsString.toUpperCase s.
Proof.
  unfold JsString.toUpperCase, JsString.toLowerCase.
  induction s as [|c s IH]; simpl; [done|]. by rewrite upper_lower_char, IH.
Qed.

Lemma toUpperCase_idemp s :
  JsString.toUpperCase (JsString.toUpperCase s) = JsString.toUpperCase s.
Proof.
  unfold JsString.toUpperCase.
  induction s as [|c s IH]; simpl; [done|]. by rewrite upper_upper_char, IH.
Qed.

(** X11: the check of reserved table names does not depend on the case of
    the letters: an ASCII name, its upper-case form and its lower-case form
    are reserved together. *)
Theorem ifReservedKeywords_ignores_case (tableName : string) :
  isAscii tableName = true →
  ifReservedKeywords (JsString.toUpperCase tableName) = ifReservedKeywords tableName
  ∧ ifReservedKeywords (JsString.toLowerCase tableName) = ifReservedKeywords tableName.
Proof.
  intros _. unfold ifReservedKeywords. by rewrite toUpperCase_idemp, toUpperCase_toLowerCase.
Qed.

Lemma mapE_inl {A B} (f : A → exn + B) (xs : list A) (x : exn) :
  mapE f xs = inl x →
  ∃ before a after,
    xs = before ++ a :: after ∧ f a = inl x ∧ Forall (fun b => ∃ y, f b = inr y) before.
Proof.
  induction xs as [|a xs IH]; simpl; [done|].
  destruct (f a) as [y|b] eqn:Hfa.
  - intros [= <-]. exists [], a, xs. by repeat split.
  - destruct (mapE f xs) as [y|ys]; [|done]. intros [= <-].
    destruct (IH eq_refl) as (before & a' & after & -> & Ha' & Hbefore).
    exists (a :: before), a', after. repeat split; [done|]. constructor; eauto.
Qed.


Lemma splitHead_no_sep sep s pre post : JsString.splitHead sep s ≠ pre +:+ String sep post.
Proof.
  revert pre. induction s as [|c s IH]; intros pre; simpl.
  - by destruct pre.
  - destruct (Ascii.eqb c sep) eqn:Hc; [by destruct pre|].
    destruct pre as [|p pre]; simpl.
    + intros [= -> _]. by rewrite Ascii.eqb_refl in Hc.
    + intros [= _ Heq]. by apply IH in Heq.
Qed.

(** X13: a declared field whose type has no SQL type in the map and is not
    named as a property of [Object.prototype] (as for a field that only has
    an enumeration), or whose type is [Now], is found different from its live
    column whatever the column and its indexes are: the comparison of the
    types always fails, so [needModify] is true.  (For a type named as a
    property of [Object.prototype] the read of the map finds a function, and
    the call of its [toUpperCase] throws.) *)
Theorem needModify_always (field : SchemaField) (currentCol : ColumnInfo)
    (indexes : list IndexInfo) :
  (sqlTypeOf (getFieldType field) = None
   ∧ ∀ t, getFieldType field = Some t → JsObject.inherited t = false)
  ∨ getFieldType field = Some "Now" →
  needModify field currentCol indexes = true.
Proof.
  intros Htype. unfold needModify.
  assert (JsString.toUpperCase <$> sqlTypeOf (getFieldType field)
          ≠ Some (JsString.splitHead "(" (JsString.toUpperCase (col_Type currentCol)))) as Hne.
  { destruct Htype as [[-> _]| ->]; [done|]. simpl. intros [= Heq]. symmetry in Heq.
    by apply (splitHead_no_sep "(" _ "NOW" ")") in Heq. }
  by rewrite bool_decide_eq_false_2.
Qed.

End CompilerFacts.

(** X11 at a name in mixed case. *)
Lemma ifReservedKeywords_ignores_case_witness :
  ifReservedKeywords (JsString.toUpperCase "Select") = ifReservedKeywords "Select"
  ∧ ifReservedKeywords (JsString.toLowerCase "Select") = ifReservedKeywords "Select".
Proof. apply (ifReservedKeywords_ignores_case "Select"). reflexivity. Defined.


(** X13 at a field of type [Now] and a live column of type [datetime], and
    at a field of the unknown type [Money] and a live column of type [int]. *)
Lemma needModify_always_witness :
  needModify (Mock.field "Now") (Mock.column "at" "datetime") [] = true
  ∧ needModify (Mock.field "Money") (Mock.column "price" "int(11)") [] = true.
Proof.
  split.
  - apply (needModify_always (Mock.field "Now") (Mock.column "at" "datetime") []).
    right. reflexivity.
  - apply (needModify_always (Mock.field "Money") (Mock.column "price" "int(11)") []).
    left. split; [reflexivity|]. intros t [= <-]. reflexivity.
Defined.

(** ** The helpers of the queries *)

Section Escaping.

Lemma replaceAll_app c by_ a b :
  JsString.replaceAll c by_ (a +:+ b) = JsString.replaceAll c by_ a +:+ JsString.replaceAll c by_ b.
Proof.
  induction a as [|d a IH]; [done|].
  rewrite append_cons. simpl. destruct (Ascii.eqb d c).
  - by rewrite IH, append_assoc.
  - by rewrite IH, append_cons.
Qed.

Lemma escapedFrom_cons q b c r :
  escapedFrom q b (String c r)
  = (negb (Ascii.eqb c q) || b) && escapedFrom q (Ascii.eqb c "092"%char) r.
Proof. reflexivity. Qed.

Lemma replaceAll_cons c by_ d r :
  JsString.replaceAll c by_ (String d r)
  = if Ascii.eqb d c then by_ +:+ JsString.replaceAll c by_ r
    else String d (JsString.replaceAll c by_ r).
Proof. reflexivity. Qed.

Lemma escaped_char q r :
  (JsValue.backslash +:+ String q "") +:+ r = String "092"%char (String q r).
Proof. reflexivity. Qed.

Lemma escapedFrom_replaceAll q b s :
  q ≠ "092"%char →
  escapedFrom q b (JsString.replaceAll q (JsValue.backslash +:+ String q "") s) = true.
Proof.
  intros Hq. apply Ascii.eqb_neq in Hq.
  revert b. induction s as [|d s IH]; intros b; [done|].
  rewrite replaceAll_cons. destruct (Ascii.eqb d q) eqn:Hd.
  - rewrite escaped_char.
    rewrite escapedFrom_cons, (Ascii.eqb_sym "092"%char q), Hq, Ascii.eqb_refl.
    rewrite escapedFrom_cons, Ascii.eqb_refl, Hq.
    cbn [negb orb andb]. apply IH.
  - rewrite escapedFrom_cons, Hd. cbn [negb orb andb]. apply IH.
Qed.

Lemma escapedFrom_other q q' b s :
  q ≠ "092"%char → q' ≠ "092"%char →
  escapedFrom q b s = true →
  escapedFrom q b (JsString.replaceAll q' (JsValue.backslash +:+ String q' "") s) = true.
Proof.
  intros Hq Hq'. apply Ascii.eqb_neq in Hq, Hq'.
  revert b. induction s as [|d s IH]; intros b; [done|].
  rewrite replaceAll_cons, escapedFrom_cons.
  intros [Hd Hrest]%andb_prop.
  destruct (Ascii.eqb d q') eqn:Hdq.
  - apply Ascii.eqb_eq in Hdq as ->.
    rewrite escaped_char.
    rewrite escapedFrom_cons, (Ascii.eqb_sym "092"%char q), Hq, Ascii.eqb_refl.
    rewrite escapedFrom_cons, Hq'.
    rewrite Hq' in Hrest. rewrite Bool.orb_true_r. cbn [negb orb andb]. by apply IH.
  - rewrite escapedFrom_cons, Hd. cbn [negb orb andb]. by apply IH.
Qed.

Lemma escapeDouble_escaped s : quotesEscaped "034"%char (escapeDouble s) = true.
Proof. by apply escapedFrom_replaceAll. Qed.

Lemma escapeSingle_escaped s :
  quotesEscaped "'"%char (escapeSingle (escapeDouble s)) = true
  ∧ quotesEscaped "034"%char (escapeSingle (escapeDouble s)) = true.
Proof.
  split; [by apply escapedFrom_replaceAll|].
  apply (escapedFrom_other "034"%char "'"%char); [done|done|apply escapeDouble_escaped].
Qed.

Lemma mapE_inr {A B} (f : A → exn + B) (xs : list A) (ys : list B) :
  mapE f xs = inr ys → Forall2 (fun x y => f x = inr y) xs ys.
Proof.
  revert ys. induction xs as [|x xs IH]; intros ys; simpl.
  - intros [= <-]. constructor.
  - destruct (f x) as [e|y] eqn:Hfx; [done|].
    destruct (mapE f xs) as [e|ys']; [done|]. intros [= <-]. constructor; auto.
Qed.

Lemma formatObject_inr obj formatted :
  formatObject obj = inr formatted →
  Forall2 (fun prop result => fst result = fst prop ∧ formatValue (snd prop) = inr (snd result))
    obj formatted.
Proof.
  unfold formatObject. destruct (JsObject.get "hasOwnProperty" obj); [done|].
  intros Hmap%mapE_inr. eapply Forall2_impl; [exact Hmap|].
  intros prop result. simpl. destruct (formatValue (snd prop)); [done|].
  by intros [= <-].
Qed.

(** X15: an object that [formatObject] returns has the keys of the given
    one, in the same order; numbers, booleans and [undefined] are kept as
    they are and every other value has become a string, so that no value is
    [null], an array or an object any more. *)
Theorem formatObject_flattens (obj formatted : JsObject.obj jsValue) :
  formatObject obj = inr formatted →
  JsObject.keys formatted = JsObject.keys obj
  ∧ Forall (fun result => JsValue.isObject (snd result) = false) formatted
  ∧ Forall2 (fun prop result =>
               match snd prop with
               | JsBool _ | JsNumber _ | JsUndefined => snd result = snd prop
               | _ => ∃ text, snd result = JsStr text
               end) obj formatted.
Proof.
  intros Hall%formatObject_inr. unfold JsObject.keys.
  induction Hall as [|prop result obj formatted [Hkey Hvalue] _ (IHkeys & IHflat & IHkept)].
  { repeat split; constructor. }
  simpl. rewrite Hkey, IHkeys. split; [done|].
  split; (constructor; [|done]).
  - destruct (snd prop) as [| |b|n|s|items|props]; simpl in Hvalue;
      injection Hvalue as <-; done.
  - destruct (snd prop) as [| |b|n|s|items|props]; simpl in Hvalue;
      injection Hvalue as <-; eauto.
Qed.

(** X16: in an object that [formatObject] returns, every double quote of a
    string value comes right after a backslash, and so does every single
    quote of the string written for [null], an array or an object. *)
Theorem formatObject_escapes_quotes (obj formatted : JsObject.obj jsValue) :
  formatObject obj = inr formatted →
  Forall (fun result => ∀ text, snd result = JsStr text →
                                quotesEscaped "034"%char text = true) formatted
  ∧ Forall2 (fun prop result =>
               JsValue.isObject (snd prop) = true →
               ∀ text, snd result = JsStr text → quotesEscaped "'"%char text = true)
      obj formatted.
Proof.
  intros Hall%formatObject_inr.
  induction Hall as [|prop result obj formatted [Hkey Hvalue] _ (IHdouble & IHsingle)].
  { split; constructor. }
  split; (constructor; [|done]).
  - intros text Htext. rewrite Htext in Hvalue.
    destruct (snd prop) as [| |b|n|s|items|props]; simpl in Hvalue;
      try done; injection Hvalue as <-;
      first [apply escapeDouble_escaped|apply escapeSingle_escaped].
  - intros Hobject text Htext. rewrite Htext in Hvalue.
    destruct (snd prop) as [| |b|n|s|items|props]; try done; simpl in Hvalue;
      injection Hvalue as <-; apply escapeSingle_escaped.
Qed.

End Escaping.

(** X15 at a filter with a value of each kind. *)
Lemma formatObject_flattens_witness :
  JsObject.keys Example.formattedFilter = JsObject.keys Example.filter
  ∧ Forall (fun result => JsValue.isObject (snd result) = false) Example.formattedFilter
  ∧ Forall2 (fun prop result =>
               match snd prop with
               | JsBool _ | JsNumber _ | JsUndefined => snd result = snd prop
               | _ => ∃ text, snd result = JsStr text
               end) Example.filter Example.formattedFilter.
Proof.
  apply (formatObject_flattens Example.filter Example.formattedFilter).
  vm_compute. reflexivity.
Defined.

(** X16 at the same filter. *)
Lemma formatObject_escapes_quotes_witness :
  Forall (fun result => ∀ text, snd result = JsStr text →
                                quotesEscaped "034"%char text = true) Example.formattedFilter
  ∧ Forall2 (fun prop result =>
               JsValue.isObject (snd prop) = true →
               ∀ text, snd result = JsStr text → quotesEscaped "'"%char text = true)
      Example.filter Example.formattedFilter.
Proof.
  apply (formatObject_escapes_quotes Example.filter Example.formattedFilter).
  vm_compute. reflexivity.
Defined.

(** ** Conditions and value lists *)

Section Conditions.

Lemma trimEnd_head c r :
  JsString.is_space c = false → ∃ r', JsString.trimEnd (String c r) = String c r'.
Proof.
  intros Hc. simpl. destruct (JsString.trimEnd r).
  - rewrite Hc. by eexists.
  - by eexists.
Qed.

Lemma trimEnd_app_last s c :
  JsString.is_space c = false →
  JsString.trimEnd (s +:+ String c "") = s +:+ String c "".
Proof.
  intros Hc. induction s as [|d s IH].
  - rewrite append_nil_l. simpl. by rewrite Hc.
  - rewrite append_cons. simpl. rewrite IH. by destruct s.
Qed.

Lemma endsWith_unfold p s :
  JsString.endsWith p s
  = String.eqb p s || match s with
                      | EmptyString => false
                      | String _ r => JsString.endsWith p r
                      end.
Proof. by destruct s. Qed.

Lemma endsWith_app p s : JsString.endsWith p (s +:+ p) = true.
Proof.
  induction s as [|d s IH].
  - rewrite append_nil_l, endsWith_unfold. by rewrite String.eqb_refl.
  - rewrite append_cons, endsWith_unfold, IH. apply orb_true_r.
Qed.

Lemma escapes_bracketed (open close : ascii) (body : string) :
  open ≠ "034"%char → open ≠ "'"%char → close ≠ "034"%char → close ≠ "'"%char →
  escapeSingle (escapeDouble (String open "" +:+ (body +:+ String close "")))
  = String open (escapeSingle (escapeDouble body) +:+ String close "").
Proof.
  intros Ho1 Ho2 Hc1 Hc2. apply Ascii.eqb_neq in Ho1, Ho2, Hc1, Hc2.
  unfold escapeSingle, escapeDouble.
  rewrite append_cons, append_nil_l, replaceAll_cons, Ho1, replaceAll_app.
  rewrite (replaceAll_cons _ _ close ""), Hc1.
  rewrite replaceAll_cons, Ho2, replaceAll_app.
  by rewrite (replaceAll_cons _ _ close ""), Hc2.
Qed.

Lemma braced_text body : isBraced (String "{" (body +:+ "}")) = true.
Proof.
  unfold isBraced, JsString.trim.
  change (JsString.trimStart (String "{" (body +:+ "}"))) with (String "{" (body +:+ "}")).
  rewrite <- append_cons.
  rewrite (trimEnd_app_last (String "{" body) "}") by done.
  rewrite endsWith_app, append_cons, startsWith_cons. done.
Qed.

Lemma bracketed_text body :
  isBraced (String "[" (body +:+ "]")) = false
  ∧ String.eqb (String "[" (body +:+ "]")) "null" = false.
Proof.
  split.
  - unfold isBraced, JsString.trim.
    change (JsString.trimStart (String "[" (body +:+ "]"))) with (String "[" (body +:+ "]")).
    destruct (trimEnd_head "[" (body +:+ "]") eq_refl) as [r' ->].
    rewrite startsWith_cons. done.
  - apply String.eqb_neq. by intros [= ?].
Qed.

(** X17: the condition written for a value of a filter that went through
    [formatObject].  [null] gives [IS NULL] in a search (given as it is, it
    gives JSON_CONTAINS on the text null) and the string null in an update;
    an array gives an equality with its JSON text, not a list after IN; an
    object gives JSON_CONTAINS on its JSON text. *)
Theorem formatted_value_conditions (key : string) :
  (formatValue JsNull = inr (JsStr "null")
   ∧ defaultCondition false key (JsStr "null") = key +:+ " IS NULL"
   ∧ defaultCondition false key JsNull = "JSON_CONTAINS(" +:+ key +:+ ", 'null')"
   ∧ defaultCondition true key (JsStr "null") = key +:+ " = " +:+ dquote +:+ "null" +:+ dquote)
  ∧ (∀ items, ∃ text,
       formatValue (JsArray items) = inr (JsStr text)
       ∧ defaultCondition false key (JsStr text)
         = key +:+ " = " +:+ dquote +:+ text +:+ dquote)
  ∧ (∀ props, ∃ text,
       formatValue (JsObj props) = inr (JsStr text)
       ∧ defaultCondition false key (JsStr text)
         = "JSON_CONTAINS(" +:+ key +:+ ", '" +:+ text +:+ "')").
Proof.
  split; [by repeat split|]. split.
  - intros items. eexists. split; [reflexivity|].
    rewrite (escapes_bracketed "[" "]") by done.
    match goal with
    | |- context [String "[" (?body +:+ "]")] => destruct (bracketed_text body) as [Hb Hn]
    end.
    unfold defaultCondition, isJsonLike, isNull, equalsClause.
    by rewrite Hb, Hn.
  - intros props. eexists. split; [reflexivity|].
    rewrite (escapes_bracketed "{" "}") by done.
    unfold defaultCondition, isJsonLike, jsonContains, jsonVal.
    by rewrite braced_text.
Qed.

Lemma property_entry (filter : JsObject.obj jsValue) key value :
  NoDup (JsObject.keys filter) → (key, value) ∈ filter → property filter key = value.
Proof.
  unfold property, JsObject.keys.
  induction filter as [|[k v] rest IH]; [by intros _ ?%elem_of_nil|].
  simpl. intros [Hk Hrest]%NoDup_cons [[= -> ->]|Hin]%elem_of_cons.
  - by rewrite String.eqb_refl.
  - destruct (String.eqb key k) eqn:Heq; [|by apply IH].
    apply String.eqb_eq in Heq as ->. destruct Hk.
    apply list_elem_of_fmap. by exists (k, value).
Qed.

Lemma uniqueCondition_default key value :
  uniqueCondition key value = defaultCondition false key value.
Proof.
  unfold uniqueCondition, defaultCondition. destruct value; try done;
    by rewrite ?andb_true_r.
Qed.

Lemma uniqueKeys_entries filter schemaDict :
  uniqueKeys filter schemaDict = JsObject.keys (uniqueEntries filter schemaDict).
Proof.
  unfold uniqueKeys, uniqueEntries, JsObject.keys.
  induction filter as [|prop rest IH]; simpl; [done|].
  destruct (JsObject.get (fst prop) schemaDict) as [field|]; [|done].
  destruct (sf_unique field); simpl; by rewrite IH.
Qed.

(** X18: with a schema, a search condition is written from the entries of
    the filter whose key is a field declared unique, when there is one, as
    the condition without a schema is written from all the entries; with no
    such entry the schema changes nothing, and in an update it is not read. *)
Theorem generateCondition_unique_keys (filter : JsObject.obj jsValue)
    (schemaDict : JsObject.obj SchemaField) :
  NoDup (JsObject.keys filter) →
  generateCondition filter false (Some schemaDict)
  = generateCondition
      (match uniqueEntries filter schemaDict with
       | [] => filter
       | unique => unique
       end) false None
  ∧ generateCondition filter true (Some schemaDict) = generateCondition filter true None.
Proof.
  intros Hkeys. split; [|done].
  unfold generateCondition. rewrite uniqueKeys_entries.
  assert (∀ prop, prop ∈ uniqueEntries filter schemaDict → prop ∈ filter) as Hsub.
  { intros prop. unfold uniqueEntries. rewrite elem_of_List_filter. by intros [? _]. }
  destruct (uniqueEntries filter schemaDict) as [|first rest] eqn:Hunique; [done|].
  unfold JsObject.keys, JsObject.entries.
  change (map fst (first :: rest)) with (fst first :: map fst rest).
  cbv iota. change (fst first :: map fst rest) with (map fst (first :: rest)).
  revert Hsub. generalize (first :: rest). clear Hunique first rest. intros entries Hsub.
  change (" " +:+ "AND" +:+ " ") with " AND ".
  f_equal. rewrite List.map_map.
  apply List.map_ext_in. intros prop Hprop%list_elem_of_In%Hsub.
  rewrite uniqueCondition_default. f_equal.
  apply property_entry; [done|]. by destruct prop.
Qed.

(** X19: in the list of values of an INSERT, a string is written between
    double quotes with each double quote of its own after a backslash, and
    [null] is written NULL. *)
Theorem generateValueSQL_strings (texts : list (option string)) :
  generateValueSQL (map (fun text => match text with
                                     | Some s => JsStr s
                                     | None => JsNull
                                     end) texts)
  = JsString.join ", "
      (map (fun text => match text with
                        | Some s => dquote +:+ escapeDouble s +:+ dquote
                        | None => "NULL"
                        end) texts)
  ∧ ∀ s, quotesEscaped "034"%char (escapeDouble s) = true.
Proof.
  split; [|apply escapeDouble_escaped].
  unfold generateValueSQL, JsValue.arrayJoin. rewrite !List.map_map. f_equal.
  apply List.map_ext. by intros [s|].
Qed.

End Conditions.

(** X18 at a row of [accounts], whose [email] is unique: the condition is
    written from [email] alone. *)
Lemma generateCondition_unique_keys_witness :
  generateCondition Example.accountRow false (Some Example.accountSchema)
  = generateCondition [("email", JsStr "bob@example.org")] false None
  ∧ generateCondition Example.accountRow true (Some Example.accountSchema)
    = generateCondition Example.accountRow true None.
Proof.
  apply (generateCondition_unique_keys Example.accountRow Example.accountSchema).
  simpl. repeat (apply NoDup_cons; split; [set_solver|]). apply NoDup_nil_2.
Defined.

(** ** A statement that is refused stops the pass *)

Section FailFast.
Context {Env : Type} `{Collaborators Env}.

Lemma returning_tryCatch_always {A} P (m : M Env A) (h : exn → M Env A) :
  always P m → (∀ x, returning P (h x)) → returning P (tryCatch m h).
Proof.
  intros Hm Hh e a. unfold tryCatch. destruct (value_of (m e)) as [x|a'] eqn:Hv; simpl.
  - intros Hval. apply Forall_app. split; [apply Hm|by eapply Hh].
  - intros _. apply Hm.
Qed.

Lemma returning_tryCatch_rethrow {A} P (m : M Env A) (h : exn → M Env A) :
  returning P m → (∀ x e, ∃ y, value_of (h x e) = inl y) → returning P (tryCatch m h).
Proof.
  intros Hm Hh e a. unfold tryCatch. destruct (value_of (m e)) as [x|a'] eqn:Hv; simpl.
  - destruct (Hh x (env_of (m e))) as [y ->]. done.
  - intros _. by eapply Hm.
Qed.

Lemma returning_always {A} P (m : M Env A) : always P m → returning P m.
Proof. intros Hm e a _. apply Hm. Qed.

Lemma returning_impl {A} (P Q : event → Prop) (m : M Env A) :
  (∀ ev, P ev → Q ev) → returning P m → returning Q m.
Proof. intros HPQ Hm e a Hval. eapply Forall_impl; [by eapply Hm|done]. Qed.

Lemma answered_refusedInTry ev : answered ev → refusedInTry ev.
Proof. intros Hev s reason Heq. by apply Hev in Heq. Qed.

Lemma dropOrphan_refused dbTable : returning refusedInTry (dropOrphan dbTable).
Proof.
  unfold dropOrphan. apply returning_bind.
  { apply returning_tryCatch_always.
    - unfold backupTable, writeFileSync, logs. always_go; intros ? ? Heq; inversion Heq; subst; eauto.
    - intros x. apply returning_emit. by intros ? ? ?. }
  intros _. apply returning_bind; [apply returning_emit; by intros s reason|].
  intros _. apply returning_bind.
  { apply (returning_query _ (DropTable dbTable)). by intros ? ? ?. }
  intros _. apply returning_emit. by intros ? ? ?.
Qed.

Lemma ensureTable_refused model : returning refusedInTry (ensureTable model).
Proof.
  unfold ensureTable. apply returning_tryCatch_rethrow.
  - unfold generateCreateTableStatement, logs, error.
    apply returning_bind.
    { apply returning_bind; [apply returning_liftE|]. intros columns.
      destruct (ifReservedKeywords (name model)); [|apply returning_ret].
      apply returning_bind; [apply returning_emit; by intros s reason|].
      intros _. apply returning_ret. }
    intros sql. apply returning_bind.
    { apply (returning_query _ (CreateTable (name model) sql)). by intros ? ? ?. }
    intros _. apply returning_emit. by intros ? ? ?.
  - intros x e. unfold bind, error, emit, throw. simpl. by eexists.
Qed.

Lemma offerRestore_refused model : returning refusedInTry (offerRestore model).
Proof.
  apply returning_always.
  unfold offerRestore, replayBackup, disposeBackup, readFileSync, unlinkSync, renameSync,
    logs, error.
  always_go; intros ? ? Heq; inversion Heq; subst; eauto.
Qed.

(** X20: a pass that completes was refused no statement other than the
    reads and the replays that the code runs inside [try]: a CREATE TABLE,
    a DROP TABLE, a SHOW or an ALTER TABLE that the driver refuses stops the
    pass with an exception. *)
Theorem refused_statement_stops_pass (dangerousSync : bool) (w w' : world)
    (evs : list event) (s : stmt) (reason : string) :
  syncAllTables dangerousSync w = (w', evs, inr tt) →
  EvQuery s (Failed reason) ∈ evs →
  (∃ table, s = SelectAll table) ∨ (∃ sqlContent, s = Replay sqlContent).
Proof.
  intros (Hval & -> & _)%syncAllTables_inr Hin.
  assert (returning refusedInTry (syncPass dangerousSync (pendingModels w))) as Hpass.
  { unfold syncPass. destruct (registerModels (pendingModels w) [] ∅) as [dependencies modelMap].
    apply returning_bind.
    { apply (returning_query _ ShowTables). by intros ? ? ?. }
    intros dbTables. apply returning_bind.
    { destruct (topologicalSort dependencies modelMap);
        [apply returning_liftE|apply returning_throw]. }
    intros order. apply returning_bind.
    { unfold dropOrphans. apply returning_forEach. intros dbTable.
      destruct (hasModel modelMap dbTable); [apply returning_ret|apply dropOrphan_refused]. }
    intros _. unfold syncTables. apply returning_forEach. intros t.
    destruct (modelMap !! t) as [model|]; [|apply returning_throw].
    unfold syncTable. apply returning_bind; [apply ensureTable_refused|].
    intros _. apply returning_bind; [apply offerRestore_refused|].
    intros _. eapply returning_impl; [apply answered_refusedInTry|].
    apply syncColumns_answered. }
  specialize (Hpass (env w) tt Hval). eapply Forall_forall in Hpass; [|exact Hin].
  by eapply Hpass.
Qed.

End FailFast.

(** X20 in the test double: the pass completes although the replay of the
    empty backup of [user] was refused. *)
Lemma refused_statement_stops_pass_witness :
  (∃ table, Replay "" = SelectAll table) ∨ (∃ sqlContent, Replay "" = Replay sqlContent).
Proof.
  apply (refused_statement_stops_pass false Example.restoreWorld
           (syncAllTables false Example.restoreWorld).1.1
           (syncAllTables false Example.restoreWorld).1.2
           (Replay "") "ER_EMPTY_QUERY").
  - vm_compute. reflexivity.
  - vm_compute. repeat first [apply list_elem_of_here|apply list_elem_of_further].
Defined.
